(** * A trace-driven set-associative cache simulator (src/main.py)

    Shallow embedding of class [Cache] of src/main.py and of the loop of
    [main] that feeds it, followed by the properties of the simulator:
    address decoding, hit detection, the three replacement policies, the
    classification of misses and the bookkeeping of the counters.

    Python integers are unbounded, so every integer of the source is a [Z].
    A cache line is the three-element Python list [[tag, valid, timestamp]];
    a set is a Python list of lines; [self.cache] is a list of sets and
    [self.seen_tags] a set of pairs.  Exceptions are explicit: a call either
    returns ([Ok]) or raises ([Raise]), and in both cases it leaves the
    object in the state reached so far, as mutation in Python does. *)

From Stdlib Require Import ZArith Lia.
From Stdlib.Strings Require Import Byte.
From stdpp Require Import base option list sets gmap sorting strings.

Local Open Scope Z_scope.

(** * The program *)

(** ** Data *)

(** [self.subst]: main() accepts 'R', 'F' and 'L' only. *)
Inductive policy := Random | FIFO | LRU.

#[global] Instance policy_eq_dec : EqDecision policy.
Proof. solve_decision. Defined.

(** A line [[tag, True, self.total_accesses]]: positions 0, 1 and 2. *)
Record entry := Entry { entry_tag : Z; entry_valid : bool; entry_time : Z }.

#[global] Instance entry_eq_dec : EqDecision entry.
Proof. solve_decision. Defined.

Record Cache := mkCache {
  nsets : Z;
  bsize : Z;
  assoc : Z;
  subst : policy;
  cache : list (list entry);
  total_accesses : Z;
  hits : Z;
  misses : Z;
  compulsory_misses : Z;
  capacity_misses : Z;
  conflict_misses : Z;
  seen_tags : gset (Z * Z);
  address_bits : Z;
  offset_bits : Z;
  index_bits : Z;
  tag_bits : Z
}.

(** Attribute assignments [self.f = v]. *)
Definition set_cache (v : list (list entry)) (c : Cache) : Cache :=
  mkCache (nsets c) (bsize c) (assoc c) (subst c) v (total_accesses c)
    (hits c) (misses c) (compulsory_misses c) (capacity_misses c)
    (conflict_misses c) (seen_tags c) (address_bits c) (offset_bits c)
    (index_bits c) (tag_bits c).

Definition set_total_accesses (v : Z) (c : Cache) : Cache :=
  mkCache (nsets c) (bsize c) (assoc c) (subst c) (cache c) v
    (hits c) (misses c) (compulsory_misses c) (capacity_misses c)
    (conflict_misses c) (seen_tags c) (address_bits c) (offset_bits c)
    (index_bits c) (tag_bits c).

Definition set_hits (v : Z) (c : Cache) : Cache :=
  mkCache (nsets c) (bsize c) (assoc c) (subst c) (cache c) (total_accesses c)
    v (misses c) (compulsory_misses c) (capacity_misses c)
    (conflict_misses c) (seen_tags c) (address_bits c) (offset_bits c)
    (index_bits c) (tag_bits c).

Definition set_misses (v : Z) (c : Cache) : Cache :=
  mkCache (nsets c) (bsize c) (assoc c) (subst c) (cache c) (total_accesses c)
    (hits c) v (compulsory_misses c) (capacity_misses c)
    (conflict_misses c) (seen_tags c) (address_bits c) (offset_bits c)
    (index_bits c) (tag_bits c).

Definition set_compulsory_misses (v : Z) (c : Cache) : Cache :=
  mkCache (nsets c) (bsize c) (assoc c) (subst c) (cache c) (total_accesses c)
    (hits c) (misses c) v (capacity_misses c)
    (conflict_misses c) (seen_tags c) (address_bits c) (offset_bits c)
    (index_bits c) (tag_bits c).

Definition set_capacity_misses (v : Z) (c : Cache) : Cache :=
  mkCache (nsets c) (bsize c) (assoc c) (subst c) (cache c) (total_accesses c)
    (hits c) (misses c) (compulsory_misses c) v
    (conflict_misses c) (seen_tags c) (address_bits c) (offset_bits c)
    (index_bits c) (tag_bits c).

Definition set_conflict_misses (v : Z) (c : Cache) : Cache :=
  mkCache (nsets c) (bsize c) (assoc c) (subst c) (cache c) (total_accesses c)
    (hits c) (misses c) (compulsory_misses c) (capacity_misses c)
    v (seen_tags c) (address_bits c) (offset_bits c)
    (index_bits c) (tag_bits c).

Definition set_seen_tags (v : gset (Z * Z)) (c : Cache) : Cache :=
  mkCache (nsets c) (bsize c) (assoc c) (subst c) (cache c) (total_accesses c)
    (hits c) (misses c) (compulsory_misses c) (capacity_misses c)
    (conflict_misses c) v (address_bits c) (offset_bits c)
    (index_bits c) (tag_bits c).

(** Exceptions the methods can raise, and the result of a call. *)
Inductive exn := IndexError | ValueError.

Inductive result :=
  | Ok (c : Cache)
  | Raise (e : exn) (c : Cache).

Definition state_of (r : result) : Cache :=
  match r with Ok c => c | Raise _ c => c end.

Definition raised (r : result) : option exn :=
  match r with Ok _ => None | Raise e _ => Some e end.

(** ** Python primitives *)

(** [int.bit_length()]: the number of bits of the absolute value. *)
Definition bit_length (z : Z) : Z :=
  if z =? 0 then 0 else Z.log2 (Z.abs z) + 1.

(** Subscripting a list of length [n] with [i]: a negative index counts
    from the end, and anything outside raises IndexError ([None]).  The
    result is the position that the subscript denotes. *)
Definition py_index (n : nat) (i : Z) : option nat :=
  let j := if i <? 0 then i + Z.of_nat n else i in
  if (0 <=? j) && (j <? Z.of_nat n) then Some (Z.to_nat j) else None.

(** [l[i]], with the position it was read from. *)
Definition py_getitem {A} (l : list A) (i : Z) : option (nat * A) :=
  match py_index (length l) i with
  | None => None
  | Some p => match l !! p with Some x => Some (p, x) | None => None end
  end.

(** [l[i] = x]. *)
Definition py_setitem {A} (l : list A) (i : Z) (x : A) : option (list A) :=
  match py_index (length l) i with
  | None => None
  | Some p => Some (<[p := x]> l)
  end.

(** [l.remove(x)]: drops the first element equal to [x]; ValueError
    ([None]) when there is none. *)
Fixpoint py_remove `{EqDecision A} (x : A) (l : list A) : option (list A) :=
  match l with
  | [] => None
  | y :: l' => if decide (y = x) then Some l' else (y ::.) <$> py_remove x l'
  end.

(** [l.pop(0)], keeping the list that is left; IndexError on []. *)
Definition py_pop0 {A} (l : list A) : option (list A) :=
  match l with [] => None | _ :: l' => Some l' end.

(** [random.randint(a, b)]: some integer N with a <= N <= b, ValueError
    when the range is empty.  The generator is an oracle: [seed] is an
    arbitrary integer and the draw is its residue in the range, so every
    value of the range can be drawn and no other. *)
Definition randint (a b seed : Z) : option Z :=
  if b <? a then None else Some (a + seed mod (b - a + 1)).

(** ** The class *)

(** [Cache.log2] *)
Definition log2 (x : Z) : Z := bit_length (x - 1).

(** [Cache.__init__] with [calculate_address_fields] *)
Definition init (nsets bsize assoc : Z) (subst : policy) : Cache :=
  let address_bits := 32 in
  let offset_bits := log2 bsize in
  let index_bits := log2 nsets in
  mkCache nsets bsize assoc subst (replicate (Z.to_nat nsets) [])
    0 0 0 0 0 0 ∅ address_bits offset_bits index_bits
    (address_bits - offset_bits - index_bits).

(** [Cache.get_address_components] *)
Definition get_address_components (self : Cache) (address : Z) : Z * Z :=
  let offset_mask := Z.shiftl 1 (offset_bits self) - 1 in
  let index_mask := Z.shiftl 1 (index_bits self) - 1 in
  let index := Z.land (Z.shiftr address (offset_bits self)) index_mask in
  let tag := Z.shiftr address (offset_bits self + index_bits self) in
  (tag, index).

(** The test of the hit loop: [entry[0] == tag and entry[1]]. *)
Definition matches (tag : Z) (entry : entry) : Prop :=
  entry_tag entry = tag ∧ entry_valid entry = true.

#[global] Instance matches_dec tag entry : Decision (matches tag entry).
Proof. unfold matches. apply _. Defined.

(** The scan of the LRU branch: [i] is the position of the head of [l],
    [lru_idx] and [min_time] are the loop's variables. *)
Fixpoint lru_scan (l : list entry) (i lru_idx : nat) (min_time : Z) : nat :=
  match l with
  | [] => lru_idx
  | entry :: l' =>
      if entry_time entry <? min_time
      then lru_scan l' (S i) i (entry_time entry)
      else lru_scan l' (S i) lru_idx min_time
  end.

(** [lru_idx] after the loop; [set_content[0]] raises on an empty set. *)
Definition lru_victim (set_content : list entry) : option nat :=
  match set_content with
  | [] => None
  | e0 :: rest => Some (lru_scan rest 1 0 (entry_time e0))
  end.

(** [set_content] is the list object held at position [p] of [self.cache]:
    mutating it in place changes what the cache holds there. *)
Definition store (p : nat) (s : list entry) (self : Cache) : Cache :=
  set_cache (<[p := s]> (cache self)) self.

(** The miss classification, lines 68-75. *)
Definition classify (is_compulsory set_full cache_full : bool)
    (self : Cache) : Cache :=
  if is_compulsory then
    set_compulsory_misses (compulsory_misses self + 1) self
  else if set_full && cache_full then
    set_capacity_misses (capacity_misses self + 1) self
  else if set_full then
    set_conflict_misses (conflict_misses self + 1) self
  else
    set_compulsory_misses (compulsory_misses self + 1) self.

(** Installing the new line, lines 78-97. *)
Definition install (rng : Z → Z) (p : nat) (set_content : list entry)
    (set_full : bool) (new_entry : entry) (self : Cache) : result :=
  if negb set_full then
    Ok (store p (set_content ++ [new_entry]) self)
  else
    match subst self with
    | Random =>
        match randint 0 (assoc self - 1) (rng (total_accesses self)) with
        | None => Raise ValueError self
        | Some idx =>
            match py_setitem set_content idx new_entry with
            | None => Raise IndexError self
            | Some s => Ok (store p s self)
            end
        end
    | FIFO =>
        match py_pop0 set_content with
        | None => Raise IndexError self
        | Some s => Ok (store p (s ++ [new_entry]) self)
        end
    | LRU =>
        match lru_victim set_content with
        | None => Raise IndexError self
        | Some lru_idx => Ok (store p (<[lru_idx := new_entry]> set_content) self)
        end
    end.

(** The policy-specific touch of a hit, lines 51-55. *)
Definition touch (p : nat) (set_content : list entry) (i : nat)
    (entry : entry) (self : Cache) : result :=
  match subst self with
  | LRU =>
      let entry' := Entry (entry_tag entry) (entry_valid entry)
                          (total_accesses self) in
      Ok (store p (<[i := entry']> set_content) self)
  | FIFO =>
      match py_remove entry set_content with
      | None => Raise ValueError self
      | Some s => Ok (store p (s ++ [entry]) self)
      end
  | Random => Ok self
  end.

(** [Cache.access_cache].  [rng] is the random generator: the draw of the
    access numbered [n] is taken from [rng n]. *)
Definition access_cache (rng : Z → Z) (address : Z) (self : Cache) : result :=
  let self := set_total_accesses (total_accesses self + 1) self in
  let '(tag, index) := get_address_components self address in
  match py_getitem (cache self) index with
  | None => Raise IndexError self
  | Some (p, set_content) =>
      match list_find (matches tag) set_content with
      | Some (i, entry) =>
          let self := set_hits (hits self + 1) self in
          touch p set_content i entry self
      | None =>
          let self := set_misses (misses self + 1) self in
          let is_compulsory := bool_decide ((tag, index) ∉ seen_tags self) in
          let self := set_seen_tags ({[ (tag, index) ]} ∪ seen_tags self) self in
          let set_full := Z.of_nat (length set_content) >=? assoc self in
          let cache_full :=
            Z.of_nat (sum_list (length <$> cache self))
              >=? nsets self * assoc self in
          let self := classify is_compulsory set_full cache_full self in
          let new_entry := Entry tag true (total_accesses self) in
          install rng p set_content set_full new_entry self
      end
  end.

(** The loop of [main]: one call per address of the trace; an exception
    ends the program at once. *)
Fixpoint run (rng : Z → Z) (trace : list Z) (c : Cache) : result :=
  match trace with
  | [] => Ok c
  | address :: trace' =>
      match access_cache rng address c with
      | Ok c' => run rng trace' c'
      | Raise e c' => Raise e c'
      end
  end.

Definition simulate (nsets bsize assoc : Z) (subst : policy)
    (rng : Z → Z) (trace : list Z) : result :=
  run rng trace (init nsets bsize assoc subst).

(** What [main] checks before it builds the cache. *)
Definition valid_config (nsets bsize assoc : Z) : Prop :=
  0 < nsets ∧ 0 < bsize ∧ 0 < assoc.

(** The six counters, in the order of §3 of the specification. *)
Definition counters (c : Cache) : list Z :=
  [total_accesses c; hits c; misses c;
   compulsory_misses c; capacity_misses c; conflict_misses c].

(** The tags held by a set, in the order of the list. *)
Definition tags_of (s : list entry) : list Z := entry_tag <$> s.

(** ** The states inside an access *)

(** [set_full] and [cache_full] of lines 64 and 65. *)
Definition set_full (s : list entry) (c : Cache) : bool :=
  Z.of_nat (length s) >=? assoc c.

Definition cache_full (c : Cache) : bool :=
  Z.of_nat (sum_list (length <$> cache c)) >=? nsets c * assoc c.

(** The object when line 43 has run. *)
Definition counted (c : Cache) : Cache :=
  set_total_accesses (total_accesses c + 1) c.

(** The object when line 75 has run, on a miss of [(tag, index)] in the
    set [s]. *)
Definition classified (tag index : Z) (s : list entry) (c : Cache) : Cache :=
  classify (bool_decide ((tag, index) ∉ seen_tags c)) (set_full s c)
    (cache_full c)
    (set_seen_tags ({[ (tag, index) ]} ∪ seen_tags c)
       (set_misses (misses c + 1) (counted c))).

(** The three ways through [access_cache]: the subscript of line 45
    raises, the loop finds the tag, or it does not. *)
Inductive access_view (rng : Z → Z) (a : Z) (c : Cache) : Prop :=
  | view_raise tag index :
      get_address_components c a = (tag, index) →
      py_getitem (cache c) index = None →
      access_cache rng a c = Raise IndexError (counted c) →
      access_view rng a c
  | view_hit tag index p s i e :
      get_address_components c a = (tag, index) →
      py_getitem (cache c) index = Some (p, s) →
      list_find (matches tag) s = Some (i, e) →
      access_cache rng a c
        = touch p s i e (set_hits (hits c + 1) (counted c)) →
      access_view rng a c
  | view_miss tag index p s :
      get_address_components c a = (tag, index) →
      py_getitem (cache c) index = Some (p, s) →
      list_find (matches tag) s = None →
      access_cache rng a c
        = install rng p s (set_full s c)
            (Entry tag true (total_accesses c + 1))
            (classified tag index s c) →
      access_view rng a c.

(** ** Invariants *)

(** A set holds at most [assoc] lines, all valid, with distinct tags. *)
Definition set_ok (assoc : Z) (s : list entry) : Prop :=
  Z.of_nat (length s) ≤ assoc
  ∧ Forall (λ e, entry_valid e = true) s
  ∧ NoDup (tags_of s).

Definition wf (c : Cache) : Prop :=
  0 < assoc c ∧ 0 ≤ index_bits c ∧ Forall (set_ok (assoc c)) (cache c).

(** The fields that no access assigns. *)
Definition same_config (c c' : Cache) : Prop :=
  nsets c' = nsets c ∧ bsize c' = bsize c ∧ assoc c' = assoc c
  ∧ subst c' = subst c ∧ offset_bits c' = offset_bits c
  ∧ index_bits c' = index_bits c ∧ length (cache c') = length (cache c).

(** [k] is the ceiling of the base-2 logarithm of [n]: the least number of
    bits that tells [n] choices apart. *)
Definition is_ceil_log2 (n k : Z) : Prop :=
  0 ≤ k ∧ n ≤ 2 ^ k ∧ ∀ j, 0 ≤ j → n ≤ 2 ^ j → k ≤ j.

(** The two sums of §3 of the specification, and no negative counter. *)
Definition counters_ok (c : Cache) : Prop :=
  hits c + misses c = total_accesses c
  ∧ compulsory_misses c + capacity_misses c + conflict_misses c = misses c
  ∧ Forall (λ n, 0 ≤ n) (counters c).

(** The states a run goes through: the state after each access, up to and
    including an access that raises. *)
Fixpoint states (rng : Z → Z) (trace : list Z) (c : Cache) : list Cache :=
  match trace with
  | [] => []
  | address :: trace' =>
      match access_cache rng address c with
      | Ok c' => c' :: states rng trace' c'
      | Raise e c' => [c']
      end
  end.

(** The states after the accesses that returned. *)
Fixpoint returned (rng : Z → Z) (trace : list Z) (c : Cache) : list Cache :=
  match trace with
  | [] => []
  | address :: trace' =>
      match access_cache rng address c with
      | Ok c' => c' :: returned rng trace' c'
      | Raise e c' => []
      end
  end.

(** Every resident line was recorded when it was installed. *)
Definition resident_seen (c : Cache) : Prop :=
  ∀ p s t, cache c !! p = Some s → t ∈ tags_of s →
           (t, Z.of_nat p) ∈ seen_tags c.

(** A set with room has lost no line yet: it holds every tag recorded for
    its index. *)
Definition room_complete (c : Cache) : Prop :=
  ∀ p s t, cache c !! p = Some s → Z.of_nat (length s) < assoc c →
           (t, Z.of_nat p) ∈ seen_tags c → t ∈ tags_of s.

(** The compulsory misses are as many as the recorded pairs. *)
Definition tracked (c : Cache) : Prop :=
  wf c ∧ resident_seen c ∧ room_complete c
  ∧ compulsory_misses c = Z.of_nat (size (seen_tags c)).

(** The test of the last [else] of the classification (line 75): the
    access misses, its pair is recorded already and its set has room. *)
Definition defensive_branch (c : Cache) (address : Z) : Prop :=
  let '(tag, index) := get_address_components c address in
  ∃ p s, py_getitem (cache c) index = Some (p, s)
         ∧ list_find (matches tag) s = None
         ∧ bool_decide ((tag, index) ∉ seen_tags c) = false
         ∧ set_full s c = false.

(** The pairs (tag, index) of the addresses of a trace. *)
Definition pairs (c : Cache) (trace : list Z) : gset (Z * Z) :=
  list_to_set (get_address_components c <$> trace).

(** The distinct tags that a set of pairs holds for one index. *)
Definition tags_at (U : gset (Z * Z)) (index : Z) : gset Z :=
  set_map fst (filter (λ pr : Z * Z, pr.2 = index) U).

(** The invariant of a run whose working sets fit: no capacity or
    conflict miss so far, and what is recorded or still to come stays
    within [U]. *)
Definition fits (U : gset (Z * Z)) (rest : list Z) (c : Cache) : Prop :=
  tracked c
  ∧ (∀ index, Z.of_nat (size (tags_at U index)) ≤ assoc c)
  ∧ seen_tags c ∪ pairs c rest ⊆ U
  ∧ capacity_misses c = 0 ∧ conflict_misses c = 0
  ∧ compulsory_misses c = misses c.

(** What the next access depends on, apart from the recorded pairs and the
    counters of hits and misses. *)
Definition shape (c : Cache) : policy * Z * Z * Z * Z * list (list entry) :=
  (subst c, assoc c, offset_bits c, index_bits c, total_accesses c, cache c).

(** ** The two deterministic policies side by side *)

(** The lines of a FIFO set, front to back, are the lines of the LRU set
    from the least to the most recently used: [l] lists the lines of [sL]
    by strictly increasing stamp and has the tags of [sF] in their order.
    No stamp is beyond the access counter [T]. *)
Definition recency (T : Z) (sF sL : list entry) : Prop :=
  ∃ l, tags_of l = tags_of sF ∧ l ≡ₚ sL
       ∧ StronglySorted Z.lt (entry_time <$> l)
       ∧ Forall (λ e, entry_time e ≤ T) l.

(** The simulation between the run under 'F' and the run under 'L'. *)
Definition sim (cF cL : Cache) : Prop :=
  wf cF ∧ wf cL ∧ subst cF = FIFO ∧ subst cL = LRU
  ∧ nsets cF = nsets cL ∧ assoc cF = assoc cL
  ∧ offset_bits cF = offset_bits cL ∧ index_bits cF = index_bits cL
  ∧ counters cF = counters cL ∧ seen_tags cF = seen_tags cL
  ∧ Forall2 (recency (total_accesses cL)) (cache cF) (cache cL).

(** ** FIFO in the words of the specification *)

(** The first half of C3 in the words of the specification: under 'F' the
    line that leaves a set is the one inserted earliest, that is, with
    the smallest stamp, a stamp under 'F' being the access at which the
    line was installed. *)
Definition fifo_by_insertion : Prop :=
  ∀ nsets bsize assoc rng trace address p s s' e e',
    valid_config nsets bsize assoc →
    let c := state_of (simulate nsets bsize assoc FIFO rng trace) in
    let c' := state_of (access_cache rng address c) in
    cache c !! p = Some s → cache c' !! p = Some s' →
    e ∈ s → entry_tag e ∉ tags_of s' →
    e' ∈ s → entry_time e ≤ entry_time e'.

(** A consequence of the second half of C3: if hits did not alter the
    order of eviction, a trace with one more hit would leave the same tags
    resident. *)
Definition fifo_hits_irrelevant : Prop :=
  ∀ nsets bsize assoc rng prefix h suffix p s1 s2 t,
    valid_config nsets bsize assoc →
    let c := state_of (simulate nsets bsize assoc FIFO rng prefix) in
    (∃ tag index q s i e,
       get_address_components c h = (tag, index)
       ∧ py_getitem (cache c) index = Some (q, s)
       ∧ list_find (matches tag) s = Some (i, e)) →
    cache (state_of (simulate nsets bsize assoc FIFO rng
                       (prefix ++ h :: suffix))) !! p = Some s1 →
    cache (state_of (simulate nsets bsize assoc FIFO rng
                       (prefix ++ suffix))) !! p = Some s2 →
    t ∈ tags_of s1 → t ∈ tags_of s2.

(** ** Runs compared across configurations *)

(** [self.subst = v] *)
Definition set_subst (v : policy) (c : Cache) : Cache :=
  mkCache (nsets c) (bsize c) (assoc c) v (cache c) (total_accesses c)
    (hits c) (misses c) (compulsory_misses c) (capacity_misses c)
    (conflict_misses c) (seen_tags c) (address_bits c) (offset_bits c)
    (index_bits c) (tag_bits c).

(** The result of a call, had the policy been [v] all along. *)
Definition result_subst (v : policy) (r : result) : result :=
  match r with
  | Ok c => Ok (set_subst v c)
  | Raise e c => Raise e (set_subst v c)
  end.

(** A cache with fewer ways against one with more, both under 'F' and on
    the same trace: each set of the smaller holds the most recently touched
    lines of the same set of the larger. *)
Definition included (cS cB : Cache) : Prop :=
  wf cS ∧ wf cB ∧ subst cS = FIFO ∧ subst cB = FIFO
  ∧ offset_bits cS = offset_bits cB ∧ index_bits cS = index_bits cB
  ∧ assoc cS ≤ assoc cB
  ∧ total_accesses cS = total_accesses cB
  ∧ hits cS ≤ hits cB ∧ misses cB ≤ misses cS
  ∧ Forall2 (λ sS sB, tags_of sS `suffix_of` tags_of sB) (cache cS) (cache cB).

(** ** The command line: main *)

(** [struct.unpack('>I', data)[0]] on four bytes: big-endian. *)
Definition unpack_I (b0 b1 b2 b3 : byte) : Z :=
  ((Z.of_N (Byte.to_N b0) * 256 + Z.of_N (Byte.to_N b1)) * 256
   + Z.of_N (Byte.to_N b2)) * 256 + Z.of_N (Byte.to_N b3).

(** What ends the reading loop early: an exception of [access_cache], or
    [struct.error] on a last record of fewer than four bytes. *)
Inductive failure := Py (e : exn) | StructError.

Inductive loop_result :=
  | Finished (c : Cache)
  | Failed (e : failure) (c : Cache).

(** The loop of lines 151-157 on the content of the file: [f.read(4)]
    returns the next four bytes, fewer at the end of the file, and the
    empty string when nothing is left. *)
Fixpoint read_loop (rng : Z → Z) (data : list byte) (c : Cache)
    : loop_result :=
  match data with
  | [] => Finished c
  | b0 :: b1 :: b2 :: b3 :: rest =>
      match access_cache rng (unpack_I b0 b1 b2 b3) c with
      | Ok c' => read_loop rng rest c'
      | Raise e c' => Failed (Py e) c'
      end
  | _ => Failed StructError c
  end.

(** The complete records of a file, as addresses. *)
Fixpoint records (data : list byte) : list Z :=
  match data with
  | b0 :: b1 :: b2 :: b3 :: rest => unpack_I b0 b1 b2 b3 :: records rest
  | _ => []
  end.

(** The test [subst not in ['R', 'F', 'L']] of line 138. *)
Definition policy_of_string (s : string) : option policy :=
  if decide (s = "R") then Some Random
  else if decide (s = "F") then Some FIFO
  else if decide (s = "L") then Some LRU
  else None.

(** What [open(input_file, 'rb')] and the reads give. *)
Inductive file :=
  | Missing
  | Unreadable
  | Content (data : list byte).

(** What [main] prints before it ends. *)
Inductive printed :=
  | Usage
  | BadNumbers
  | BadSizes
  | BadPolicy
  | BadFlag
  | NotFound
  | ReadError
  | Stats (flag_out : Z) (c : Cache).

(** [main], lines 118-166: the message printed and the exit status.
    [py_int] is the built-in [int] on a string ([None] for ValueError),
    [py_upper] is [str.upper], [files] is the file system and [rng] the
    random generator.  [print_stats] is kept as the object and the flag it
    is called with. *)
Definition main (py_int : string → option Z) (py_upper : string → string)
    (files : string → file) (rng : Z → Z) (argv : list string)
    : printed * Z :=
  match argv with
  | [_; a1; a2; a3; a4; a5; a6] =>
      match py_int a1, py_int a2, py_int a3, py_int a5 with
      | Some nsets, Some bsize, Some assoc, Some flag_out =>
          let subst := py_upper a4 in
          let input_file := a6 in
          if (nsets <=? 0) || (bsize <=? 0) || (assoc <=? 0) then (BadSizes, 1)
          else match policy_of_string subst with
          | None => (BadPolicy, 1)
          | Some subst =>
              if negb ((flag_out =? 0) || (flag_out =? 1)) then (BadFlag, 1)
              else
                let cache := init nsets bsize assoc subst in
                match files input_file with
                | Missing => (NotFound, 1)
                | Unreadable => (ReadError, 1)
                | Content data =>
                    match read_loop rng data cache with
                    | Finished c => (Stats flag_out c, 0)
                    | Failed _ _ => (ReadError, 1)
                    end
                end
          end
      | _, _, _, _ => (BadNumbers, 1)
      end
  | _ => (Usage, 1)
  end.

(** * Properties *)

(** ** Basic facts about the primitives *)

Lemma bit_length_nonneg z : 0 ≤ bit_length z.
Proof.
  unfold bit_length. destruct (z =? 0); [lia|].
  pose proof (Z.log2_nonneg (Z.abs z)). lia.
Qed.

Lemma log2_nonneg x : 0 ≤ log2 x.
Proof. apply bit_length_nonneg. Qed.

(** On the positive integers [Cache.log2] is the ceiling of the base-2
    logarithm. *)
Lemma log2_log2_up n : 1 ≤ n → log2 n = Z.log2_up n.
Proof.
  intros Hn. unfold log2, bit_length.
  destruct (Z.eqb_spec (n - 1) 0) as [E|E].
  - replace n with 1 by lia. reflexivity.
  - rewrite Z.abs_eq by lia. unfold Z.log2_up.
    destruct (Z.compare_spec 1 n); try lia.
    replace (Z.pred n) with (n - 1) by lia. lia.
Qed.

Lemma log2_least n k : 1 ≤ n → 0 ≤ k → n ≤ 2 ^ k → log2 n ≤ k.
Proof.
  intros Hn Hk Hle. rewrite log2_log2_up by done.
  destruct (Z.eq_dec n 1) as [->|Hne]; [done|].
  rewrite <- (Z.log2_up_pow2 k) by done.
  apply Z.log2_up_le_mono. done.
Qed.

Lemma log2_covers n : 1 ≤ n → n ≤ 2 ^ log2 n.
Proof.
  intros Hn. rewrite log2_log2_up by done.
  destruct (Z.eq_dec n 1) as [->|Hne]; [done|].
  apply Z.log2_up_spec. lia.
Qed.

Lemma py_index_Some n i p :
  py_index n i = Some p → (p < n)%nat.
Proof.
  unfold py_index. intros H.
  destruct (i <? 0) eqn:Hi; case_match; simplify_eq; lia.
Qed.

Lemma py_index_nonneg n i :
  0 ≤ i → py_index n i = if i <? Z.of_nat n then Some (Z.to_nat i) else None.
Proof.
  intros Hi. unfold py_index.
  destruct (Z.ltb_spec i 0); [lia|].
  destruct (Z.leb_spec 0 i); [|lia]. done.
Qed.

Lemma py_getitem_Some {A} (l : list A) i p x :
  py_getitem l i = Some (p, x) →
  py_index (length l) i = Some p ∧ l !! p = Some x.
Proof.
  unfold py_getitem. intros H.
  destruct (py_index (length l) i) as [q|]; [|done].
  destruct (l !! q) eqn:E; naive_solver.
Qed.

Lemma py_getitem_None {A} (l : list A) i :
  py_getitem l i = None ↔ py_index (length l) i = None.
Proof.
  unfold py_getitem. destruct (py_index (length l) i) as [q|] eqn:E; [|done].
  apply py_index_Some in E. apply lookup_lt_is_Some in E as [x ->]. done.
Qed.

Lemma py_setitem_Some {A} (l : list A) i x l' :
  py_setitem l i x = Some l' →
  ∃ p, (p < length l)%nat ∧ l' = <[p := x]> l.
Proof.
  unfold py_setitem. destruct (py_index (length l) i) as [q|] eqn:E; [|done].
  intros [= <-]. apply py_index_Some in E. eauto.
Qed.

Lemma randint_range a b seed n : randint a b seed = Some n → a ≤ n ≤ b.
Proof.
  unfold randint. destruct (Z.ltb_spec b a); [done|]. intros [= <-].
  pose proof (Z.mod_pos_bound seed (b - a + 1)). lia.
Qed.

Lemma randint_Some a b seed : a ≤ b → is_Some (randint a b seed).
Proof. unfold randint. intros. destruct (Z.ltb_spec b a); [lia|]. eauto. Qed.

(** Every value of the range is drawn for some seed. *)
Lemma randint_onto a b n : a ≤ n ≤ b → randint a b (n - a) = Some n.
Proof.
  intros. unfold randint. destruct (Z.ltb_spec b a); [lia|].
  rewrite Z.mod_small by lia. f_equal. lia.
Qed.

(** [l.remove(x)] on a list whose first match is at [i]. *)
Lemma py_remove_lookup `{EqDecision A} (x : A) (l : list A) i :
  l !! i = Some x → (∀ j y, l !! j = Some y → (j < i)%nat → y ≠ x) →
  py_remove x l = Some (delete i l).
Proof.
  revert i. induction l as [|y l IH]; intros i Hi Hfirst; [done|].
  destruct i as [|i]; simpl in *.
  - simplify_eq. rewrite decide_True by done. done.
  - rewrite decide_False; [|by apply (Hfirst 0%nat); [done|lia]].
    rewrite (IH i); [done|done|].
    intros j z Hj Hlt. apply (Hfirst (S j)); [done|lia].
Qed.

(** The LRU scan returns the first position of the smallest timestamp. *)
Lemma lru_scan_spec l i lru_idx min_time :
  let r := lru_scan l i lru_idx min_time in
  (lru_idx < i)%nat →
  (r = lru_idx ∧ Forall (λ e, min_time ≤ entry_time e) l)
  ∨ (∃ e, l !! (r - i)%nat = Some e ∧ (i ≤ r)%nat ∧
          entry_time e < min_time ∧
          Forall (λ e', entry_time e ≤ entry_time e') l ∧
          ∀ j e', l !! j = Some e' → (j < r - i)%nat →
                  entry_time e < entry_time e').
Proof.
  revert i lru_idx min_time.
  induction l as [|e l IH]; intros i lru_idx min_time r Hlt.
  - left. split; [done|constructor].
  - subst r. simpl. destruct (Z.ltb_spec (entry_time e) min_time) as [Hc|Hc].
    + destruct (IH (S i) i (entry_time e)) as [[Hr Hall]|(e1&Hl&Hge&Hlt1&Hall&Hbefore)];
        [lia|..].
      * right. exists e. rewrite Hr. replace (i - i)%nat with 0%nat by lia.
        split_and!; [done|lia|done| |intros; lia].
        constructor; [lia|done].
      * right. exists e1.
        destruct (lru_scan l (S i) i (entry_time e) - i)%nat as [|k] eqn:Ek; [lia|].
        replace (lru_scan l (S i) i (entry_time e) - S i)%nat with k in * by lia.
        split_and!; [done|lia|lia| |].
        -- constructor; [lia|done].
        -- intros [|j] e' Hj Hjk; simpl in *; [simplify_eq; lia|].
           apply (Hbefore j); [done|lia].
    + destruct (IH (S i) lru_idx min_time) as [[Hr Hall]|(e1&Hl&Hge&Hlt1&Hall&Hbefore)];
        [lia|..].
      * left. split; [done|]. constructor; [lia|done].
      * right. exists e1.
        destruct (lru_scan l (S i) lru_idx min_time - i)%nat as [|k] eqn:Ek; [lia|].
        replace (lru_scan l (S i) lru_idx min_time - S i)%nat with k in * by lia.
        split_and!; [done|lia|lia| |].
        -- constructor; [lia|done].
        -- intros [|j] e' Hj Hjk; simpl in *; [simplify_eq; lia|].
           apply (Hbefore j); [done|lia].
Qed.

Lemma lru_victim_spec s i :
  lru_victim s = Some i →
  ∃ e, s !! i = Some e ∧
       (∀ j e', s !! j = Some e' → entry_time e ≤ entry_time e') ∧
       (∀ j e', s !! j = Some e' → (j < i)%nat → entry_time e < entry_time e').
Proof.
  destruct s as [|e0 rest]; [done|]. simpl. intros [= <-].
  destruct (lru_scan_spec rest 1 0 (entry_time e0)) as [[Hr Hall]|(e1&Hl&Hge&Hlt1&Hall&Hbefore)];
    [lia|..].
  - rewrite Hr. exists e0. split_and!; [done| |intros; lia].
    intros [|j] e' Hj; simpl in *; [simplify_eq; lia|].
    rewrite Forall_lookup in Hall. by apply (Hall j).
  - exists e1.
    destruct (lru_scan rest 1 0 (entry_time e0)) as [|r]; [lia|].
    simpl in *. replace (r - 0)%nat with r in * by lia.
    split_and!; [done| |].
    + intros [|j] e' Hj; simpl in *; [simplify_eq; lia|].
      rewrite Forall_lookup in Hall. by apply (Hall j).
    + intros [|j] e' Hj Hjr; simpl in *; [simplify_eq; lia|].
      apply (Hbefore j); [done|lia].
Qed.

Lemma lru_victim_is_Some s : s ≠ [] → is_Some (lru_victim s).
Proof. destruct s; [done|]. simpl. eauto. Qed.

(** ** The three ways through [access_cache] *)

Lemma access_cache_raise rng a c tag index :
  get_address_components c a = (tag, index) →
  py_getitem (cache c) index = None →
  access_cache rng a c = Raise IndexError (counted c).
Proof.
  intros Hd Hg. unfold access_cache.
  change (get_address_components (set_total_accesses _ c) a)
    with (get_address_components c a).
  rewrite Hd. simpl. rewrite Hg. done.
Qed.

Lemma access_cache_hit rng a c tag index p s i e :
  get_address_components c a = (tag, index) →
  py_getitem (cache c) index = Some (p, s) →
  list_find (matches tag) s = Some (i, e) →
  access_cache rng a c = touch p s i e (set_hits (hits c + 1) (counted c)).
Proof.
  intros Hd Hg Hf. unfold access_cache.
  change (get_address_components (set_total_accesses _ c) a)
    with (get_address_components c a).
  rewrite Hd. simpl. rewrite Hg, Hf. done.
Qed.

Lemma access_cache_miss rng a c tag index p s :
  get_address_components c a = (tag, index) →
  py_getitem (cache c) index = Some (p, s) →
  list_find (matches tag) s = None →
  access_cache rng a c =
    install rng p s (set_full s c)
      (Entry tag true (total_accesses c + 1)) (classified tag index s c).
Proof.
  intros Hd Hg Hf. unfold access_cache.
  change (get_address_components (set_total_accesses _ c) a)
    with (get_address_components c a).
  rewrite Hd. simpl. rewrite Hg, Hf.
  unfold classified, classify, set_full, cache_full. simpl.
  repeat case_match; done.
Qed.

Lemma access_cache_view rng a c : access_view rng a c.
Proof.
  destruct (get_address_components c a) as [tag index] eqn:Hd.
  destruct (py_getitem (cache c) index) as [[p s]|] eqn:Hg.
  - destruct (list_find (matches tag) s) as [[i e]|] eqn:Hf.
    + eapply view_hit; eauto using access_cache_hit.
    + eapply view_miss; eauto using access_cache_miss.
  - eapply view_raise; eauto using access_cache_raise.
Qed.

(** What [touch] and [install] leave in the cache. *)
Lemma touch_cases p s i e c :
  (∃ s', touch p s i e c = Ok (store p s' c) ∧
         ((subst c = LRU ∧
           s' = <[i := Entry (entry_tag e) (entry_valid e) (total_accesses c)]> s)
          ∨ (subst c = FIFO ∧ ∃ r, py_remove e s = Some r ∧ s' = r ++ [e])))
  ∨ (subst c = Random ∧ touch p s i e c = Ok c)
  ∨ (subst c = FIFO ∧ py_remove e s = None ∧ touch p s i e c = Raise ValueError c).
Proof.
  unfold touch. destruct (subst c) eqn:Hs.
  - right; left. done.
  - destruct (py_remove e s) as [r|] eqn:Hr.
    + left. eexists. split; [done|]. right. eauto.
    + right; right. done.
  - left. eexists. split; [done|]. left. done.
Qed.

Lemma install_cases rng p s full e c :
  (∃ s', install rng p s full e c = Ok (store p s' c) ∧
         ((full = false ∧ s' = s ++ [e])
          ∨ (full = true ∧ subst c = Random ∧
             ∃ idx, randint 0 (assoc c - 1) (rng (total_accesses c)) = Some idx ∧
                    py_setitem s idx e = Some s')
          ∨ (full = true ∧ subst c = FIFO ∧ ∃ r, py_pop0 s = Some r ∧ s' = r ++ [e])
          ∨ (full = true ∧ subst c = LRU ∧
             ∃ lru_idx, lru_victim s = Some lru_idx ∧ s' = <[lru_idx := e]> s)))
  ∨ (∃ x, install rng p s full e c = Raise x c ∧ full = true ∧
          ((subst c = Random ∧
            (randint 0 (assoc c - 1) (rng (total_accesses c)) = None
             ∨ ∃ idx, randint 0 (assoc c - 1) (rng (total_accesses c)) = Some idx ∧
                      py_setitem s idx e = None))
           ∨ (subst c ≠ Random ∧ s = []))).
Proof.
  unfold install. destruct full; simpl.
  2:{ left. eexists. split; [done|]. left. done. }
  destruct (subst c) eqn:Hs.
  - destruct (randint _ _ _) as [idx|] eqn:Hr.
    + destruct (py_setitem s idx e) as [s'|] eqn:Hset.
      * left. eexists. split; [done|]. right; left. eauto.
      * right. eexists. split; [done|]. split; [done|]. left. split; [done|].
        right. eauto.
    + right. eexists. split; [done|]. split; [done|]. left. eauto.
  - destruct s as [|e0 r]; simpl.
    + right. eexists. split; [done|]. split; [done|]. right. done.
    + left. eexists. split; [done|]. right; right; left. eauto.
  - destruct s as [|e0 r]; simpl.
    + right. eexists. split; [done|]. split; [done|]. right. done.
    + left. eexists. split; [done|]. right; right; right. eauto.
Qed.

(** ** Well-formed caches *)

Lemma insert_Permutation {A} (l : list A) v x :
  (v < length l)%nat → <[v := x]> l ≡ₚ x :: delete v l.
Proof.
  revert v. induction l as [|y l IH]; intros [|v] Hv; simpl in *; try lia.
  - done.
  - rewrite IH by lia. apply Permutation_swap.
Qed.

Lemma tags_of_insert_same s i e e' :
  s !! i = Some e → entry_tag e' = entry_tag e →
  tags_of (<[i := e']> s) = tags_of s.
Proof.
  intros Hi Ht. unfold tags_of. rewrite list_fmap_insert, Ht.
  apply list_insert_id. by rewrite list_lookup_fmap, Hi.
Qed.

Lemma find_hit_Some tag s i e :
  list_find (matches tag) s = Some (i, e) →
  s !! i = Some e ∧ entry_tag e = tag ∧ entry_valid e = true
  ∧ ∀ j y, s !! j = Some y → (j < i)%nat → ¬ matches tag y.
Proof.
  intros (Hi & [Ht Hv] & Hfirst)%list_find_Some. eauto.
Qed.

Lemma find_hit_None tag s :
  Forall (λ e, entry_valid e = true) s →
  list_find (matches tag) s = None → tag ∉ tags_of s.
Proof.
  intros Hv Hf Hin. rewrite list_find_None in Hf.
  unfold tags_of in Hin. apply list_elem_of_fmap in Hin as (e & -> & He).
  rewrite Forall_forall in Hv, Hf. apply (Hf e He). split; auto.
Qed.

Lemma find_hit_remove tag s i e :
  list_find (matches tag) s = Some (i, e) →
  py_remove e s = Some (delete i s).
Proof.
  intros (Hi & Ht & Hv & Hfirst)%find_hit_Some.
  apply py_remove_lookup; [done|].
  intros j y Hj Hlt ->. apply (Hfirst j e Hj Hlt). by split.
Qed.

(** One access on a well-formed cache: it raises only at the subscript
    of line 45, a hit keeps the lines of its set, and a miss appends its
    line to a set with room or puts it in the place of some line [v]. *)
Lemma access_step rng a c :
  wf c →
  ∃ tag index, get_address_components c a = (tag, index) ∧
  ((py_getitem (cache c) index = None
    ∧ access_cache rng a c = Raise IndexError (counted c))
   ∨ (∃ p s s', py_getitem (cache c) index = Some (p, s)
        ∧ tag ∈ tags_of s
        ∧ access_cache rng a c
          = Ok (store p s' (set_hits (hits c + 1) (counted c)))
        ∧ tags_of s' ≡ₚ tags_of s
        ∧ Forall (λ e, entry_valid e = true) s')
   ∨ (∃ p s s', py_getitem (cache c) index = Some (p, s)
        ∧ (tag ∉ tags_of s)
        ∧ access_cache rng a c = Ok (store p s' (classified tag index s c))
        ∧ ((set_full s c = false
            ∧ s' = s ++ [Entry tag true (total_accesses c + 1)])
           ∨ (set_full s c = true
              ∧ ∃ v e, s !! v = Some e
                 ∧ s' ≡ₚ Entry tag true (total_accesses c + 1) :: delete v s)))).
Proof.
  intros (Hassoc & Hbits & Hsets).
  destruct (access_cache_view rng a c)
    as [tag index Hd Hg Hr|tag index p s i e Hd Hg Hf Hr|tag index p s Hd Hg Hf Hr];
    exists tag, index; (split; [done|]).
  - left. done.
  - right; left. exists p, s.
    pose proof Hg as [_ Hp]%py_getitem_Some.
    pose proof (Forall_lookup_1 _ _ _ _ Hsets Hp) as (Hlen & Hvalid & Hnd).
    pose proof Hf as (Hi & Ht & Hv & Hfirst)%find_hit_Some.
    assert (tag ∈ tags_of s) as Hin.
    { unfold tags_of. apply list_elem_of_fmap. exists e. split; [done|].
      by eapply list_elem_of_lookup_2. }
    destruct (touch_cases p s i e (set_hits (hits c + 1) (counted c)))
      as [(s' & Ht' & [[Hpol ->]|(Hpol & r & Hrm & ->)])|[[Hpol Ht']|(Hpol & Hrm & _)]].
    + eexists. split_and!; [done|done|by rewrite Hr, Ht'| |].
      * by erewrite tags_of_insert_same.
      * apply Forall_insert; [done|]. done.
    + rewrite (find_hit_remove _ _ _ _ Hf) in Hrm. simplify_eq.
      eexists. split_and!; [done|done|by rewrite Hr, Ht'| |].
      * unfold tags_of. apply fmap_Permutation.
        rewrite (delete_Permutation s i e Hi) at 2.
        symmetry. apply Permutation_cons_append.
      * apply Forall_app. split; [|by constructor].
        by apply Forall_delete.
    + exists s. split_and!; [done|done| |done|done].
      rewrite Hr, Ht'. f_equal. unfold store. simpl.
      rewrite list_insert_id by done. done.
    + rewrite (find_hit_remove _ _ _ _ Hf) in Hrm. done.
  - right; right. exists p, s.
    pose proof Hg as [_ Hp]%py_getitem_Some.
    pose proof (Forall_lookup_1 _ _ _ _ Hsets Hp) as (Hlen & Hvalid & Hnd).
    pose proof (find_hit_None _ _ Hvalid Hf) as Hnotin.
    set (new := Entry tag true (total_accesses c + 1)) in *.
    assert (assoc (classified tag index s c) = assoc c) as Ha.
    { unfold classified, classify. repeat case_match; done. }
    destruct (install_cases rng p s (set_full s c) new (classified tag index s c))
      as [(s' & Hi & Hc)|(x & Hi & Hfull & Hc)].
    + exists s'. split_and!; [done|done|by rewrite Hr|].
      destruct Hc as [[Hfull ->]|[(Hfull & Hpol & idx & Hrand & Hset)|
        [(Hfull & Hpol & r & Hpop & ->)|(Hfull & Hpol & v & Hv & ->)]]].
      * left. done.
      * right. split; [done|].
        apply py_setitem_Some in Hset as (v & Hv & ->).
        destruct (lookup_lt_is_Some_2 s v Hv) as [e He].
        exists v, e. split; [done|]. by apply insert_Permutation.
      * right. split; [done|].
        destruct s as [|e0 r']; simplify_eq/=.
        exists 0%nat, e0. split; [done|]. simpl.
        symmetry. apply Permutation_cons_append.
      * right. split; [done|].
        apply lru_victim_spec in Hv as (e & He & _).
        exists v, e. split; [done|]. apply insert_Permutation.
        by eapply lookup_lt_Some.
    + exfalso. unfold set_full in Hfull.
      apply Z.geb_le in Hfull. rewrite Ha in Hc.
      destruct Hc as [[Hpol [Hrand|(idx & Hrand & Hset)]]|[Hpol ->]].
      * destruct (randint_Some 0 (assoc c - 1)
          (rng (total_accesses (classified tag index s c)))) as [? ?]; [lia|].
        congruence.
      * apply randint_range in Hrand.
        unfold py_setitem in Hset.
        rewrite py_index_nonneg in Hset by lia.
        destruct (Z.ltb_spec idx (Z.of_nat (length s))); [done|lia].
      * simpl in Hfull. lia.
Qed.

(** The fields that [classified] leaves alone, and those it sets. *)
Lemma classified_fields tag index s c :
  let c' := classified tag index s c in
  nsets c' = nsets c ∧ bsize c' = bsize c ∧ assoc c' = assoc c
  ∧ subst c' = subst c ∧ cache c' = cache c
  ∧ offset_bits c' = offset_bits c ∧ index_bits c' = index_bits c
  ∧ total_accesses c' = total_accesses c + 1
  ∧ hits c' = hits c ∧ misses c' = misses c + 1
  ∧ seen_tags c' = {[ (tag, index) ]} ∪ seen_tags c.
Proof. unfold classified, classify. repeat case_match; done. Qed.

Lemma tags_of_length s : length (tags_of s) = length s.
Proof. apply length_fmap. Qed.

Lemma set_ok_hit assoc s s' :
  set_ok assoc s → tags_of s' ≡ₚ tags_of s →
  Forall (λ e, entry_valid e = true) s' → set_ok assoc s'.
Proof.
  intros (Hlen & _ & Hnd) Hperm Hvalid. split_and!; [|done|by rewrite Hperm].
  rewrite <- (tags_of_length s'), Hperm, tags_of_length. done.
Qed.

Lemma set_ok_append assoc s tag t :
  set_ok assoc s → Z.of_nat (length s) < assoc → tag ∉ tags_of s →
  set_ok assoc (s ++ [Entry tag true t]).
Proof.
  intros (Hlen & Hvalid & Hnd) Hroom Hnotin. split_and!.
  - rewrite length_app. simpl. lia.
  - apply Forall_app. split; [done|]. by constructor.
  - unfold tags_of in *. rewrite fmap_app. simpl.
    apply NoDup_app. split_and!; [done| |apply NoDup_singleton].
    intros x Hx ->%list_elem_of_singleton. done.
Qed.

Lemma set_ok_replace assoc s s' v tag t :
  set_ok assoc s → tag ∉ tags_of s → (v < length s)%nat →
  s' ≡ₚ Entry tag true t :: delete v s →
  set_ok assoc s' ∧ length s' = length s.
Proof.
  intros (Hlen & Hvalid & Hnd) Hnotin Hv Hperm.
  assert (length s' = length s) as Hl.
  { rewrite Hperm. simpl. rewrite length_delete; [lia|].
    by apply lookup_lt_is_Some_2. }
  split; [|done]. split_and!.
  - lia.
  - rewrite Hperm. constructor; [done|]. by apply Forall_delete.
  - unfold tags_of in *. rewrite Hperm. simpl.
    assert ((entry_tag <$> delete v s) `sublist_of` (entry_tag <$> s)) as Hsub
      by apply fmap_sublist, sublist_delete.
    apply NoDup_cons. split.
    + intros Hin. apply Hnotin. by eapply elem_of_sublist.
    + by eapply sublist_NoDup.
Qed.

Lemma wf_access rng a c : wf c → wf (state_of (access_cache rng a c)).
Proof.
  intros Hwf. pose proof Hwf as (Hassoc & Hbits & Hsets).
  destruct (access_step rng a c Hwf) as (tag & index & Hd &
    [[Hg ->]|[(p & s & s' & Hg & Hin & -> & Hperm & Hvalid)
             |(p & s & s' & Hg & Hnotin & -> & Hc)]]).
  - done.
  - apply py_getitem_Some in Hg as [_ Hp].
    split_and!; [done|done|]. simpl.
    apply Forall_insert; [done|].
    eapply set_ok_hit; [|done|done].
    by eapply (Forall_lookup_1 _ _ _ _ Hsets).
  - apply py_getitem_Some in Hg as [_ Hp].
    pose proof (Forall_lookup_1 _ _ _ _ Hsets Hp) as Hok.
    pose proof (classified_fields tag index s c)
      as (_ & _ & Ha & _ & Hcache & _ & Hib & _).
    split_and!; simpl; [lia|lia|]. rewrite Ha, Hcache.
    apply Forall_insert; [done|].
    destruct Hc as [[Hfull ->]|(Hfull & v & e & Hv & Hperm)].
    + apply set_ok_append; [done| |done].
      unfold set_full in Hfull. lia.
    + eapply set_ok_replace; [done|done|by eapply lookup_lt_Some|done].
Qed.

Lemma wf_run rng trace c : wf c → wf (state_of (run rng trace c)).
Proof.
  revert c. induction trace as [|a trace IH]; intros c Hwf; [done|].
  simpl. pose proof (wf_access rng a c Hwf) as Hwf'.
  destruct (access_cache rng a c) as [c'|e c']; simpl in *; [by apply IH|done].
Qed.

Lemma wf_init nsets bsize assoc subst :
  valid_config nsets bsize assoc → wf (init nsets bsize assoc subst).
Proof.
  intros (Hn & Hb & Ha). split_and!; simpl; [done|apply log2_nonneg|].
  apply Forall_replicate. split_and!; simpl; [lia|done|constructor].
Qed.

(** An induction principle for the states of a run: a property of the
    initial state that every access preserves holds when the run ends. *)
Lemma run_invariant (P : Cache → Prop) rng :
  (∀ a c, P c → P (state_of (access_cache rng a c))) →
  ∀ trace c, P c → P (state_of (run rng trace c)).
Proof.
  intros Hstep trace. induction trace as [|a trace IH]; intros c Hc; [done|].
  simpl. pose proof (Hstep a c Hc) as Hc'.
  destruct (access_cache rng a c) as [c'|e c']; simpl in *; [by apply IH|done].
Qed.

(** ** What an access never changes *)

(** [touch] and [install] change nothing but the sets. *)
Lemma touch_state p s i e c :
  ∃ sets, state_of (touch p s i e c) = set_cache sets c
          ∧ length sets = length (cache c).
Proof.
  destruct (touch_cases p s i e c)
    as [(s' & -> & _)|[[_ ->]|(_ & _ & ->)]]; simpl.
  - eexists. split; [done|]. by rewrite length_insert.
  - exists (cache c). by destruct c.
  - exists (cache c). by destruct c.
Qed.

Lemma install_state rng p s full e c :
  ∃ sets, state_of (install rng p s full e c) = set_cache sets c
          ∧ length sets = length (cache c).
Proof.
  destruct (install_cases rng p s full e c)
    as [(s' & -> & _)|(x & -> & _)]; simpl.
  - eexists. split; [done|]. by rewrite length_insert.
  - exists (cache c). by destruct c.
Qed.

Lemma access_same_config rng a c :
  same_config c (state_of (access_cache rng a c)).
Proof.
  destruct (access_cache_view rng a c)
    as [tag index Hd Hg ->|tag index p s i e Hd Hg Hf ->|tag index p s Hd Hg Hf ->].
  - done.
  - destruct (touch_state p s i e (set_hits (hits c + 1) (counted c)))
      as (sets & -> & Hlen). by split_and!.
  - destruct (install_state rng p s (set_full s c)
                (Entry tag true (total_accesses c + 1)) (classified tag index s c))
      as (sets & -> & Hlen).
    pose proof (classified_fields tag index s c)
      as (? & ? & ? & ? & Hcache & ? & ? & _).
    rewrite Hcache in Hlen. by split_and!.
Qed.

Lemma run_same_config rng trace c :
  same_config c (state_of (run rng trace c)).
Proof.
  apply (run_invariant (same_config c)); [|by split_and!].
  intros a c1 H1. pose proof (access_same_config rng a c1) as H2.
  unfold same_config in *. intuition congruence.
Qed.

Lemma decode_same_config c c' a :
  same_config c c' →
  get_address_components c' a = get_address_components c a.
Proof.
  intros (_ & _ & _ & _ & Ho & Hi & _). unfold get_address_components.
  by rewrite Ho, Hi.
Qed.

(** The index is never negative, so the subscript of line 45 never wraps
    around: it reads position [index] or raises. *)
Lemma index_nonneg c a tag index :
  0 ≤ index_bits c → get_address_components c a = (tag, index) → 0 ≤ index.
Proof.
  intros Hib [= _ <-]. apply Z.land_nonneg. right.
  rewrite Z.shiftl_1_l. pose proof (Z.pow_pos_nonneg 2 (index_bits c)). lia.
Qed.

Lemma getitem_index c a tag index p s :
  0 ≤ index_bits c → get_address_components c a = (tag, index) →
  py_getitem (cache c) index = Some (p, s) →
  p = Z.to_nat index ∧ index = Z.of_nat p ∧ cache c !! p = Some s.
Proof.
  intros Hib Hd (Hp & Hs)%py_getitem_Some.
  pose proof (index_nonneg _ _ _ _ Hib Hd) as Hi.
  rewrite py_index_nonneg in Hp by done.
  case_match; simplify_eq. split_and!; [done|lia|done].
Qed.

(** ** Address decoding *)

Lemma log2_is_ceil_log2 n : 1 ≤ n → is_ceil_log2 n (log2 n).
Proof.
  intros Hn. split_and!.
  - apply log2_nonneg.
  - exact (log2_covers n Hn).
  - intros j Hj Hle. exact (log2_least n j Hn Hj Hle).
Qed.

Lemma decode_arith c a :
  0 ≤ offset_bits c → 0 ≤ index_bits c →
  get_address_components c a
  = (a / 2 ^ (offset_bits c + index_bits c),
     (a / 2 ^ offset_bits c) mod 2 ^ index_bits c).
Proof.
  intros Ho Hi. unfold get_address_components.
  rewrite !Z.shiftr_div_pow2 by lia. f_equal.
  replace (Z.shiftl 1 (index_bits c) - 1) with (Z.ones (index_bits c))
    by (unfold Z.ones; lia).
  by rewrite Z.land_ones.
Qed.

(** C7. Address decoding depends on the address, the block size and the
    number of sets only, whatever the simulator has done before: in every
    state of a run of a validated configuration it returns
    index = (address >> offset_bits) & ((1 << index_bits) - 1) and
    tag = address >> (offset_bits + index_bits), that is the quotient and
    remainder by the powers of two, where offset_bits and index_bits are
    the ceilings of the base-2 logarithms of the block size and of the
    number of sets, computed as the bit length of n - 1, which is 0 for
    n = 1. *)
Theorem address_decoding nsets bsize assoc subst rng trace address :
  valid_config nsets bsize assoc →
  let c := state_of (simulate nsets bsize assoc subst rng trace) in
  let ob := bit_length (bsize - 1) in
  let ib := bit_length (nsets - 1) in
  offset_bits c = ob ∧ index_bits c = ib
  ∧ is_ceil_log2 bsize ob ∧ is_ceil_log2 nsets ib
  ∧ bit_length (1 - 1) = 0
  ∧ get_address_components c address
    = (Z.shiftr address (ob + ib),
       Z.land (Z.shiftr address ob) (Z.shiftl 1 ib - 1))
  ∧ get_address_components c address
    = (address / 2 ^ (ob + ib), (address / 2 ^ ob) mod 2 ^ ib)
  ∧ get_address_components c address
    = get_address_components (init nsets bsize assoc subst) address.
Proof.
  intros (Hn & Hb & Ha) c ob ib.
  pose proof (run_same_config rng trace (init nsets bsize assoc subst)) as Hcfg.
  fold (simulate nsets bsize assoc subst rng trace) in Hcfg. fold c in Hcfg.
  pose proof Hcfg as (_ & _ & _ & _ & Ho & Hi & _). simpl in Ho, Hi.
  fold (log2 bsize) in ob. fold (log2 nsets) in ib.
  split_and!; try done.
  - apply log2_is_ceil_log2. lia.
  - apply log2_is_ceil_log2. lia.
  - unfold get_address_components. by rewrite Ho, Hi.
  - rewrite decode_arith; rewrite ?Ho, ?Hi; try apply log2_nonneg. done.
  - by apply decode_same_config.
Qed.

Lemma address_decoding_witness :
  valid_config 4 16 2
  ∧ get_address_components
      (state_of (simulate 4 16 2 LRU (λ _, 0) [0; 64; 200])) 200 = (3, 0).
Proof.
  assert (valid_config 4 16 2) as Hv by (unfold valid_config; lia).
  split; [exact Hv|].
  destruct (address_decoding 4 16 2 LRU (λ _, 0) [0; 64; 200] 200 Hv)
    as (_ & _ & _ & _ & _ & H & _).
  rewrite H. reflexivity.
Defined.

(** ** Miss classification *)

Lemma install_counters rng p s full e c :
  let c' := state_of (install rng p s full e c) in
  counters c' = counters c ∧ seen_tags c' = seen_tags c.
Proof.
  destruct (install_state rng p s full e c) as (sets & -> & _). done.
Qed.

Lemma touch_counters p s i e c :
  let c' := state_of (touch p s i e c) in
  counters c' = counters c ∧ seen_tags c' = seen_tags c.
Proof.
  destruct (touch_state p s i e c) as (sets & -> & _). done.
Qed.

Local Ltac solve_delta :=
  repeat (apply (f_equal2 cons); [lia|]); reflexivity.

(** C1. On every miss exactly one of the three miss counters goes up by
    one, chosen in this order on the state before the new line is
    installed: compulsory if (tag, index) was never recorded (and the pair
    is recorded), else capacity if the set is full and the whole cache is
    full, else conflict if the set is full, else compulsory. *)
Theorem miss_classification rng address c tag index p set_content :
  get_address_components c address = (tag, index) →
  py_getitem (cache c) index = Some (p, set_content) →
  list_find (matches tag) set_content = None →
  let c' := state_of (access_cache rng address c) in
  let len := Z.of_nat (length set_content) in
  let lines := Z.of_nat (sum_list (length <$> cache c)) in
  let delta := [compulsory_misses c' - compulsory_misses c;
                capacity_misses c' - capacity_misses c;
                conflict_misses c' - conflict_misses c] in
  misses c' = misses c + 1
  ∧ hits c' = hits c
  ∧ seen_tags c' = {[ (tag, index) ]} ∪ seen_tags c
  ∧ ((tag, index) ∉ seen_tags c → delta = [1; 0; 0])
  ∧ ((tag, index) ∈ seen_tags c → assoc c ≤ len →
       nsets c * assoc c ≤ lines → delta = [0; 1; 0])
  ∧ ((tag, index) ∈ seen_tags c → assoc c ≤ len →
       lines < nsets c * assoc c → delta = [0; 0; 1])
  ∧ ((tag, index) ∈ seen_tags c → len < assoc c → delta = [1; 0; 0]).
Proof.
  intros Hd Hg Hf c' len lines delta.
  subst c' delta len lines. rewrite (access_cache_miss _ _ _ _ _ _ _ Hd Hg Hf).
  destruct (install_counters rng p set_content (set_full set_content c)
              (Entry tag true (total_accesses c + 1))
              (classified tag index set_content c)) as [Hc Hs].
  simpl in Hc, Hs. injection Hc as _ -> -> -> -> ->. rewrite Hs.
  pose proof (classified_fields tag index set_content c)
    as (_ & _ & _ & _ & _ & _ & _ & _ & Hh & Hm & Hseen).
  split_and!; try done.
  - intros Hnew. unfold classified, classify.
    rewrite bool_decide_true by done. simpl. solve_delta.
  - intros Hold Hlen Hlines. unfold classified, classify, set_full, cache_full.
    rewrite bool_decide_false by (by intros []).
    destruct (Z.geb_spec (Z.of_nat (length set_content)) (assoc c)); [|lia].
    destruct (Z.geb_spec (Z.of_nat (sum_list (length <$> cache c))) (nsets c * assoc c)); [|lia].
    simpl. solve_delta.
  - intros Hold Hlen Hlines. unfold classified, classify, set_full, cache_full.
    rewrite bool_decide_false by (by intros []).
    destruct (Z.geb_spec (Z.of_nat (length set_content)) (assoc c)); [|lia].
    destruct (Z.geb_spec (Z.of_nat (sum_list (length <$> cache c))) (nsets c * assoc c)); [lia|].
    simpl. solve_delta.
  - intros Hold Hlen. unfold classified, classify, set_full, cache_full.
    rewrite bool_decide_false by (by intros []).
    destruct (Z.geb_spec (Z.of_nat (length set_content)) (assoc c)); [lia|].
    simpl. solve_delta.
Qed.

Lemma miss_classification_witness :
  let c := state_of (simulate 2 1 1 LRU (λ _, 0) [0; 2]) in
  let c' := state_of (access_cache (λ _, 0) 0 c) in
  get_address_components c 0 = (0, 0)
  ∧ py_getitem (cache c) 0 = Some (0%nat, [Entry 1 true 2])
  ∧ list_find (matches 0) [Entry 1 true 2] = None
  ∧ [compulsory_misses c' - compulsory_misses c;
     capacity_misses c' - capacity_misses c;
     conflict_misses c' - conflict_misses c] = [0; 0; 1].
Proof.
  intros c c'.
  assert (get_address_components c 0 = (0, 0)) as Hd by reflexivity.
  assert (py_getitem (cache c) 0 = Some (0%nat, [Entry 1 true 2])) as Hg
    by reflexivity.
  assert (list_find (matches 0) [Entry 1 true 2] = None) as Hf by reflexivity.
  split_and!; [exact Hd|exact Hg|exact Hf|].
  destruct (miss_classification (λ _, 0) 0 c 0 0 0%nat _ Hd Hg Hf)
    as (_ & _ & _ & _ & _ & H & _).
  apply H.
  - refine (bool_decide_unpack _ _). vm_compute. exact I.
  - vm_compute. discriminate.
  - vm_compute. reflexivity.
Defined.

(** ** The counters *)

Lemma classified_counters tag index s c :
  let c' := classified tag index s c in
  compulsory_misses c' + capacity_misses c' + conflict_misses c'
  = compulsory_misses c + capacity_misses c + conflict_misses c + 1
  ∧ compulsory_misses c ≤ compulsory_misses c'
  ∧ capacity_misses c ≤ capacity_misses c'
  ∧ conflict_misses c ≤ conflict_misses c'.
Proof. unfold classified, classify. repeat case_match; simpl; lia. Qed.

(** No counter ever goes down, and an access that returns keeps the two
    sums; the access that raises at line 45 has counted itself in
    [total_accesses] and in nothing else. *)
Lemma access_counters rng a c :
  let r := access_cache rng a c in
  Forall2 Z.le (counters c) (counters (state_of r))
  ∧ (counters_ok c → raised r ≠ Some IndexError → counters_ok (state_of r)).
Proof.
  destruct (access_cache_view rng a c)
    as [tag index Hd Hg ->|tag index p s i e Hd Hg Hf ->|tag index p s Hd Hg Hf ->].
  - simpl. split; [|done].
    repeat (constructor; [simpl; lia|]). constructor.
  - destruct (touch_counters p s i e (set_hits (hits c + 1) (counted c)))
      as [Hc _].
    destruct (touch_state p s i e (set_hits (hits c + 1) (counted c)))
      as (sets & Hst & _).
    simpl. rewrite Hst. simpl. split.
    + repeat (constructor; [simpl; lia|]). constructor.
    + intros (H1 & H2 & H3) _. unfold counters_ok, counters in *. simpl.
      rewrite !Forall_cons in H3. rewrite !Forall_cons.
      split_and!; try lia. constructor.
  - destruct (install_state rng p s (set_full s c)
                (Entry tag true (total_accesses c + 1)) (classified tag index s c))
      as (sets & Hst & _).
    pose proof (classified_fields tag index s c)
      as (_ & _ & _ & _ & _ & _ & _ & Ht & Hh & Hm & _).
    pose proof (classified_counters tag index s c) as (Hsum & H1 & H2 & H3).
    simpl in *. rewrite Hst. simpl. split.
    + repeat (constructor; [simpl; lia|]). constructor.
    + intros (Hhm & Hccc & Hpos) _. unfold counters_ok, counters in *. simpl.
      rewrite !Forall_cons in Hpos. rewrite !Forall_cons.
      split_and!; try lia. constructor.
Qed.

Lemma counters_ok_init nsets bsize assoc subst :
  counters_ok (init nsets bsize assoc subst).
Proof.
  split_and!; [done|done|]. repeat (constructor; [done|]). constructor.
Qed.

(** On a well-formed cache the subscript of line 45 is the only
    statement that can raise, and it does when the index is not below the
    number of sets. *)
Lemma access_raises rng a c :
  wf c →
  match access_cache rng a c with
  | Ok _ => (get_address_components c a).2 < Z.of_nat (length (cache c))
  | Raise e c' =>
      e = IndexError ∧ c' = counted c
      ∧ Z.of_nat (length (cache c)) ≤ (get_address_components c a).2
  end.
Proof.
  intros Hwf. pose proof Hwf as (_ & Hib & _).
  destruct (access_step rng a c Hwf) as (tag & index & Hd &
    [[Hg ->]|[(p & s & s' & Hg & _ & -> & _)|(p & s & s' & Hg & _ & -> & _)]]);
    rewrite Hd; simpl.
  - split_and!; [done|done|].
    apply py_getitem_None in Hg.
    rewrite py_index_nonneg in Hg by (by eapply index_nonneg).
    destruct (Z.ltb_spec index (Z.of_nat (length (cache c)))); [done|lia].
  - apply (getitem_index _ _ _ _ _ _ Hib Hd) in Hg as (_ & -> & Hp).
    apply lookup_lt_Some in Hp. lia.
  - apply (getitem_index _ _ _ _ _ _ Hib Hd) in Hg as (_ & -> & Hp).
    apply lookup_lt_Some in Hp. lia.
Qed.

Lemma returned_counters_ok rng trace c :
  counters_ok c → Forall counters_ok (returned rng trace c).
Proof.
  revert c. induction trace as [|a trace IH]; intros c Hc; [constructor|].
  simpl. pose proof (access_counters rng a c) as [_ Hok].
  destruct (access_cache rng a c) as [c'|e c']; [|constructor].
  simpl in Hok. constructor; [by apply Hok|]. apply IH. by apply Hok.
Qed.

Lemma states_monotone rng trace c :
  Forall (λ c', Forall2 Z.le (counters c) (counters c')) (states rng trace c).
Proof.
  revert c. induction trace as [|a trace IH]; intros c; [constructor|].
  simpl. pose proof (access_counters rng a c) as [Hle _].
  destruct (access_cache rng a c) as [c'|e c']; simpl in Hle.
  - constructor; [done|].
    eapply Forall_impl; [apply IH|]. intros c2 H2. simpl in H2.
    etrans; done.
  - constructor; [done|constructor].
Qed.

(** The counters of a whole run: both sums hold after every access that
    returned, and in every state the run goes through the counters are
    non-negative and not below where they started. *)
Lemma simulate_counters nsets bsize assoc subst rng trace :
  let c0 := init nsets bsize assoc subst in
  Forall counters_ok (returned rng trace c0)
  ∧ Forall (λ c, Forall2 Z.le (counters c0) (counters c)) (states rng trace c0)
  ∧ Forall (λ c, Forall (λ n, 0 ≤ n) (counters c)) (states rng trace c0).
Proof.
  intros c0. pose proof (states_monotone rng trace c0) as Hmono.
  split_and!; [apply returned_counters_ok, counters_ok_init|done|].
  eapply Forall_impl; [exact Hmono|]. intros c Hle. simpl in Hle.
  unfold counters in *. simpl in Hle.
  repeat (apply Forall2_cons_1 in Hle as [? Hle]).
  repeat (constructor; [done|]). constructor.
Qed.

(** ** Resident lines and recorded pairs *)

Lemma lookup_store q p s' c :
  (p < length (cache c))%nat →
  cache (store p s' c) !! q =
    if decide (q = p) then Some s' else cache c !! q.
Proof.
  intros Hp. unfold store. simpl. case_decide as Hq.
  - subst. by apply list_lookup_insert_eq.
  - by apply list_lookup_insert_ne.
Qed.

Lemma tracked_no_defensive_branch c a : tracked c → ¬ defensive_branch c a.
Proof.
  intros (Hwf & Hres & Hroom & Hcount). pose proof Hwf as (_ & Hib & Hsets).
  unfold defensive_branch.
  destruct (get_address_components c a) as [tag index] eqn:Hd.
  intros (p & s & Hg & Hf & Hseen & Hfull).
  apply (getitem_index _ _ _ _ _ _ Hib Hd) in Hg as (_ & -> & Hp).
  pose proof (Forall_lookup_1 _ _ _ _ Hsets Hp) as (_ & Hvalid & _).
  apply (find_hit_None _ _ Hvalid Hf).
  apply (Hroom p s tag Hp).
  - unfold set_full in Hfull. lia.
  - apply bool_decide_eq_false in Hseen.
    destruct (decide ((tag, Z.of_nat p) ∈ seen_tags c)); [done|].
    by destruct Hseen.
Qed.

Lemma tracked_access rng a c :
  tracked c → tracked (state_of (access_cache rng a c)).
Proof.
  intros Htr. pose proof Htr as (Hwf & Hres & Hroom & Hcount).
  pose proof (wf_access rng a c Hwf) as Hwf'.
  pose proof Hwf as (Hassoc & Hib & Hsets).
  destruct (access_step rng a c Hwf) as (tag & index & Hd &
    [[Hg Hr]|[(p & s & s' & Hg & Hin & Hr & Hperm & Hvalid)
             |(p & s & s' & Hg & Hnotin & Hr & Hc)]]);
    rewrite Hr in Hwf' |- *; simpl in Hwf' |- *.
  - done.
  - apply (getitem_index _ _ _ _ _ _ Hib Hd) in Hg as (_ & -> & Hp).
    pose proof (lookup_lt_Some _ _ _ Hp) as Hlt.
    split_and!; [done| | |done].
    + intros q s1 t Hq Ht. simpl.
      change (cache (store p s' (set_hits (hits c + 1) (counted c))) !! q
              = Some s1) in Hq.
      rewrite lookup_store in Hq by done. case_decide; simplify_eq.
      * apply (Hres p s t Hp). by rewrite <- Hperm.
      * by apply (Hres q s1 t).
    + intros q s1 t Hq Hlen Ht. simpl in *.
      change (cache (store p s' (set_hits (hits c + 1) (counted c))) !! q
              = Some s1) in Hq.
      rewrite lookup_store in Hq by done. case_decide; simplify_eq.
      * rewrite Hperm. apply (Hroom p s t Hp); [|done].
        rewrite <- (tags_of_length s), <- Hperm, tags_of_length. done.
      * by apply (Hroom q s1 t).
  - apply (getitem_index _ _ _ _ _ _ Hib Hd) in Hg as (_ & -> & Hp).
    pose proof (lookup_lt_Some _ _ _ Hp) as Hlt.
    pose proof (Forall_lookup_1 _ _ _ _ Hsets Hp) as Hok.
    pose proof (classified_fields tag (Z.of_nat p) s c)
      as (_ & _ & Ha & _ & Hcache & _ & _ & _ & _ & _ & Hseen).
    assert (∀ q, cache (store p s' (classified tag (Z.of_nat p) s c)) !! q
                 = if decide (q = p) then Some s' else cache c !! q) as Hlook.
    { intros q. rewrite lookup_store by (by rewrite Hcache). by rewrite Hcache. }
    assert (∀ t, t ∈ tags_of s' → t = tag ∨ t ∈ tags_of s) as Hsub.
    { intros t Ht. destruct Hc as [[_ ->]|(_ & v & e & Hv & Hperm')].
      - unfold tags_of in Ht. rewrite fmap_app in Ht.
        apply elem_of_app in Ht as [Ht|Ht]; [by right|].
        apply list_elem_of_singleton in Ht. by left.
      - unfold tags_of in Ht. rewrite Hperm' in Ht. simpl in Ht.
        apply elem_of_cons in Ht as [Ht|Ht]; [by left|right].
        eapply elem_of_sublist; [done|]. apply fmap_sublist, sublist_delete. }
    split_and!; [done| | |].
    + intros q s1 t Hq Ht. rewrite Hlook in Hq. simpl. rewrite Hseen.
      case_decide; simplify_eq.
      * destruct (Hsub t Ht) as [->|Ht'].
        -- by apply elem_of_union_l, elem_of_singleton.
        -- apply elem_of_union_r. by apply (Hres p s t).
      * apply elem_of_union_r. by apply (Hres q s1 t).
    + intros q s1 t Hq Hlen Ht. rewrite Hlook in Hq. simpl in Hlen, Ht.
      rewrite Ha in Hlen. rewrite Hseen in Ht.
      case_decide; simplify_eq.
      * destruct Hc as [[Hfull ->]|(Hfull & v & e & Hv & Hperm')].
        -- unfold tags_of. rewrite fmap_app. apply elem_of_app.
           apply elem_of_union in Ht as [Ht|Ht].
           ++ right. apply elem_of_singleton in Ht. simplify_eq.
              apply list_elem_of_singleton. reflexivity.
           ++ left. apply (Hroom p s t Hp); [|done].
              unfold set_full in Hfull. lia.
        -- exfalso.
           destruct (set_ok_replace _ _ _ _ _ _ Hok Hnotin
                       (lookup_lt_Some _ _ _ Hv) Hperm') as [_ Hl].
           unfold set_full in Hfull. lia.
      * apply (Hroom q s1 t Hq Hlen).
        apply elem_of_union in Ht as [Ht|Ht]; [|done].
        apply elem_of_singleton in Ht. simplify_eq.
    + simpl. rewrite Hseen. unfold classified, classify.
      destruct (decide ((tag, Z.of_nat p) ∈ seen_tags c)) as [Hold|Hnew].
      * rewrite bool_decide_false by (by intros []).
        rewrite (subseteq_union_1_L {[(tag, Z.of_nat p)]} (seen_tags c))
          by (by apply singleton_subseteq_l).
        assert (set_full s c = true) as ->.
        { destruct (set_full s c) eqn:Hfull; [done|]. exfalso.
          apply Hnotin, (Hroom p s tag Hp); [|done].
          unfold set_full in Hfull. lia. }
        simpl. by destruct (cache_full c).
      * rewrite bool_decide_true by done. simpl.
        rewrite size_union by (by apply disjoint_singleton_l).
        rewrite size_singleton. lia.
Qed.

Lemma tracked_init nsets bsize assoc subst :
  valid_config nsets bsize assoc → tracked (init nsets bsize assoc subst).
Proof.
  intros Hv. split_and!; [by apply wf_init| | |done].
  - intros p s t Hp Ht. simpl in Hp.
    apply lookup_replicate in Hp as [-> _]. by apply elem_of_nil in Ht.
  - intros p s t _ _ Ht. simpl in Ht. set_solver.
Qed.

Lemma tracked_run rng trace c : tracked c → tracked (state_of (run rng trace c)).
Proof. apply run_invariant. intros a c1. apply tracked_access. Qed.

(** An access that returns leaves its pair recorded, and nothing else is
    ever added. *)
Lemma access_seen rng a c :
  tracked c →
  match access_cache rng a c with
  | Ok c' => seen_tags c' = {[ get_address_components c a ]} ∪ seen_tags c
  | Raise _ c' => seen_tags c' = seen_tags c
  end.
Proof.
  intros (Hwf & Hres & _). pose proof Hwf as (_ & Hib & _).
  destruct (access_step rng a c Hwf) as (tag & index & Hd &
    [[Hg ->]|[(p & s & s' & Hg & Hin & -> & _)|(p & s & s' & Hg & _ & -> & _)]]);
    rewrite ?Hd; simpl.
  - done.
  - apply (getitem_index _ _ _ _ _ _ Hib Hd) in Hg as (_ & -> & Hp).
    specialize (Hres p s tag Hp Hin).
    symmetry. by apply subseteq_union_1_L, singleton_subseteq_l.
  - by pose proof (classified_fields tag index s c)
      as (_ & _ & _ & _ & _ & _ & _ & _ & _ & _ & ->).
Qed.

Lemma run_seen rng trace c c' :
  tracked c → run rng trace c = Ok c' →
  seen_tags c' = pairs c trace ∪ seen_tags c.
Proof.
  revert c. induction trace as [|a trace IH]; intros c Htr Hrun; simpl in *.
  - simplify_eq. unfold pairs. simpl. by rewrite (left_id_L ∅ (∪)).
  - pose proof (access_seen rng a c Htr) as Hs.
    pose proof (tracked_access rng a c Htr) as Htr'.
    pose proof (access_same_config rng a c) as Hcfg.
    destruct (access_cache rng a c) as [c1|e c1]; [|done]. simpl in *.
    rewrite (IH c1 Htr' Hrun), Hs. unfold pairs. rewrite fmap_cons. simpl.
    assert (get_address_components c1 <$> trace
            = get_address_components c <$> trace) as ->.
    { apply list_fmap_ext. intros _ x _. by apply decode_same_config. }
    rewrite (assoc_L (∪)). f_equal. apply (comm_L (∪)).
Qed.

(** ** Sets never shrink and never overflow *)

Lemma access_lengths rng a c p s s' :
  wf c → cache c !! p = Some s →
  cache (state_of (access_cache rng a c)) !! p = Some s' →
  (length s ≤ length s')%nat.
Proof.
  intros Hwf Hp Hp'. pose proof Hwf as (_ & _ & Hsets).
  destruct (access_step rng a c Hwf) as (tag & index & Hd &
    [[Hg Hr]|[(q & s1 & s1' & Hg & Hin & Hr & Hperm & Hvalid)
             |(q & s1 & s1' & Hg & Hnotin & Hr & Hc)]]);
    rewrite Hr in Hp'; cbn [state_of] in Hp'.
  - simpl in Hp'. by simplify_eq.
  - apply py_getitem_Some in Hg as [_ Hq].
    rewrite lookup_store in Hp' by (by eapply lookup_lt_Some).
    case_decide; simplify_eq/=; [|done].
    rewrite <- (tags_of_length s), <- Hperm, tags_of_length. done.
  - apply py_getitem_Some in Hg as [_ Hq].
    pose proof (classified_fields tag index s1 c)
      as (_ & _ & _ & _ & Hcache & _).
    rewrite lookup_store in Hp' by (rewrite Hcache; by eapply lookup_lt_Some).
    rewrite Hcache in Hp'. case_decide; simplify_eq/=; [|done].
    destruct Hc as [[_ ->]|(_ & v & e & Hv & Hperm)].
    + rewrite length_app. lia.
    + pose proof (Forall_lookup_1 _ _ _ _ Hsets Hp) as Hok.
      destruct (set_ok_replace _ _ _ _ _ _ Hok Hnotin
                  (lookup_lt_Some _ _ _ Hv) Hperm) as [_ ->]. done.
Qed.

(** C9. In every state of every run of a valid configuration each set
    holds at most [assoc] lines, every line is valid, and the tags of a
    set are pairwise distinct; and no access makes a set shorter. *)
Theorem sets_bounded nsets bsize assoc subst rng trace :
  valid_config nsets bsize assoc →
  let c := state_of (simulate nsets bsize assoc subst rng trace) in
  length (cache c) = Z.to_nat nsets
  ∧ (∀ p s, cache c !! p = Some s →
       Z.of_nat (length s) ≤ assoc
       ∧ (∀ e, e ∈ s → entry_valid e = true)
       ∧ NoDup (entry_tag <$> s))
  ∧ (∀ address p s s',
       cache c !! p = Some s →
       cache (state_of (access_cache rng address c)) !! p = Some s' →
       (length s ≤ length s')%nat).
Proof.
  intros Hv c.
  pose proof (wf_run rng trace _ (wf_init nsets bsize assoc subst Hv)) as Hwf.
  pose proof (run_same_config rng trace (init nsets bsize assoc subst))
    as (_ & _ & Ha & _ & _ & _ & Hlen).
  fold (simulate nsets bsize assoc subst rng trace) in Hwf, Ha, Hlen.
  fold c in Hwf, Ha, Hlen. simpl in Ha, Hlen.
  split_and!.
  - by rewrite Hlen, length_replicate.
  - intros p s Hp. destruct Hwf as (_ & _ & Hsets).
    pose proof (Forall_lookup_1 _ _ _ _ Hsets Hp) as (H1 & H2 & H3).
    rewrite Ha in H1. split_and!; [done| |done].
    by apply Forall_forall.
  - intros address p s s'. by apply access_lengths.
Qed.

Lemma sets_bounded_witness :
  valid_config 2 4 2
  ∧ (∀ p s,
       cache (state_of (simulate 2 4 2 FIFO (λ _, 0) [0; 8; 16; 0; 24]))
         !! p = Some s →
       Z.of_nat (length s) ≤ 2).
Proof.
  assert (valid_config 2 4 2) as Hv by (unfold valid_config; lia).
  split; [exact Hv|]. intros p s Hp.
  destruct (sets_bounded 2 4 2 FIFO (λ _, 0) [0; 8; 16; 0; 24] Hv)
    as (_ & H & _).
  destruct (H p s Hp) as (Hlen & _). exact Hlen.
Defined.

(** ** Traces that fit *)

Lemma elem_of_tags_at U index t : t ∈ tags_at U index ↔ (t, index) ∈ U.
Proof.
  unfold tags_at. rewrite elem_of_map. split.
  - intros ([t' i] & -> & [Hi Hin]%elem_of_filter). simpl in *. by subst.
  - intros Hin. exists (t, index). split; [done|].
    apply elem_of_filter. done.
Qed.

Lemma length_lt_size (l : list Z) (X : gset Z) y :
  NoDup l → (∀ x, x ∈ l → x ∈ X) → y ∈ X → y ∉ l →
  (length l < size X)%nat.
Proof.
  intros Hnd Hsub Hy Hnotin.
  assert (size (list_to_set l ∪ {[y]} : gset Z) = S (length l)) as Hsz.
  { rewrite size_union.
    - rewrite size_list_to_set by done. rewrite size_singleton. lia.
    - apply disjoint_singleton_r. by rewrite elem_of_list_to_set. }
  assert (list_to_set l ∪ {[y]} ⊆ X) as Hincl.
  { apply union_subseteq. split.
    - intros x Hx. apply Hsub. by apply elem_of_list_to_set in Hx.
    - by apply singleton_subseteq_l. }
  apply subseteq_size in Hincl. lia.
Qed.

Lemma fits_access rng U a rest c :
  fits U (a :: rest) c →
  let c' := state_of (access_cache rng a c) in
  fits U rest c' ∧ capacity_misses c' = 0 ∧ conflict_misses c' = 0.
Proof.
  intros (Htr & Hsize & Hsub & Hcap & Hconf & Hcomp) c'.
  pose proof (tracked_access rng a c Htr) as Htr'.
  pose proof (access_same_config rng a c) as Hcfg.
  pose proof Htr as (Hwf & Hres & _). pose proof Hwf as (_ & Hib & Hsets).
  assert (pairs c' rest = pairs c rest) as Hpairs.
  { unfold pairs. f_equal. apply list_fmap_ext. intros _ x _.
    by apply decode_same_config. }
  assert (get_address_components c a ∈ U) as HaU.
  { apply Hsub, elem_of_union_r. unfold pairs. rewrite fmap_cons. simpl.
    by apply elem_of_union_l, elem_of_singleton. }
  assert (seen_tags c ∪ pairs c rest ⊆ U) as Hsub'.
  { etrans; [|exact Hsub]. apply union_mono_l. unfold pairs.
    rewrite fmap_cons. simpl. apply union_subseteq_r. }
  cut (fits U rest c'); [intros H; split; [done|]; by destruct H as (_&_&_&?&?&_)|].
  subst c'.
  destruct (access_step rng a c Hwf) as (tag & index & Hd &
    [[Hg Hr]|[(p & s & s' & Hg & Hin & Hr & Hperm & Hvalid)
             |(p & s & s' & Hg & Hnotin & Hr & Hc)]]);
    rewrite Hr in Htr', Hpairs |- *; simpl in Hpairs |- *.
  - split_and!; try done; simpl; by rewrite ?Hpairs.
  - split_and!; try done; simpl; by rewrite ?Hpairs.
  - rewrite Hd in HaU.
    apply (getitem_index _ _ _ _ _ _ Hib Hd) in Hg as (_ & -> & Hp).
    pose proof (Forall_lookup_1 _ _ _ _ Hsets Hp) as (_ & _ & Hnd).
    pose proof (classified_fields tag (Z.of_nat p) s c)
      as (_ & _ & Ha & _ & _ & _ & _ & _ & _ & Hm & Hseen).
    assert (set_full s c = false) as Hroom.
    { unfold set_full. rewrite Z.geb_leb. apply Z.leb_gt.
      enough (length s < size (tags_at U (Z.of_nat p)))%nat
        by (specialize (Hsize (Z.of_nat p)); lia).
      rewrite <- (tags_of_length s).
      apply (length_lt_size (tags_of s) (tags_at U (Z.of_nat p)) tag);
        [done| |by apply elem_of_tags_at|done].
      intros t Ht. apply elem_of_tags_at, Hsub', elem_of_union_l.
      by apply (Hres p s t). }
    split_and!; simpl; rewrite ?Ha; try done.
    + rewrite Hseen, Hpairs. apply union_subseteq. split; [|by etrans; [apply union_subseteq_r|]].
      apply union_subseteq. split; [by apply singleton_subseteq_l|].
      by etrans; [apply union_subseteq_l|].
    + unfold classified, classify. rewrite Hroom. simpl.
      by case_match.
    + unfold classified, classify. rewrite Hroom. simpl.
      by case_match.
    + unfold classified, classify. rewrite Hroom. simpl.
      case_match; simpl; lia.
Qed.

Lemma fits_run rng U trace c :
  fits U trace c →
  let c' := state_of (run rng trace c) in
  capacity_misses c' = 0 ∧ conflict_misses c' = 0
  ∧ compulsory_misses c' = misses c'.
Proof.
  revert c. induction trace as [|a trace IH]; intros c Hfit; simpl.
  - by destruct Hfit as (_ & _ & _ & ? & ? & ?).
  - pose proof (fits_access rng U a trace c Hfit) as (Hfit' & Hcap & Hconf).
    destruct (access_cache rng a c) as [c1|e c1]; simpl in *.
    + by apply IH.
    + by destruct Hfit' as (_ & _ & _ & ? & ? & ?).
Qed.

(** C8. When, for every index, the distinct tags of the trace that map to
    it are no more than the associativity, the run ends without a capacity
    or a conflict miss: every miss was counted compulsory. *)
Theorem working_set_fits nsets bsize assoc subst rng trace :
  valid_config nsets bsize assoc →
  (∀ index,
     Z.of_nat (size (tags_at (pairs (init nsets bsize assoc subst) trace) index))
     ≤ assoc) →
  let c := state_of (simulate nsets bsize assoc subst rng trace) in
  capacity_misses c = 0 ∧ conflict_misses c = 0
  ∧ compulsory_misses c = misses c.
Proof.
  intros Hv Hfit. apply (fits_run rng (pairs (init nsets bsize assoc subst) trace)).
  split_and!; try done.
  - by apply tracked_init.
  - simpl. by rewrite (left_id_L ∅ (∪)).
Qed.

Lemma working_set_fits_witness :
  valid_config 1 1 2
  ∧ (∀ index,
       Z.of_nat (size (tags_at (pairs (init 1 1 2 FIFO) [0; 1; 0; 1]) index))
       ≤ 2)
  ∧ (let c := state_of (simulate 1 1 2 FIFO (λ _, 0) [0; 1; 0; 1]) in
     capacity_misses c = 0 ∧ conflict_misses c = 0
     ∧ compulsory_misses c = misses c).
Proof.
  assert (valid_config 1 1 2) as Hv by (unfold valid_config; lia).
  assert (∀ index,
    Z.of_nat (size (tags_at (pairs (init 1 1 2 FIFO) [0; 1; 0; 1]) index)) ≤ 2)
    as Hfit.
  { intros index.
    assert (tags_at (pairs (init 1 1 2 FIFO) [0; 1; 0; 1]) index
            ⊆ ({[0; 1]} : gset Z)) as Hsub.
    { intros t Ht. apply elem_of_tags_at in Ht. unfold pairs in Ht.
      apply elem_of_list_to_set in Ht. cbn in Ht.
      rewrite !elem_of_cons in Ht. rewrite elem_of_union, !elem_of_singleton.
      destruct Ht as [Ht|[Ht|[Ht|[Ht|Ht]]]];
        [injection Ht as -> _; by left|injection Ht as -> _; by right
        |injection Ht as -> _; by left|injection Ht as -> _; by right
        |by apply elem_of_nil in Ht]. }
    apply subseteq_size in Hsub.
    assert (size ({[0; 1]} : gset Z) = 2%nat) as Hsz by (vm_compute; reflexivity).
    lia. }
  split_and!; [exact Hv|exact Hfit|].
  exact (working_set_fits 1 1 2 FIFO (λ _, 0) [0; 1; 0; 1] Hv Hfit).
Defined.

(** ** Compulsory misses and distinct pairs *)

(** In a run that goes through the whole trace the compulsory misses are
    as many as the distinct pairs of the trace. *)
Lemma compulsory_is_distinct_pairs nsets bsize assoc subst rng trace c :
  valid_config nsets bsize assoc →
  simulate nsets bsize assoc subst rng trace = Ok c →
  compulsory_misses c
  = Z.of_nat (size (pairs (init nsets bsize assoc subst) trace)).
Proof.
  intros Hv Hrun. pose proof (tracked_init nsets bsize assoc subst Hv) as Htr.
  pose proof (tracked_run rng trace _ Htr) as (_ & _ & _ & Hcount).
  unfold simulate in Hrun. rewrite Hrun in Hcount. simpl in Hcount.
  rewrite Hcount, (run_seen rng trace _ c Htr Hrun). simpl.
  by rewrite (right_id_L ∅ (∪)).
Qed.

(** Whatever the run, also one that an exception cuts short: the
    compulsory misses are as many as the recorded pairs, and the last
    branch of the classification is never taken. *)
Lemma defensive_branch_unreachable nsets bsize assoc subst rng trace address :
  valid_config nsets bsize assoc →
  let c := state_of (simulate nsets bsize assoc subst rng trace) in
  compulsory_misses c = Z.of_nat (size (seen_tags c))
  ∧ ¬ defensive_branch c address.
Proof.
  intros Hv c. pose proof (tracked_init nsets bsize assoc subst Hv) as Htr.
  pose proof (tracked_run rng trace _ Htr) as Htr'.
  split; [by destruct Htr' as (_ & _ & _ & ?)|].
  by apply tracked_no_defensive_branch.
Qed.

(** A run returns as long as every index is below the number of sets,
    which is the case when [nsets] is a power of two. *)
Lemma run_returns rng trace c :
  wf c →
  Forall (λ a, (get_address_components c a).2 < Z.of_nat (length (cache c)))
    trace →
  ∃ c', run rng trace c = Ok c'.
Proof.
  revert c. induction trace as [|a trace IH]; intros c Hwf Hall; [by eexists|].
  apply Forall_cons in Hall as [Ha Hall]. simpl.
  pose proof (access_raises rng a c Hwf) as Hr.
  pose proof (wf_access rng a c Hwf) as Hwf'.
  pose proof (access_same_config rng a c) as Hcfg.
  destruct (access_cache rng a c) as [c1|e c1]; cbn [state_of] in *.
  - apply IH; [done|].
    eapply Forall_impl; [exact Hall|]. intros x Hx. cbv beta in Hx.
    rewrite (decode_same_config c c1 x Hcfg).
    destruct Hcfg as (_ & _ & _ & _ & _ & _ & ->). done.
  - lia.
Qed.

Lemma index_below_pow2 c a :
  0 ≤ index_bits c → (get_address_components c a).2 < 2 ^ index_bits c.
Proof.
  intros Hib. simpl.
  replace (Z.shiftl 1 (index_bits c) - 1) with (Z.ones (index_bits c))
    by (unfold Z.ones; lia).
  rewrite Z.land_ones by done. apply Z.mod_pos_bound.
  by apply Z.pow_pos_nonneg.
Qed.

Lemma simulate_returns k bsize assoc subst rng trace :
  0 ≤ k → 0 < bsize → 0 < assoc →
  ∃ c, simulate (2 ^ k) bsize assoc subst rng trace = Ok c.
Proof.
  intros Hk Hb Ha. pose proof (Z.pow_pos_nonneg 2 k) as Hpos.
  apply run_returns.
  - apply wf_init. unfold valid_config. lia.
  - apply Forall_forall. intros a _.
    pose proof (index_below_pow2 (init (2 ^ k) bsize assoc subst) a) as Hlt.
    cbn [index_bits init cache] in Hlt |- *. rewrite length_replicate.
    assert (log2 (2 ^ k) = k) as Hlog.
    { rewrite log2_log2_up by lia. by apply Z.log2_up_pow2. }
    rewrite Hlog in Hlt. specialize (Hlt Hk). lia.
Qed.

(** ** The run on addresses 0, 1, 0, 2 *)

(** C4, as the specification has it, fails: the fourth access is not
    counted as a capacity miss. *)
Lemma end_to_end_not_capacity :
  counters (state_of (simulate 1 1 2 LRU (λ _, 0) [0; 1; 0; 2]))
  ≠ [4; 1; 3; 2; 1; 0].
Proof. vm_compute. discriminate. Qed.

(** C4, amended. With num_sets = 1, block_size = 1, associativity = 2 and
    policy LRU the addresses 0, 1, 0, 2 decode to the tags 0, 1, 0, 2 of
    index 0; the counters (total, hits, misses, compulsory, capacity,
    conflict) after each access show a compulsory miss, a compulsory miss,
    a hit and again a compulsory miss, tag 2 never having been recorded:
    they end as 4, 1, 3, 3, 0, 0. *)
Theorem end_to_end_example rng :
  get_address_components (init 1 1 2 LRU) <$> [0; 1; 0; 2]
  = [(0, 0); (1, 0); (0, 0); (2, 0)]
  ∧ counters <$> states rng [0; 1; 0; 2] (init 1 1 2 LRU)
    = [[1; 0; 1; 1; 0; 0];
       [2; 0; 2; 2; 0; 0];
       [3; 1; 2; 2; 0; 0];
       [4; 1; 3; 3; 0; 0]]
  ∧ raised (simulate 1 1 2 LRU rng [0; 1; 0; 2]) = None
  ∧ counters (state_of (simulate 1 1 2 LRU rng [0; 1; 0; 2]))
    = [4; 1; 3; 3; 0; 0].
Proof. vm_compute. done. Qed.

(** ** An index beyond the last set *)

(** C2 at num_sets = 3, block_size = 1, associativity = 1 and the trace of
    the one address 3: the index has two bits and is 3, the subscript of
    line 45 raises IndexError, and the access stays counted in
    total_accesses although it is neither a hit nor a miss. *)
Theorem index_error_breaks_counters subst rng :
  valid_config 3 1 1
  ∧ get_address_components (init 3 1 1 subst) 3 = (0, 3)
  ∧ raised (simulate 3 1 1 subst rng [3]) = Some IndexError
  ∧ counters (state_of (simulate 3 1 1 subst rng [3])) = [1; 0; 0; 0; 0; 0]
  ∧ (let c := state_of (simulate 3 1 1 subst rng [3]) in
     hits c + misses c ≠ total_accesses c).
Proof.
  split; [unfold valid_config; lia|]. destruct subst; vm_compute; done.
Qed.

(** C5 at the same input: the trace holds one pair, (0, 3), and the run
    ends with no compulsory miss, the access having raised before it was
    classified. *)
Theorem index_error_skips_pair subst rng :
  valid_config 3 1 1
  ∧ pairs (init 3 1 1 subst) [3] = {[ (0, 3) ]}
  ∧ size (pairs (init 3 1 1 subst) [3]) = 1%nat
  ∧ raised (simulate 3 1 1 subst rng [3]) = Some IndexError
  ∧ compulsory_misses (state_of (simulate 3 1 1 subst rng [3])) = 0.
Proof.
  split; [unfold valid_config; lia|]. destruct subst; vm_compute; done.
Qed.

(** ** The LRU policy *)

Lemma shape_miss_room rng a c tag index p s :
  get_address_components c a = (tag, index) →
  py_getitem (cache c) index = Some (p, s) →
  list_find (matches tag) s = None →
  set_full s c = false →
  ∃ c', access_cache rng a c = Ok c'
    ∧ shape c' = (subst c, assoc c, offset_bits c, index_bits c,
                  total_accesses c + 1,
                  <[p := s ++ [Entry tag true (total_accesses c + 1)]]> (cache c)).
Proof.
  intros Hd Hg Hf Hfull. rewrite (access_cache_miss _ _ _ _ _ _ _ Hd Hg Hf).
  unfold install. rewrite Hfull. simpl. eexists. split; [done|].
  pose proof (classified_fields tag index s c)
    as (_ & _ & Ha & Hs & Hc & Ho & Hi & Ht & _).
  unfold shape, store. simpl. by rewrite Ha, Hs, Hc, Ho, Hi, Ht.
Qed.

Lemma shape_miss_lru rng a c tag index p s v :
  subst c = LRU →
  get_address_components c a = (tag, index) →
  py_getitem (cache c) index = Some (p, s) →
  list_find (matches tag) s = None →
  set_full s c = true →
  lru_victim s = Some v →
  ∃ c', access_cache rng a c = Ok c'
    ∧ shape c' = (LRU, assoc c, offset_bits c, index_bits c,
                  total_accesses c + 1,
                  <[p := <[v := Entry tag true (total_accesses c + 1)]> s]> (cache c)).
Proof.
  intros Hpol Hd Hg Hf Hfull Hv.
  rewrite (access_cache_miss _ _ _ _ _ _ _ Hd Hg Hf).
  pose proof (classified_fields tag index s c)
    as (_ & _ & Ha & Hs & Hc & Ho & Hi & Ht & _).
  unfold install. rewrite Hfull, Hs, Hpol, Hv. simpl. eexists. split; [done|].
  unfold shape, store. simpl. by rewrite Ha, Hs, Hc, Ho, Hi, Ht, Hpol.
Qed.

Lemma shape_hit_lru rng a c tag index p s i e :
  subst c = LRU →
  get_address_components c a = (tag, index) →
  py_getitem (cache c) index = Some (p, s) →
  list_find (matches tag) s = Some (i, e) →
  ∃ c', access_cache rng a c = Ok c'
    ∧ shape c' = (LRU, assoc c, offset_bits c, index_bits c,
                  total_accesses c + 1,
                  <[p := <[i := Entry (entry_tag e) (entry_valid e)
                                      (total_accesses c + 1)]> s]> (cache c)).
Proof.
  intros Hpol Hd Hg Hf. rewrite (access_cache_hit _ _ _ _ _ _ _ _ _ Hd Hg Hf).
  unfold touch. simpl. rewrite Hpol. eexists. split; [done|].
  unfold shape, store. simpl. by rewrite Hpol.
Qed.

Lemma decode_no_bits c a :
  offset_bits c = 0 → index_bits c = 0 → get_address_components c a = (a, 0).
Proof.
  intros Ho Hi. unfold get_address_components. rewrite Ho, Hi. simpl.
  by rewrite Z.shiftr_0_r, Z.land_0_r.
Qed.

Lemma find_hit_head tag e s :
  entry_tag e = tag → entry_valid e = true →
  list_find (matches tag) (e :: s) = Some (0%nat, e).
Proof.
  intros Ht Hv. simpl. rewrite decide_True; [done|by split].
Qed.

Lemma find_hit_tail tag e s :
  entry_tag e ≠ tag →
  list_find (matches tag) (e :: s)
  = prod_map S id <$> list_find (matches tag) s.
Proof.
  intros Ht. simpl. rewrite decide_False; [done|]. by intros [? _].
Qed.

Local Ltac open_shape H :=
  let Hpol := fresh "Hpol" in let Ha := fresh "Ha" in
  let Ho := fresh "Ho" in let Hi := fresh "Hi" in
  let Ht := fresh "Ht" in let Hc := fresh "Hc" in
  unfold shape in H; injection H as Hpol Ha Ho Hi Ht Hc.

(** The run of C6: one set of two lines, tags A, B, A, C. *)
Lemma lru_ABAC rng A B C :
  A ≠ B → A ≠ C → B ≠ C →
  ∃ c3 c4,
    simulate 1 1 2 LRU rng [A; B; A] = Ok c3
    ∧ cache c3 = [[Entry A true 3; Entry B true 2]]
    ∧ simulate 1 1 2 LRU rng [A; B; A; C] = Ok c4
    ∧ cache c4 = [[Entry A true 3; Entry C true 4]].
Proof.
  intros HAB HAC HBC. unfold simulate. simpl.
  set (c0 := init 1 1 2 LRU).
  destruct (shape_miss_room rng A c0 A 0 0%nat []) as (c1 & -> & H1);
    [by apply decode_no_bits|done|done|done|].
  simpl in H1. open_shape H1.
  destruct (shape_miss_room rng B c1 B 0 0%nat [Entry A true 1])
    as (c2 & -> & H2);
    [by apply decode_no_bits|by rewrite Hc|
     by rewrite find_hit_tail|unfold set_full; by rewrite Ha|].
  rewrite Hpol, Ha, Ho, Hi, Ht, Hc in H2. simpl in H2. open_shape H2.
  destruct (shape_hit_lru rng A c2 A 0 0%nat
              [Entry A true 1; Entry B true 2] 0%nat (Entry A true 1))
    as (c3 & -> & H3);
    [done|by apply decode_no_bits|by rewrite Hc0|by apply find_hit_head|].
  rewrite Ha0, Ho0, Hi0, Ht0, Hc0 in H3. simpl in H3. open_shape H3.
  destruct (shape_miss_lru rng C c3 C 0 0%nat
              [Entry A true 3; Entry B true 2] 1%nat)
    as (c4 & -> & H4);
    [done|by apply decode_no_bits|by rewrite Hc1|
     by rewrite !find_hit_tail|unfold set_full; by rewrite Ha1|done|].
  rewrite Ha1, Ho1, Hi1, Ht1, Hc1 in H4. simpl in H4. open_shape H4.
  exists c3, c4. done.
Qed.

(** C6. Under LRU a hit stamps the line it touches with the current
    access counter, an installed line is stamped with the current access
    counter, and the victim of a full set is the line with the smallest
    stamp, the first of them in the set when several are equal; so in one
    set of two lines the tags A, B, A, C evict B, not A. *)
Theorem lru_policy :
  (∀ rng c address tag index p s,
     subst c = LRU →
     get_address_components c address = (tag, index) →
     py_getitem (cache c) index = Some (p, s) →
     let now := total_accesses c + 1 in
     let c' := state_of (access_cache rng address c) in
     total_accesses c' = now
     ∧ (∀ i e, list_find (matches tag) s = Some (i, e) →
          cache c'
          = <[p := <[i := Entry (entry_tag e) (entry_valid e) now]> s]> (cache c))
     ∧ (list_find (matches tag) s = None → Z.of_nat (length s) < assoc c →
          cache c' = <[p := s ++ [Entry tag true now]]> (cache c))
     ∧ (list_find (matches tag) s = None → assoc c ≤ Z.of_nat (length s) →
        s ≠ [] →
          ∃ v e, s !! v = Some e
            ∧ (∀ j e', s !! j = Some e' → entry_time e ≤ entry_time e')
            ∧ (∀ j e', s !! j = Some e' → (j < v)%nat →
                 entry_time e < entry_time e')
            ∧ cache c' = <[p := <[v := Entry tag true now]> s]> (cache c)))
  ∧ (∀ rng A B C,
       A ≠ B → A ≠ C → B ≠ C →
       cache (state_of (simulate 1 1 2 LRU rng [A; B; A]))
       = [[Entry A true 3; Entry B true 2]]
       ∧ cache (state_of (simulate 1 1 2 LRU rng [A; B; A; C]))
         = [[Entry A true 3; Entry C true 4]]).
Proof.
  split.
  - intros rng c address tag index p s Hpol Hd Hg now c'.
    split_and!.
    + subst c'.
      destruct (access_cache_view rng address c)
        as [t ix _ _ ->|t ix q s1 i e Hd1 Hg1 Hf1 ->|t ix q s1 Hd1 Hg1 Hf1 ->].
      * done.
      * destruct (touch_state q s1 i e (set_hits (hits c + 1) (counted c)))
          as (sets & -> & _). done.
      * destruct (install_state rng q s1 (set_full s1 c)
                    (Entry t true (total_accesses c + 1)) (classified t ix s1 c))
          as (sets & -> & _).
        pose proof (classified_fields t ix s1 c)
          as (_ & _ & _ & _ & _ & _ & _ & Ht & _).
        simpl. exact Ht.
    + intros i e Hf. subst c'.
      destruct (shape_hit_lru rng address c tag index p s i e Hpol Hd Hg Hf)
        as (c1 & -> & H1). open_shape H1. done.
    + intros Hf Hroom. subst c'.
      destruct (shape_miss_room rng address c tag index p s Hd Hg Hf)
        as (c1 & -> & H1); [unfold set_full; lia|]. open_shape H1. done.
    + intros Hf Hfull Hne. subst c'.
      destruct (lru_victim_is_Some s Hne) as [v Hv].
      destruct (lru_victim_spec s v Hv) as (e & He & Hmin & Hfirst).
      exists v, e. split_and!; [done|done|done|].
      destruct (shape_miss_lru rng address c tag index p s v Hpol Hd Hg Hf)
        as (c1 & -> & H1); [unfold set_full; lia|done|]. open_shape H1. done.
  - intros rng A B C HAB HAC HBC.
    destruct (lru_ABAC rng A B C HAB HAC HBC) as (c3 & c4 & -> & H3 & -> & H4).
    done.
Qed.

Lemma lru_policy_witness :
  7 ≠ 5 ∧ 7 ≠ 9 ∧ 5 ≠ 9
  ∧ cache (state_of (simulate 1 1 2 LRU (λ _, 0) [7; 5; 7; 9]))
    = [[Entry 7 true 3; Entry 9 true 4]].
Proof.
  assert (7 ≠ 5) as H1 by lia. assert (7 ≠ 9) as H2 by lia.
  assert (5 ≠ 9) as H3 by lia.
  split_and!; [exact H1|exact H2|exact H3|].
  exact (proj2 (proj2 lru_policy (λ _, 0) 7 5 9 H1 H2 H3)).
Defined.

(** ** FIFO as the code has it, against LRU *)

(** The exact state after each kind of access. *)
Lemma fifo_hit rng a c tag index p s i e :
  subst c = FIFO →
  get_address_components c a = (tag, index) →
  py_getitem (cache c) index = Some (p, s) →
  list_find (matches tag) s = Some (i, e) →
  access_cache rng a c
  = Ok (store p (delete i s ++ [e]) (set_hits (hits c + 1) (counted c))).
Proof.
  intros Hpol Hd Hg Hf. rewrite (access_cache_hit _ _ _ _ _ _ _ _ _ Hd Hg Hf).
  unfold touch. simpl. by rewrite Hpol, (find_hit_remove _ _ _ _ Hf).
Qed.

Lemma lru_hit rng a c tag index p s i e :
  subst c = LRU →
  get_address_components c a = (tag, index) →
  py_getitem (cache c) index = Some (p, s) →
  list_find (matches tag) s = Some (i, e) →
  access_cache rng a c
  = Ok (store p (<[i := Entry (entry_tag e) (entry_valid e)
                          (total_accesses c + 1)]> s)
          (set_hits (hits c + 1) (counted c))).
Proof.
  intros Hpol Hd Hg Hf. rewrite (access_cache_hit _ _ _ _ _ _ _ _ _ Hd Hg Hf).
  unfold touch. simpl. by rewrite Hpol.
Qed.

Lemma miss_room rng a c tag index p s :
  get_address_components c a = (tag, index) →
  py_getitem (cache c) index = Some (p, s) →
  list_find (matches tag) s = None →
  set_full s c = false →
  access_cache rng a c
  = Ok (store p (s ++ [Entry tag true (total_accesses c + 1)])
          (classified tag index s c)).
Proof.
  intros Hd Hg Hf Hfull. rewrite (access_cache_miss _ _ _ _ _ _ _ Hd Hg Hf).
  unfold install. by rewrite Hfull.
Qed.

Lemma fifo_miss_full rng a c tag index p e0 r :
  subst c = FIFO →
  get_address_components c a = (tag, index) →
  py_getitem (cache c) index = Some (p, e0 :: r) →
  list_find (matches tag) (e0 :: r) = None →
  set_full (e0 :: r) c = true →
  access_cache rng a c
  = Ok (store p (r ++ [Entry tag true (total_accesses c + 1)])
          (classified tag index (e0 :: r) c)).
Proof.
  intros Hpol Hd Hg Hf Hfull.
  rewrite (access_cache_miss _ _ _ _ _ _ _ Hd Hg Hf).
  pose proof (classified_fields tag index (e0 :: r) c)
    as (_ & _ & _ & Hs & _).
  unfold install. by rewrite Hfull, Hs, Hpol.
Qed.

Lemma lru_miss_full rng a c tag index p s v :
  subst c = LRU →
  get_address_components c a = (tag, index) →
  py_getitem (cache c) index = Some (p, s) →
  list_find (matches tag) s = None →
  set_full s c = true →
  lru_victim s = Some v →
  access_cache rng a c
  = Ok (store p (<[v := Entry tag true (total_accesses c + 1)]> s)
          (classified tag index s c)).
Proof.
  intros Hpol Hd Hg Hf Hfull Hv.
  rewrite (access_cache_miss _ _ _ _ _ _ _ Hd Hg Hf).
  pose proof (classified_fields tag index s c) as (_ & _ & _ & Hs & _).
  unfold install. by rewrite Hfull, Hs, Hpol, Hv.
Qed.

Lemma unique_by_tag l e1 e2 :
  NoDup (tags_of l) → e1 ∈ l → e2 ∈ l → entry_tag e1 = entry_tag e2 → e1 = e2.
Proof.
  induction l as [|e l IH]; intros Hnd H1 H2 Ht; [by apply elem_of_nil in H1|].
  unfold tags_of in Hnd. rewrite fmap_cons in Hnd.
  apply NoDup_cons in Hnd as [Hnotin Hnd].
  apply elem_of_cons in H1 as [->|H1]; apply elem_of_cons in H2 as [->|H2].
  - done.
  - destruct Hnotin. rewrite Ht. apply list_elem_of_fmap. eauto.
  - destruct Hnotin. rewrite <- Ht. apply list_elem_of_fmap. eauto.
  - by apply IH.
Qed.

Lemma delete_Permutation_cancel {A} (l k : list A) i j x :
  l ≡ₚ k → l !! i = Some x → k !! j = Some x → delete i l ≡ₚ delete j k.
Proof.
  intros Hperm Hi Hj. apply (Permutation_cons_inv (a := x)).
  by rewrite <- (delete_Permutation l i x Hi), <- (delete_Permutation k j x Hj).
Qed.

Lemma StronglySorted_delete {A} (R : relation A) l i :
  StronglySorted R l → StronglySorted R (delete i l).
Proof.
  intros Hs. revert i. induction Hs as [|x l Hs IH Hall]; intros [|i]; simpl.
  - constructor.
  - constructor.
  - done.
  - constructor; [apply IH|by apply Forall_delete].
Qed.

Lemma StronglySorted_snoc l T x :
  StronglySorted Z.lt l → Forall (λ k, k ≤ T) l → T < x →
  StronglySorted Z.lt (l ++ [x]).
Proof.
  intros Hs Hall Hx. apply StronglySorted_app_2; [|done|repeat constructor].
  intros k1 k2 Hk1 ->%list_elem_of_singleton.
  rewrite Forall_forall in Hall. specialize (Hall k1 Hk1). lia.
Qed.

Lemma recency_tags T sF sL : recency T sF sL → tags_of sF ≡ₚ tags_of sL.
Proof.
  intros (l & Ht & Hperm & _). rewrite <- Ht. unfold tags_of. by rewrite Hperm.
Qed.

Lemma recency_length T sF sL : recency T sF sL → length sF = length sL.
Proof.
  intros H%recency_tags. rewrite <- (tags_of_length sF), H. apply tags_of_length.
Qed.

Lemma recency_mono T T' sF sL : T ≤ T' → recency T sF sL → recency T' sF sL.
Proof.
  intros Hle (l & Ht & Hperm & Hs & Hall). exists l. split_and!; try done.
  eapply Forall_impl; [done|]. simpl. intros. lia.
Qed.

Lemma recency_nil T : recency T [] [].
Proof. exists []. split_and!; try done; constructor. Qed.

Lemma recency_append T sF sL tag :
  recency T sF sL →
  recency (T + 1) (sF ++ [Entry tag true (T + 1)])
                  (sL ++ [Entry tag true (T + 1)]).
Proof.
  intros (l & Ht & Hperm & Hs & Hall).
  exists (l ++ [Entry tag true (T + 1)]). split_and!.
  - unfold tags_of in *. by rewrite !fmap_app, Ht.
  - by rewrite Hperm.
  - rewrite fmap_app. simpl. apply (StronglySorted_snoc _ T); [done| |lia].
    by apply Forall_fmap.
  - apply Forall_app. split.
    + eapply Forall_impl; [done|]. simpl. intros. lia.
    + repeat constructor. simpl. lia.
Qed.

Lemma recency_hit T sF sL i eF j eL :
  NoDup (tags_of sF) → recency T sF sL →
  sF !! i = Some eF → sL !! j = Some eL → entry_tag eL = entry_tag eF →
  recency (T + 1) (delete i sF ++ [eF])
    (<[j := Entry (entry_tag eL) (entry_valid eL) (T + 1)]> sL).
Proof.
  intros Hnd (l & Ht & Hperm & Hs & Hall) Hi Hj Htag.
  set (eL' := Entry (entry_tag eL) (entry_valid eL) (T + 1)).
  assert (l !! i = Some eL) as Hli.
  { assert (is_Some (l !! i)) as [el Hel].
    { apply lookup_lt_is_Some. rewrite <- (tags_of_length l), Ht, tags_of_length.
      by eapply lookup_lt_Some. }
    rewrite Hel. f_equal. apply (unique_by_tag l).
    - by rewrite Ht.
    - by eapply list_elem_of_lookup_2.
    - rewrite Hperm. by eapply list_elem_of_lookup_2.
    - assert (tags_of l !! i = tags_of sF !! i) as Heq by by rewrite Ht.
      unfold tags_of in Heq. rewrite !list_lookup_fmap, Hel, Hi in Heq.
      simpl in Heq. congruence. }
  exists (delete i l ++ [eL']). split_and!.
  - unfold tags_of in *. rewrite !fmap_app, !list_fmap_delete, Ht. simpl.
    by rewrite Htag.
  - rewrite (insert_Permutation sL j eL') by (by eapply lookup_lt_Some).
    rewrite <- Permutation_cons_append. constructor.
    by eapply delete_Permutation_cancel.
  - rewrite fmap_app, list_fmap_delete. simpl.
    apply (StronglySorted_snoc _ T); [by apply StronglySorted_delete| |lia].
    apply Forall_delete. by apply Forall_fmap.
  - apply Forall_app. split.
    + apply Forall_delete. eapply Forall_impl; [done|]. simpl. intros. lia.
    + repeat constructor. simpl. lia.
Qed.

Lemma recency_evict T e0 r sL v tag :
  recency T (e0 :: r) sL → lru_victim sL = Some v →
  recency (T + 1) (r ++ [Entry tag true (T + 1)])
                  (<[v := Entry tag true (T + 1)]> sL)
  ∧ ∃ e, sL !! v = Some e ∧ entry_tag e = entry_tag e0.
Proof.
  intros (l & Ht & Hperm & Hs & Hall) Hv.
  destruct (lru_victim_spec sL v Hv) as (e & He & Hmin & _).
  destruct l as [|el lr]; [done|].
  unfold tags_of in Ht. rewrite !fmap_cons in Ht. injection Ht as Ht0 Ht.
  rewrite fmap_cons in Hs. apply StronglySorted_inv in Hs as [Hs Hlt].
  apply Forall_cons in Hall as [Hall0 Hall].
  assert (e = el) as ->.
  { assert (e ∈ el :: lr) as Hin
      by (rewrite Hperm; by eapply list_elem_of_lookup_2).
    apply elem_of_cons in Hin as [?|Hin]; [done|]. exfalso.
    assert (el ∈ sL) as Hel by (rewrite <- Hperm; by left).
    apply list_elem_of_lookup in Hel as [j Hj].
    specialize (Hmin j el Hj).
    rewrite Forall_fmap, Forall_forall in Hlt. specialize (Hlt e Hin).
    simpl in Hlt. lia. }
  split; [|by eauto].
  exists (lr ++ [Entry tag true (T + 1)]). split_and!.
  - unfold tags_of. by rewrite !fmap_app, Ht.
  - rewrite (insert_Permutation sL v) by (by eapply lookup_lt_Some).
    rewrite <- Permutation_cons_append. constructor.
    apply (delete_Permutation_cancel (el :: lr) sL 0 v el); done.
  - rewrite fmap_app. simpl. apply (StronglySorted_snoc _ T); [done| |lia].
    by apply Forall_fmap.
  - apply Forall_app. split.
    + eapply Forall_impl; [done|]. simpl. intros. lia.
    + repeat constructor. simpl. lia.
Qed.

Lemma find_hit_None_inv tag s :
  tag ∉ tags_of s → list_find (matches tag) s = None.
Proof.
  intros Hnotin. apply list_find_None, Forall_forall. intros e He [Ht _].
  apply Hnotin. unfold tags_of. apply list_elem_of_fmap. eauto.
Qed.

Lemma find_hit_is_Some tag s :
  Forall (λ e, entry_valid e = true) s → tag ∈ tags_of s →
  ∃ j e, list_find (matches tag) s = Some (j, e).
Proof.
  intros Hvalid Hin. unfold tags_of in Hin.
  apply list_elem_of_fmap in Hin as (e & -> & He).
  rewrite Forall_forall in Hvalid.
  destruct (list_find_elem_of (matches (entry_tag e)) s e He) as [[j e'] Hf].
  - split; [done|by apply Hvalid].
  - eauto.
Qed.

Lemma recency_lengths T (l k : list (list entry)) :
  Forall2 (recency T) l k → length <$> l = length <$> k.
Proof.
  induction 1 as [|sF sL l k Hrec _ IH]; [done|].
  rewrite !fmap_cons. f_equal; [by eapply recency_length|done].
Qed.

Lemma classified_agree tag index sF sL cF cL :
  counters cF = counters cL → seen_tags cF = seen_tags cL →
  set_full sF cF = set_full sL cL → cache_full cF = cache_full cL →
  counters (classified tag index sF cF) = counters (classified tag index sL cL)
  ∧ seen_tags (classified tag index sF cF)
    = seen_tags (classified tag index sL cL).
Proof.
  intros Hcnt Hseen Hsf Hcf. unfold counters in Hcnt.
  injection Hcnt as Ht Hh Hm Hco Hca Hcn.
  unfold classified, classify. rewrite Hsf, Hcf, Hseen.
  repeat case_match; unfold counters; simpl; by rewrite ?Ht, ?Hh, ?Hm, ?Hco, ?Hca, ?Hcn.
Qed.

Lemma getitem_agree {A B} (l : list A) (k : list B) index p x y :
  length l = length k → py_getitem l index = Some (p, x) →
  k !! p = Some y → py_getitem k index = Some (p, y).
Proof.
  intros Hlen (Hp & _)%py_getitem_Some Hk. unfold py_getitem.
  by rewrite <- Hlen, Hp, Hk.
Qed.

Section Simulation.

Context (rngF rngL : Z → Z).

Lemma sim_access a cF cL :
  sim cF cL →
  raised (access_cache rngF a cF) = raised (access_cache rngL a cL)
  ∧ sim (state_of (access_cache rngF a cF)) (state_of (access_cache rngL a cL)).
Proof.
  intros (HwfF & HwfL & HpF & HpL & Hn & Ha & Ho & Hi & Hcnt & Hseen & Hsets).
  pose proof (wf_access rngF a cF HwfF) as HwfF'.
  pose proof (wf_access rngL a cL HwfL) as HwfL'.
  pose proof (access_same_config rngF a cF)
    as (HnF & _ & HaF & HsF & HoF & HiF & _).
  pose proof (access_same_config rngL a cL)
    as (HnL & _ & HaL & HsL & HoL & HiL & _).
  assert (get_address_components cL a = get_address_components cF a) as Hdec.
  { unfold get_address_components. by rewrite Ho, Hi. }
  pose proof (Forall2_length _ _ _ Hsets) as Hlen.
  assert (Forall2 (recency (total_accesses cL + 1)) (cache cF) (cache cL))
    as Hsets'.
  { eapply Forall2_impl; [done|]. intros sF sL. apply recency_mono. lia. }
  assert (set_full_agree : ∀ sF sL, recency (total_accesses cL) sF sL →
            set_full sF cF = set_full sL cL).
  { intros sF sL Hrec. unfold set_full.
    by rewrite (recency_length _ _ _ Hrec), Ha. }
  assert (cache_full cF = cache_full cL) as Hcf.
  { unfold cache_full. by rewrite (recency_lengths _ _ _ Hsets), Hn, Ha. }
  unfold counters in Hcnt. injection Hcnt as Ht Hh Hm Hco Hca Hcn.
  cut (raised (access_cache rngF a cF) = raised (access_cache rngL a cL)
       ∧ counters (state_of (access_cache rngF a cF))
         = counters (state_of (access_cache rngL a cL))
       ∧ seen_tags (state_of (access_cache rngF a cF))
         = seen_tags (state_of (access_cache rngL a cL))
       ∧ Forall2 (recency (total_accesses (state_of (access_cache rngL a cL))))
           (cache (state_of (access_cache rngF a cF)))
           (cache (state_of (access_cache rngL a cL)))).
  { intros (? & ? & ? & ?). split; [done|].
    split_and!; try done; congruence. }
  destruct (access_cache_view rngF a cF)
    as [tag index Hd Hg HrF|tag index p sF i eF Hd Hg Hf HrF
       |tag index p sF Hd Hg Hf HrF].
  - (* the subscript raises on both sides *)
    rewrite Hd in Hdec.
    assert (py_getitem (cache cL) index = None) as HgL.
    { apply py_getitem_None. rewrite <- Hlen. by apply py_getitem_None. }
    rewrite HrF, (access_cache_raise rngL a cL tag index Hdec HgL). simpl.
    split_and!; try done.
    unfold counters, counted. simpl. congruence.
  - (* a hit on both sides *)
    rewrite Hd in Hdec.
    pose proof Hg as [_ HpFs]%py_getitem_Some.
    destruct (Forall2_lookup_l _ _ _ _ _ Hsets HpFs) as (sL & HpLs & Hrec).
    pose proof (getitem_agree _ _ _ _ _ _ Hlen Hg HpLs) as HgL.
    pose proof HwfF as (_ & _ & HokF). pose proof HwfL as (_ & _ & HokL).
    pose proof (Forall_lookup_1 _ _ _ _ HokF HpFs) as (_ & _ & HndF).
    pose proof (Forall_lookup_1 _ _ _ _ HokL HpLs) as (_ & HvalidL & _).
    pose proof Hf as (HeF & HtF & _)%find_hit_Some.
    destruct (find_hit_is_Some tag sL HvalidL) as (j & eL & HfL).
    { rewrite <- (recency_tags _ _ _ Hrec). unfold tags_of.
      apply list_elem_of_fmap. exists eF. split; [done|].
      by eapply list_elem_of_lookup_2. }
    pose proof HfL as (HjL & HtL & _)%find_hit_Some.
    rewrite (fifo_hit rngF a cF tag index p sF i eF HpF Hd Hg Hf).
    rewrite (lru_hit rngL a cL tag index p sL j eL HpL Hdec HgL HfL).
    simpl. split_and!; [done| |done|].
    + unfold counters, counted. simpl. congruence.
    + apply Forall2_insert; [done|].
      apply recency_hit; try done. congruence.
  - (* a miss on both sides *)
    rewrite Hd in Hdec.
    pose proof Hg as [_ HpFs]%py_getitem_Some.
    destruct (Forall2_lookup_l _ _ _ _ _ Hsets HpFs) as (sL & HpLs & Hrec).
    pose proof (getitem_agree _ _ _ _ _ _ Hlen Hg HpLs) as HgL.
    pose proof HwfF as (HassocF & _ & HokF).
    pose proof (Forall_lookup_1 _ _ _ _ HokF HpFs) as (_ & HvalidF & _).
    assert (list_find (matches tag) sL = None) as HfL.
    { apply find_hit_None_inv. rewrite <- (recency_tags _ _ _ Hrec).
      by apply find_hit_None. }
    pose proof (set_full_agree sF sL Hrec) as Hsf.
    assert (counters cF = counters cL) as Hcnt
      by (unfold counters; by rewrite Ht, Hh, Hm, Hco, Hca, Hcn).
    pose proof (classified_agree tag index sF sL cF cL Hcnt Hseen Hsf Hcf)
      as [Hcnt' Hseen'].
    pose proof (classified_fields tag index sL cL)
      as (_ & _ & _ & _ & HcacheL & _ & _ & HtL & _).
    pose proof (classified_fields tag index sF cF)
      as (_ & _ & _ & _ & HcacheF & _).
    destruct (set_full sF cF) eqn:Hfull.
    + destruct sF as [|e0 r].
      { unfold set_full in Hfull. apply Z.geb_le in Hfull.
        simpl in Hfull. lia. }
      destruct (lru_victim_is_Some sL) as [v Hv].
      { intros ->. apply recency_length in Hrec. done. }
      rewrite (fifo_miss_full rngF a cF tag index p e0 r HpF Hd Hg Hf Hfull).
      rewrite (lru_miss_full rngL a cL tag index p sL v HpL Hdec HgL HfL
                 (eq_sym Hsf) Hv).
      simpl. rewrite HcacheL, HcacheF, HtL, Ht.
      split_and!; [done|done|done|].
      apply Forall2_insert; [done|].
      by apply (recency_evict (total_accesses cL) e0 r sL v tag Hrec Hv).
    + rewrite (miss_room rngF a cF tag index p sF Hd Hg Hf Hfull).
      rewrite (miss_room rngL a cL tag index p sL Hdec HgL HfL (eq_sym Hsf)).
      simpl. rewrite HcacheL, HcacheF, HtL, Ht.
      split_and!; [done|done|done|].
      apply Forall2_insert; [done|].
      by apply recency_append.
Qed.

Lemma sim_init nsets bsize assoc :
  valid_config nsets bsize assoc →
  sim (init nsets bsize assoc FIFO) (init nsets bsize assoc LRU).
Proof.
  intros Hv. split_and!; try done; try by apply wf_init.
  simpl. apply Forall2_replicate. apply recency_nil.
Qed.

Lemma sim_run trace cF cL :
  sim cF cL →
  raised (run rngF trace cF) = raised (run rngL trace cL)
  ∧ sim (state_of (run rngF trace cF)) (state_of (run rngL trace cL))
  ∧ counters <$> states rngF trace cF = counters <$> states rngL trace cL.
Proof.
  revert cF cL. induction trace as [|a trace IH]; intros cF cL Hsim; [done|].
  simpl. pose proof (sim_access a cF cL Hsim) as [Hr Hsim'].
  pose proof Hsim' as (_ & _ & _ & _ & _ & _ & _ & _ & Hcnt & _).
  destruct (access_cache rngF a cF) as [cF'|eF cF'],
           (access_cache rngL a cL) as [cL'|eL cL']; simpl in *; try done.
  - destruct (IH cF' cL' Hsim') as (? & ? & ?).
    split_and!; [done|done|]. by f_equal.
  - split_and!; [done|done|]. by f_equal.
Qed.

End Simulation.

Lemma StronglySorted_lt_NoDup (l : list Z) : StronglySorted Z.lt l → NoDup l.
Proof.
  induction 1 as [|x l _ IH Hall]; constructor; [|done].
  intros Hin. rewrite Forall_forall in Hall. specialize (Hall x Hin). lia.
Qed.

Lemma recency_NoDup T sF sL : recency T sF sL → NoDup (entry_time <$> sL).
Proof.
  intros (l & _ & Hperm & Hs & _). rewrite <- Hperm.
  by apply StronglySorted_lt_NoDup.
Qed.

(** C10. On every trace and every valid configuration the simulator
    counts the same under 'F' as under 'L': the six counters agree after
    every access, so every access is a hit under both or a miss of the
    same class under both, the two runs raise or return together, and
    they end with the same counters.  The sets hold the same tags, and
    the stamps of an LRU set are pairwise distinct. *)
Theorem fifo_lru_same_outcomes nsets bsize assoc rngF rngL trace :
  valid_config nsets bsize assoc →
  let rF := simulate nsets bsize assoc FIFO rngF trace in
  let rL := simulate nsets bsize assoc LRU rngL trace in
  counters <$> states rngF trace (init nsets bsize assoc FIFO)
  = counters <$> states rngL trace (init nsets bsize assoc LRU)
  ∧ raised rF = raised rL
  ∧ counters (state_of rF) = counters (state_of rL)
  ∧ (∀ p sF sL,
       cache (state_of rF) !! p = Some sF →
       cache (state_of rL) !! p = Some sL →
       tags_of sF ≡ₚ tags_of sL ∧ NoDup (entry_time <$> sL)).
Proof.
  intros Hv rF rL.
  destruct (sim_run rngF rngL trace _ _ (sim_init nsets bsize assoc Hv))
    as (Hr & Hsim & Hstates).
  fold (simulate nsets bsize assoc FIFO rngF trace) in Hr, Hsim.
  fold (simulate nsets bsize assoc LRU rngL trace) in Hr, Hsim.
  fold rF in Hr, Hsim. fold rL in Hr, Hsim.
  destruct Hsim as (_ & _ & _ & _ & _ & _ & _ & _ & Hcnt & _ & Hsets).
  split_and!; try done.
  intros p sF sL HF HL.
  pose proof (Forall2_lookup_lr _ _ _ _ _ _ Hsets HF HL) as Hrec.
  split; [by eapply recency_tags|by eapply recency_NoDup].
Qed.

Lemma fifo_lru_same_outcomes_witness :
  valid_config 2 1 2
  ∧ counters (state_of (simulate 2 1 2 FIFO (λ _, 0) [0; 2; 0; 4; 2; 1; 6]))
    = counters (state_of (simulate 2 1 2 LRU (λ _, 1) [0; 2; 0; 4; 2; 1; 6])).
Proof.
  assert (valid_config 2 1 2) as Hv by (unfold valid_config; lia).
  split; [exact Hv|].
  destruct (fifo_lru_same_outcomes 2 1 2 (λ _, 0) (λ _, 1)
              [0; 2; 0; 4; 2; 1; 6] Hv) as (_ & _ & H & _).
  exact H.
Defined.

(** ** FIFO as the specification has it *)

(** The code does not do what C3 says.  One set of two lines, addresses
    0, 1, 0, 2: the hit on 0 moves its line behind the line of 1, and the
    miss of 2 evicts the line of 1, installed at access 2, while the line
    of 0, installed at access 1, stays.  Without the hit the miss of 2
    evicts the line of 0. *)
Lemma fifo_evicts_later_insertion :
  ¬ fifo_by_insertion ∧ ¬ fifo_hits_irrelevant.
Proof.
  assert (valid_config 1 1 2) as Hv by (unfold valid_config; lia).
  split.
  - intros H.
    specialize (H 1 1 2 (λ _, 0) [0; 1; 0] 2 0%nat
                  [Entry 1 true 2; Entry 0 true 1]
                  [Entry 0 true 1; Entry 2 true 4]
                  (Entry 1 true 2) (Entry 0 true 1) Hv).
    simpl in H. cut (2 ≤ 1); [lia|]. apply H.
    + vm_compute. reflexivity.
    + vm_compute. reflexivity.
    + apply elem_of_cons. by left.
    + intros Hin. cbn in Hin. rewrite !elem_of_cons in Hin.
      destruct Hin as [?|[?|Hin]]; [done|done|by apply elem_of_nil in Hin].
    + apply elem_of_cons. right. apply elem_of_cons. by left.
  - intros H.
    specialize (H 1 1 2 (λ _, 0) [0; 1] 0 [2] 0%nat
                  [Entry 0 true 1; Entry 2 true 4]
                  [Entry 1 true 2; Entry 2 true 3] 0 Hv).
    simpl in H. cut (0 ∈ tags_of [Entry 1 true 2; Entry 2 true 3]).
    + intros Hin. cbn in Hin. rewrite !elem_of_cons in Hin.
      destruct Hin as [?|[?|Hin]]; [done|done|by apply elem_of_nil in Hin].
    + apply H.
      * exists 0, 0, 0%nat, [Entry 0 true 1; Entry 1 true 2], 0%nat,
          (Entry 0 true 1). vm_compute. done.
      * vm_compute. reflexivity.
      * vm_compute. reflexivity.
      * apply elem_of_cons. by left.
Qed.

(** C3 at num_sets = 1, block_size = 1, associativity = 2, policy 'F' and
    the addresses 0, 1, 0, 2: the hit of access 3 takes the line of tag 0,
    installed at access 1, from the front of the set and appends it behind
    the line of tag 1, installed at access 2; the miss of access 4 finds
    the set full and pops the front, which is now the line of tag 1, so the
    line that was inserted earliest stays.  Without the hit (addresses 0,
    1, 2) the line of tag 0 is the one evicted.  On the addresses 0, 1, 0,
    2, 0 the last access therefore hits, and the counters (total, hits,
    misses, compulsory, capacity, conflict) end as 5, 2, 3, 3, 0, 0. *)
Theorem fifo_hit_reorders_victim rng :
  cache (state_of (simulate 1 1 2 FIFO rng [0; 1]))
  = [[Entry 0 true 1; Entry 1 true 2]]
  ∧ cache (state_of (simulate 1 1 2 FIFO rng [0; 1; 0]))
    = [[Entry 1 true 2; Entry 0 true 1]]
  ∧ cache (state_of (simulate 1 1 2 FIFO rng [0; 1; 0; 2]))
    = [[Entry 0 true 1; Entry 2 true 4]]
  ∧ cache (state_of (simulate 1 1 2 FIFO rng [0; 1; 2]))
    = [[Entry 1 true 2; Entry 2 true 3]]
  ∧ counters <$> states rng [0; 1; 0; 2; 0] (init 1 1 2 FIFO)
    = [[1; 0; 1; 1; 0; 0];
       [2; 0; 2; 2; 0; 0];
       [3; 1; 2; 2; 0; 0];
       [4; 1; 3; 3; 0; 0];
       [5; 2; 3; 3; 0; 0]].
Proof. vm_compute. done. Qed.

(** How the code behaves under 'F', in every run: a hit moves the line it
    touches to the back of its set, and when a full set admits a new line
    the line at the front is removed, the new line going to the back.  So
    a set lists its lines from the least to the most recently touched
    (installed or hit), in the order of the stamps that the run of the
    same trace under 'L' gives them, and the line at the front is the one
    that the LRU scan selects. *)
Theorem fifo_evicts_least_recently_touched nsets bsize assoc rngF rngL trace :
  valid_config nsets bsize assoc →
  let cF := state_of (simulate nsets bsize assoc FIFO rngF trace) in
  let cL := state_of (simulate nsets bsize assoc LRU rngL trace) in
  (∀ address tag index p s i e,
     get_address_components cF address = (tag, index) →
     py_getitem (cache cF) index = Some (p, s) →
     list_find (matches tag) s = Some (i, e) →
     cache (state_of (access_cache rngF address cF)) !! p
     = Some (delete i s ++ [e]))
  ∧ (∀ address tag index p s,
       get_address_components cF address = (tag, index) →
       py_getitem (cache cF) index = Some (p, s) →
       list_find (matches tag) s = None →
       assoc ≤ Z.of_nat (length s) →
       ∃ e0 r, s = e0 :: r
         ∧ cache (state_of (access_cache rngF address cF)) !! p
           = Some (r ++ [Entry tag true (total_accesses cF + 1)])
         ∧ ∃ sL v e, cache cL !! p = Some sL ∧ lru_victim sL = Some v
             ∧ sL !! v = Some e ∧ entry_tag e = entry_tag e0)
  ∧ (∀ p sF, cache cF !! p = Some sF →
       ∃ sL l, cache cL !! p = Some sL ∧ l ≡ₚ sL
         ∧ tags_of l = tags_of sF
         ∧ StronglySorted Z.lt (entry_time <$> l)).
Proof.
  intros Hv cF cL.
  destruct (sim_run rngF rngL trace _ _ (sim_init nsets bsize assoc Hv))
    as (_ & Hsim & _).
  fold (simulate nsets bsize assoc FIFO rngF trace) in Hsim.
  fold (simulate nsets bsize assoc LRU rngL trace) in Hsim.
  fold cF in Hsim. fold cL in Hsim.
  destruct Hsim as (HwfF & _ & HpF & _ & _ & _ & _ & _ & _ & _ & Hsets).
  pose proof (run_same_config rngF trace (init nsets bsize assoc FIFO))
    as (_ & _ & Ha & _).
  fold (simulate nsets bsize assoc FIFO rngF trace) in Ha. fold cF in Ha.
  simpl in Ha.
  split_and!.
  - intros address tag index p s i e Hd Hg Hf.
    rewrite (fifo_hit rngF address cF tag index p s i e HpF Hd Hg Hf).
    apply py_getitem_Some in Hg as [_ Hp]. cbn [state_of].
    rewrite lookup_store by (by eapply lookup_lt_Some).
    by rewrite decide_True.
  - intros address tag index p s Hd Hg Hf Hfull.
    pose proof Hg as [_ Hp]%py_getitem_Some.
    destruct (Forall2_lookup_l _ _ _ _ _ Hsets Hp) as (sL & HpL & Hrec).
    assert (set_full s cF = true) as Hsf.
    { unfold set_full. apply Z.geb_le. by rewrite Ha. }
    destruct s as [|e0 r].
    { destruct HwfF as (? & _). simpl in Hfull. lia. }
    exists e0, r. split; [done|].
    destruct (lru_victim_is_Some sL) as [v Hvic].
    { intros ->. apply recency_length in Hrec. done. }
    destruct (recency_evict _ e0 r sL v tag Hrec Hvic) as (_ & e & He & Ht).
    split; [|by eauto 10].
    rewrite (fifo_miss_full rngF address cF tag index p e0 r HpF Hd Hg Hf Hsf).
    pose proof (classified_fields tag index (e0 :: r) cF)
      as (_ & _ & _ & _ & Hcache & _).
    cbn [state_of].
    rewrite lookup_store by (rewrite Hcache; by eapply lookup_lt_Some).
    by rewrite decide_True.
  - intros p sF Hp.
    destruct (Forall2_lookup_l _ _ _ _ _ Hsets Hp)
      as (sL & HpL & l & Ht & Hperm & Hs & _).
    eauto 10.
Qed.

Lemma fifo_evicts_least_recently_touched_witness :
  valid_config 1 1 2
  ∧ cache (state_of (access_cache (λ _, 0) 2
             (state_of (simulate 1 1 2 FIFO (λ _, 0) [0; 1; 0])))) !! 0%nat
    = Some [Entry 0 true 1; Entry 2 true 4].
Proof.
  assert (valid_config 1 1 2) as Hv by (unfold valid_config; lia).
  split; [exact Hv|].
  destruct (fifo_evicts_least_recently_touched 1 1 2 (λ _, 0) (λ _, 0)
              [0; 1; 0] Hv) as (_ & H & _).
  destruct (H 2 2 0 0%nat [Entry 1 true 2; Entry 0 true 1])
    as (e0 & r & Hs & Hc & _).
  - reflexivity.
  - reflexivity.
  - reflexivity.
  - simpl. lia.
  - injection Hs as <- <-. exact Hc.
Defined.

(** * Further properties of the simulator *)

(** ** The address fields *)

Lemma run_bits nsets bsize assoc subst rng trace :
  let c := state_of (simulate nsets bsize assoc subst rng trace) in
  offset_bits c = log2 bsize ∧ index_bits c = log2 nsets
  ∧ 0 ≤ offset_bits c ∧ 0 ≤ index_bits c.
Proof.
  intros c.
  pose proof (run_same_config rng trace (init nsets bsize assoc subst))
    as (_ & _ & _ & _ & Ho & Hi & _).
  fold (simulate nsets bsize assoc subst rng trace) in Ho, Hi. fold c in Ho, Hi.
  simpl in Ho, Hi. rewrite Ho, Hi.
  split_and!; try done; apply log2_nonneg.
Qed.

Lemma decode_block c a :
  0 ≤ offset_bits c → 0 ≤ index_bits c →
  let q := a / 2 ^ offset_bits c in
  get_address_components c a = (q / 2 ^ index_bits c, q mod 2 ^ index_bits c).
Proof.
  intros Ho Hi q. rewrite decode_arith by done. f_equal.
  rewrite Z.pow_add_r by done. subst q.
  pose proof (Z.pow_pos_nonneg 2 (offset_bits c)).
  pose proof (Z.pow_pos_nonneg 2 (index_bits c)).
  rewrite Z.div_div by lia. done.
Qed.

(** X1. Two addresses get the same (tag, index) from get_address_components
    exactly when they agree above the offset bits, that is when they lie in
    the same block of 2^offset_bits bytes: the offset bits are dropped and
    nothing else is. *)
Theorem decode_same_block nsets bsize assoc subst rng trace a a' :
  let c := state_of (simulate nsets bsize assoc subst rng trace) in
  get_address_components c a = get_address_components c a'
  ↔ Z.shiftr a (offset_bits c) = Z.shiftr a' (offset_bits c).
Proof.
  intros c.
  destruct (run_bits nsets bsize assoc subst rng trace) as (_ & _ & Ho & Hi).
  fold c in Ho, Hi. rewrite !Z.shiftr_div_pow2 by done.
  rewrite !decode_block by done. cbv zeta.
  pose proof (Z.pow_pos_nonneg 2 (index_bits c)) as Hpos.
  split.
  - intros [= Hq Hr].
    rewrite (Z.div_mod (a / 2 ^ offset_bits c) (2 ^ index_bits c)) by lia.
    rewrite (Z.div_mod (a' / 2 ^ offset_bits c) (2 ^ index_bits c)) by lia.
    by rewrite Hq, Hr.
  - by intros ->.
Qed.

Lemma access_tag_bits rng a c :
  tag_bits (state_of (access_cache rng a c)) = tag_bits c
  ∧ address_bits (state_of (access_cache rng a c)) = address_bits c.
Proof.
  destruct (access_cache_view rng a c)
    as [tag index Hd Hg ->|tag index p s i e Hd Hg Hf ->|tag index p s Hd Hg Hf ->].
  - done.
  - destruct (touch_state p s i e (set_hits (hits c + 1) (counted c)))
      as (sets & -> & _). done.
  - destruct (install_state rng p s (set_full s c)
                (Entry tag true (total_accesses c + 1)) (classified tag index s c))
      as (sets & -> & _).
    unfold classified, classify. repeat case_match; done.
Qed.

Lemma decode_same_block_witness :
  get_address_components (init 4 4 1 LRU) 5
  = get_address_components (init 4 4 1 LRU) 7.
Proof.
  apply (proj2 (decode_same_block 4 4 1 LRU (λ _, 0) [] 5 7)). reflexivity.
Defined.

(** X2. For a 32-bit address, the tag, the index and the dropped offset put
    back together give the address; the index lies below 2^index_bits and
    the offset below 2^offset_bits; the three widths computed by
    calculate_address_fields add up to 32, and the tag fits in tag_bits bits
    (it is 0 when tag_bits is not positive). *)
Theorem decode_fields nsets bsize assoc subst rng trace address :
  0 ≤ address < 2 ^ 32 →
  let c := state_of (simulate nsets bsize assoc subst rng trace) in
  let '(tag, index) := get_address_components c address in
  address = tag * 2 ^ (offset_bits c + index_bits c)
            + index * 2 ^ offset_bits c
            + address mod 2 ^ offset_bits c
  ∧ 0 ≤ address mod 2 ^ offset_bits c < 2 ^ offset_bits c
  ∧ 0 ≤ index < 2 ^ index_bits c
  ∧ 0 ≤ tag
  ∧ offset_bits c + index_bits c + tag_bits c = 32
  ∧ (0 ≤ tag_bits c → tag < 2 ^ tag_bits c)
  ∧ (tag_bits c ≤ 0 → tag = 0).
Proof.
  intros Ha c.
  destruct (run_bits nsets bsize assoc subst rng trace) as (_ & _ & Ho & Hi).
  fold c in Ho, Hi.
  assert (tag_bits c = 32 - offset_bits c - index_bits c) as Htb.
  { pose proof (run_same_config rng trace (init nsets bsize assoc subst))
      as (_ & _ & _ & _ & Ho' & Hi' & _).
    fold (simulate nsets bsize assoc subst rng trace) in Ho', Hi'.
    fold c in Ho', Hi'. rewrite Ho', Hi'.
    subst c. unfold simulate.
    apply (run_invariant (λ c, tag_bits c = tag_bits (init nsets bsize assoc subst)));
      [|done].
    intros a c1 <-. apply access_tag_bits. }
  rewrite decode_block by done. cbv zeta.
  set (ob := offset_bits c) in *. set (ib := index_bits c) in *.
  pose proof (Z.pow_pos_nonneg 2 ob) as Hpo.
  pose proof (Z.pow_pos_nonneg 2 ib) as Hpi.
  pose proof (Z.mod_pos_bound address (2 ^ ob)) as Hm.
  pose proof (Z.mod_pos_bound (address / 2 ^ ob) (2 ^ ib)) as Hmi.
  assert (0 ≤ address / 2 ^ ob) as Hq by (apply Z.div_pos; lia).
  assert (0 ≤ address / 2 ^ ob / 2 ^ ib) as Ht by (apply Z.div_pos; lia).
  split_and!; try lia.
  - rewrite Z.pow_add_r by done.
    pose proof (Z.div_mod address (2 ^ ob)).
    pose proof (Z.div_mod (address / 2 ^ ob) (2 ^ ib)). nia.
  - intros Htb0. rewrite Z.div_div by lia. rewrite <- Z.pow_add_r by done.
    apply Z.div_lt_upper_bound; [apply Z.pow_pos_nonneg; lia|].
    rewrite <- Z.pow_add_r by lia.
    replace (ob + ib + tag_bits c) with 32 by lia. lia.
  - intros Htb0. rewrite Z.div_div by lia. rewrite <- Z.pow_add_r by done.
    apply Z.div_small. split; [lia|].
    assert (2 ^ 32 ≤ 2 ^ (ob + ib)) by (apply Z.pow_le_mono_r; lia). lia.
Qed.

Lemma decode_fields_witness :
  0 ≤ 200 < 2 ^ 32
  ∧ 200 = 3 * 2 ^ (4 + 2) + 0 * 2 ^ 4 + 200 mod 2 ^ 4.
Proof.
  assert (0 ≤ 200 < 2 ^ 32) as H by lia. split; [exact H|].
  pose proof (decode_fields 4 16 2 LRU (λ _, 0) [0; 64] 200 H) as Hd.
  cbv zeta in Hd.
  change (get_address_components
            (state_of (simulate 4 16 2 LRU (λ _, 0) [0; 64])) 200)
    with (3, 0) in Hd.
  destruct Hd as (Hd & _). exact Hd.
Defined.

(** ** When an access raises *)

Lemma run_wf ns bs ways pol rng trace :
  valid_config ns bs ways →
  let c := state_of (simulate ns bs ways pol rng trace) in
  wf c ∧ tracked c ∧ length (cache c) = Z.to_nat ns
  ∧ nsets c = ns ∧ assoc c = ways ∧ subst c = pol.
Proof.
  intros Hv c.
  pose proof (tracked_run rng trace _ (tracked_init ns bs ways pol Hv))
    as Htr.
  pose proof (run_same_config rng trace (init ns bs ways pol))
    as (Hn & _ & Ha & Hs & _ & _ & Hlen).
  fold (simulate ns bs ways pol rng trace) in Htr, Hn, Ha, Hs, Hlen.
  fold c in Htr, Hn, Ha, Hs, Hlen. simpl in Hn, Ha, Hs, Hlen.
  rewrite length_replicate in Hlen.
  split_and!; try done. by destruct Htr.
Qed.

(** X3. In a run from a valid configuration the index of an address is
    never negative; access_cache returns when the index is below nsets, and
    when it is not the call raises IndexError at the subscript of line 45,
    having changed total_accesses and nothing else. *)
Theorem access_returns_iff nsets bsize assoc subst rng trace address :
  valid_config nsets bsize assoc →
  let c := state_of (simulate nsets bsize assoc subst rng trace) in
  let index := (get_address_components c address).2 in
  let r := access_cache rng address c in
  0 ≤ index
  ∧ (index < nsets → raised r = None)
  ∧ (nsets ≤ index →
       r = Raise IndexError (set_total_accesses (total_accesses c + 1) c)).
Proof.
  intros Hv c index r.
  destruct (run_wf nsets bsize assoc subst rng trace Hv)
    as (Hwf & _ & Hlen & _). fold c in Hwf, Hlen.
  pose proof (access_raises rng address c Hwf) as Hr. fold r index in Hr.
  rewrite Hlen in Hr. destruct Hv as (Hn & _).
  split_and!.
  - destruct Hwf as (_ & Hib & _). subst index.
    destruct (get_address_components c address) as [t i] eqn:Hd.
    by eapply index_nonneg.
  - intros Hlt. destruct r; [done|]. lia.
  - intros Hge. destruct r as [c'|e c']; [lia|].
    destruct Hr as (-> & -> & _). done.
Qed.

Lemma access_returns_iff_witness :
  valid_config 3 1 1
  ∧ raised (access_cache (λ _, 0) 2
              (state_of (simulate 3 1 1 LRU (λ _, 0) [0; 1]))) = None.
Proof.
  assert (valid_config 3 1 1) as Hv by (unfold valid_config; lia).
  split; [exact Hv|].
  destruct (access_returns_iff 3 1 1 LRU (λ _, 0) [0; 1] 2 Hv) as (_ & H & _).
  apply H. vm_compute. reflexivity.
Defined.

Lemma run_all_below rng trace c c' :
  wf c → run rng trace c = Ok c' →
  Forall (λ a, (get_address_components c a).2 < Z.of_nat (length (cache c)))
    trace.
Proof.
  revert c. induction trace as [|a trace IH]; intros c Hwf Hrun; [constructor|].
  simpl in Hrun.
  pose proof (access_raises rng a c Hwf) as Hr.
  pose proof (wf_access rng a c Hwf) as Hwf'.
  pose proof (access_same_config rng a c) as Hcfg.
  destruct (access_cache rng a c) as [c1|e c1]; [|done].
  cbn [state_of] in *. constructor; [done|].
  eapply Forall_impl; [by apply (IH c1)|]. intros x Hx. cbv beta in Hx.
  rewrite (decode_same_config c c1 x Hcfg) in Hx.
  destruct Hcfg as (_ & _ & _ & _ & _ & _ & Hlen). by rewrite Hlen in Hx.
Qed.

(** X4. With at most 32 bits of offset and index, a valid configuration goes
    through every trace of 32-bit addresses without raising exactly when
    nsets is a power of two. *)
Theorem never_raises_iff_power_of_two nsets bsize assoc subst :
  valid_config nsets bsize assoc →
  log2 bsize + log2 nsets ≤ 32 →
  (∀ rng trace, Forall (λ a, 0 ≤ a < 2 ^ 32) trace →
                raised (simulate nsets bsize assoc subst rng trace) = None)
  ↔ ∃ k, 0 ≤ k ∧ nsets = 2 ^ k.
Proof.
  intros Hv Hbits. pose proof Hv as (Hn & Hb & Ha). split.
  - intros Hall. exists (log2 nsets). split; [apply log2_nonneg|].
    pose proof (log2_covers nsets ltac:(lia)) as Hcov.
    pose proof (log2_nonneg nsets) as Hi. pose proof (log2_nonneg bsize) as Ho.
    pose proof (Z.pow_pos_nonneg 2 (log2 nsets)) as Hpi.
    pose proof (Z.pow_pos_nonneg 2 (log2 bsize)) as Hpo.
    set (a := (2 ^ log2 nsets - 1) * 2 ^ log2 bsize).
    assert (0 ≤ a < 2 ^ 32) as Ha32.
    { subst a. split; [nia|].
      assert (2 ^ log2 nsets * 2 ^ log2 bsize ≤ 2 ^ 32).
      { rewrite <- Z.pow_add_r by done. apply Z.pow_le_mono_r; lia. }
      nia. }
    specialize (Hall (λ _, 0) [a] (Forall_cons_2 _ _ _ Ha32 (Forall_nil_2 _))).
    unfold simulate in Hall. simpl in Hall.
    pose proof (access_raises (λ _, 0) a (init nsets bsize assoc subst)
                  (wf_init _ _ _ _ Hv)) as Hr.
    destruct (access_cache (λ _, 0) a (init nsets bsize assoc subst));
      [|done].
    rewrite decode_arith in Hr by (simpl; apply log2_nonneg).
    cbn [snd init offset_bits index_bits cache] in Hr.
    rewrite length_replicate in Hr. subst a.
    rewrite Z.div_mul in Hr by lia.
    rewrite Z.mod_small in Hr by lia. lia.
  - intros (k & Hk & ->) rng trace _.
    destruct (simulate_returns k bsize assoc subst rng trace) as [c ->]; done.
Qed.

Lemma never_raises_iff_power_of_two_witness :
  valid_config 4 16 2 ∧ log2 16 + log2 4 ≤ 32
  ∧ raised (simulate 4 16 2 Random (λ n, n) [0; 64; 4096; 12]) = None.
Proof.
  assert (valid_config 4 16 2) as Hv by (unfold valid_config; lia).
  assert (log2 16 + log2 4 ≤ 32) as Hb by (vm_compute; discriminate).
  split_and!; [exact Hv|exact Hb|].
  apply (proj2 (never_raises_iff_power_of_two 4 16 2 Random Hv Hb)).
  - exists 2. split; [lia|reflexivity].
  - repeat constructor; lia.
Defined.

(** X5. An access leaves every set other than the one its index selects as
    it was. *)
Theorem access_touches_one_set nsets bsize assoc subst rng trace address q :
  valid_config nsets bsize assoc →
  let c := state_of (simulate nsets bsize assoc subst rng trace) in
  let c' := state_of (access_cache rng address c) in
  Z.of_nat q ≠ (get_address_components c address).2 →
  cache c' !! q = cache c !! q.
Proof.
  intros Hv c c' Hq.
  destruct (run_wf nsets bsize assoc subst rng trace Hv) as (Hwf & _).
  fold c in Hwf. pose proof Hwf as (_ & Hib & _). subst c'.
  destruct (access_step rng address c Hwf) as (tag & index & Hd &
    [[Hg ->]|[(p & s & s' & Hg & _ & -> & _)|(p & s & s' & Hg & _ & -> & _)]]);
    rewrite Hd in Hq; simpl in Hq |- *.
  - done.
  - apply (getitem_index _ _ _ _ _ _ Hib Hd) in Hg as (_ & -> & Hp).
    apply list_lookup_insert_ne. lia.
  - apply (getitem_index _ _ _ _ _ _ Hib Hd) in Hg as (_ & -> & Hp).
    pose proof (classified_fields tag (Z.of_nat p) s c)
      as (_ & _ & _ & _ & -> & _).
    apply list_lookup_insert_ne. lia.
Qed.

Lemma access_touches_one_set_witness :
  valid_config 2 1 1
  ∧ Z.of_nat 1 ≠ (get_address_components
                    (state_of (simulate 2 1 1 FIFO (λ _, 0) [1; 0])) 2).2
  ∧ cache (state_of (access_cache (λ _, 0) 2
             (state_of (simulate 2 1 1 FIFO (λ _, 0) [1; 0])))) !! 1%nat
    = Some [Entry 0 true 1].
Proof.
  assert (valid_config 2 1 1) as Hv by (unfold valid_config; lia).
  assert (Z.of_nat 1 ≠ (get_address_components
            (state_of (simulate 2 1 1 FIFO (λ _, 0) [1; 0])) 2).2) as Hq
    by (vm_compute; discriminate).
  split_and!; [exact Hv|exact Hq|].
  rewrite (access_touches_one_set 2 1 1 FIFO (λ _, 0) [1; 0] 2 1%nat Hv Hq).
  reflexivity.
Defined.

(** ** Hits and counters along a run *)

Lemma getitem_lookup {A} (l : list A) index p :
  py_index (length l) index = Some p → ∀ x, l !! p = Some x →
  py_getitem l index = Some (p, x).
Proof. intros Hp x Hx. unfold py_getitem. by rewrite Hp, Hx. Qed.

(** X6. Locality: after an access that returns, an access to any address of
    the same block is a hit; it adds 1 to hits and leaves the four miss
    counters as they are.  For all three policies and every random draw. *)
Theorem reaccess_hits nsets bsize assoc subst rng trace a a' c1 :
  valid_config nsets bsize assoc →
  let c := state_of (simulate nsets bsize assoc subst rng trace) in
  access_cache rng a c = Ok c1 →
  Z.shiftr a (offset_bits c) = Z.shiftr a' (offset_bits c) →
  ∃ c2, access_cache rng a' c1 = Ok c2
        ∧ hits c2 = hits c1 + 1 ∧ misses c2 = misses c1
        ∧ compulsory_misses c2 = compulsory_misses c1
        ∧ capacity_misses c2 = capacity_misses c1
        ∧ conflict_misses c2 = conflict_misses c1.
Proof.
  intros Hv c Hacc Hblock.
  destruct (run_wf nsets bsize assoc subst rng trace Hv) as (Hwf & _).
  fold c in Hwf. pose proof Hwf as (_ & Hib & Hsets).
  pose proof (wf_access rng a c Hwf) as Hwf1.
  pose proof (access_same_config rng a c) as Hcfg.
  rewrite Hacc in Hwf1, Hcfg. cbn [state_of] in Hwf1, Hcfg.
  apply (decode_same_block nsets bsize assoc subst rng trace a a') in Hblock.
  fold c in Hblock.
  (* the line of [a] is resident in [c1] *)
  assert (∃ tag index p s', get_address_components c1 a' = (tag, index)
            ∧ py_getitem (cache c1) index = Some (p, s')
            ∧ tag ∈ tags_of s') as (tag & index & p & s' & Hd' & Hg' & Hin).
  { destruct (access_step rng a c Hwf) as (tag & index & Hd &
      [[Hg Hr]|[(p & s & s' & Hg & Hin & Hr & Hperm & _)
               |(p & s & s' & Hg & Hnotin & Hr & Hc)]]);
      rewrite Hr in Hacc; [done|..]; injection Hacc as <-.
    - exists tag, index, p, s'. split_and!.
      + by rewrite (decode_same_config c _ a' Hcfg), <- Hblock.
      + apply py_getitem_Some in Hg as [Hp Hs].
        apply getitem_lookup.
        * simpl. by rewrite length_insert.
        * simpl. apply list_lookup_insert_eq. by eapply lookup_lt_Some.
      + by rewrite Hperm.
    - exists tag, index, p, s'.
      pose proof (classified_fields tag index s c)
        as (_ & _ & _ & _ & Hcache & _).
      split_and!.
      + by rewrite (decode_same_config c _ a' Hcfg), <- Hblock.
      + apply py_getitem_Some in Hg as [Hp Hs].
        apply getitem_lookup.
        * simpl. by rewrite length_insert, Hcache.
        * simpl. rewrite Hcache. apply list_lookup_insert_eq.
          by eapply lookup_lt_Some.
      + destruct Hc as [[_ ->]|(_ & v & e & _ & Hperm)].
        * unfold tags_of. rewrite fmap_app. apply elem_of_app. right.
          by apply list_elem_of_singleton.
        * unfold tags_of. rewrite Hperm. by left. }
  destruct (access_step rng a' c1 Hwf1) as (tag2 & index2 & Hd2 &
    [[Hg2 Hr2]|[(p2 & s2 & s2' & Hg2 & _ & Hr2 & _)
               |(p2 & s2 & s2' & Hg2 & Hnotin & Hr2 & _)]]);
    rewrite Hd' in Hd2; injection Hd2 as <- <-; rewrite Hg' in Hg2.
  - done.
  - eexists. split; [exact Hr2|]. done.
  - by simplify_eq.
Qed.

Lemma reaccess_hits_witness :
  valid_config 2 4 1
  ∧ (∃ c1 c2,
       access_cache (λ _, 0) 9
         (state_of (simulate 2 4 1 Random (λ _, 0) [0; 16])) = Ok c1
       ∧ access_cache (λ _, 0) 11 c1 = Ok c2 ∧ hits c2 = hits c1 + 1).
Proof.
  assert (valid_config 2 4 1) as Hv by (unfold valid_config; lia).
  split; [exact Hv|].
  destruct (access_cache (λ _, 0) 9
              (state_of (simulate 2 4 1 Random (λ _, 0) [0; 16])))
    as [c1|e c1] eqn:Hacc; [|vm_compute in Hacc; discriminate].
  destruct (reaccess_hits 2 4 1 Random (λ _, 0) [0; 16] 9 11 c1 Hv Hacc)
    as (c2 & H2 & Hh & _); [reflexivity|].
  exists c1, c2. done.
Defined.

Lemma access_total rng a c :
  total_accesses (state_of (access_cache rng a c)) = total_accesses c + 1.
Proof.
  destruct (access_cache_view rng a c)
    as [t ix _ _ ->|t ix q s1 i e Hd1 Hg1 Hf1 ->|t ix q s1 Hd1 Hg1 Hf1 ->].
  - done.
  - destruct (touch_state q s1 i e (set_hits (hits c + 1) (counted c)))
      as (sets & -> & _). done.
  - destruct (install_state rng q s1 (set_full s1 c)
                (Entry t true (total_accesses c + 1)) (classified t ix s1 c))
      as (sets & -> & _).
    pose proof (classified_fields t ix s1 c)
      as (_ & _ & _ & _ & _ & _ & _ & Ht & _).
    simpl. exact Ht.
Qed.

Lemma states_total rng trace c i ci :
  states rng trace c !! i = Some ci →
  total_accesses ci = total_accesses c + Z.of_nat i + 1.
Proof.
  revert c i. induction trace as [|a trace IH]; intros c i Hi; [done|].
  simpl in Hi. pose proof (access_total rng a c) as Ht.
  destruct (access_cache rng a c) as [c1|e c1]; simpl in Ht.
  - destruct i as [|i]; simpl in Hi; [simplify_eq; lia|].
    rewrite (IH c1 i Hi). lia.
  - destruct i as [|i]; simpl in Hi; [simplify_eq; lia|done].
Qed.

Lemma counters_le_refl c : Forall2 Z.le (counters c) (counters c).
Proof. unfold counters. repeat (constructor; [lia|]). constructor. Qed.

Lemma states_chain rng trace c i j ci cj :
  (i ≤ j)%nat → states rng trace c !! i = Some ci →
  states rng trace c !! j = Some cj →
  Forall2 Z.le (counters ci) (counters cj).
Proof.
  revert c i j. induction trace as [|a trace IH]; intros c i j Hij Hi Hj; [done|].
  simpl in Hi, Hj.
  destruct (access_cache rng a c) as [c1|e c1].
  - destruct i as [|i], j as [|j]; simpl in *; simplify_eq; try lia.
    + apply counters_le_refl.
    + pose proof (states_monotone rng trace ci) as Hm.
      rewrite Forall_lookup in Hm. by apply (Hm j).
    + apply (IH c1 i j); [lia|done|done].
  - destruct i as [|i], j as [|j]; simpl in *; simplify_eq.
    apply counters_le_refl.
Qed.

Lemma run_counters rng trace c c' :
  run rng trace c = Ok c' →
  total_accesses c' = total_accesses c + Z.of_nat (length trace)
  ∧ (counters_ok c → counters_ok c').
Proof.
  revert c. induction trace as [|a trace IH]; intros c Hrun; simpl in *.
  - simplify_eq. split; [lia|done].
  - pose proof (access_total rng a c) as Ht.
    pose proof (access_counters rng a c) as [_ Hok].
    destruct (access_cache rng a c) as [c1|e c1]; [|done]. simpl in *.
    destruct (IH c1 Hrun) as [Ht' Hok']. split; [lia|].
    intros Hc. apply Hok', Hok; done.
Qed.

Lemma returned_states rng trace c i ci :
  returned rng trace c !! i = Some ci → states rng trace c !! i = Some ci.
Proof.
  revert c i. induction trace as [|a trace IH]; intros c i Hi; [done|].
  simpl in *. destruct (access_cache rng a c) as [c1|e c1]; [|done].
  destruct i as [|i]; simpl in *; [done|]. by apply IH.
Qed.

(** X7. The counters along a run, from any configuration: after access
    i + 1 total_accesses is i + 1 (also when that access raises) and no
    counter is negative; after an access that returns, hits + misses is the
    number of accesses made and the three kinds of miss add up to misses;
    no counter ever decreases; and a run that goes through its trace ends
    with total_accesses and hits + misses equal to the length of the
    trace. *)
Theorem counters_consistent nsets bsize assoc subst rng trace :
  let c0 := init nsets bsize assoc subst in
  (∀ i c, states rng trace c0 !! i = Some c →
     total_accesses c = Z.of_nat i + 1
     ∧ Forall (λ n, 0 ≤ n) (counters c))
  ∧ (∀ i c, returned rng trace c0 !! i = Some c →
       hits c + misses c = Z.of_nat i + 1
       ∧ compulsory_misses c + capacity_misses c + conflict_misses c
         = misses c)
  ∧ (∀ i j ci cj, (i ≤ j)%nat →
       states rng trace c0 !! i = Some ci →
       states rng trace c0 !! j = Some cj →
       Forall2 Z.le (counters ci) (counters cj))
  ∧ (∀ c, simulate nsets bsize assoc subst rng trace = Ok c →
       total_accesses c = Z.of_nat (length trace)
       ∧ hits c + misses c = Z.of_nat (length trace)
       ∧ compulsory_misses c + capacity_misses c + conflict_misses c
         = misses c).
Proof.
  intros c0.
  destruct (simulate_counters nsets bsize assoc subst rng trace)
    as (Hret & _ & Hpos). fold c0 in Hret, Hpos.
  split_and!.
  - intros i c Hi. split.
    + rewrite (states_total rng trace c0 i c Hi). simpl. lia.
    + rewrite Forall_lookup in Hpos. by apply (Hpos i).
  - intros i c Hi. rewrite Forall_lookup in Hret.
    destruct (Hret i c Hi) as (H1 & H2 & _). split; [|done].
    rewrite H1, (states_total rng trace c0 i c (returned_states _ _ _ _ _ Hi)).
    simpl. lia.
  - intros i j ci cj. apply states_chain.
  - intros c Hrun. unfold simulate in Hrun.
    destruct (run_counters rng trace c0 c Hrun) as [Ht Hok].
    destruct (Hok (counters_ok_init nsets bsize assoc subst)) as (H1 & H2 & _).
    simpl in Ht. split_and!; [lia|lia|done].
Qed.

Lemma counters_consistent_witness :
  hits (state_of (simulate 1 1 2 LRU (λ _, 0) [0; 0]))
  + misses (state_of (simulate 1 1 2 LRU (λ _, 0) [0; 0])) = 2.
Proof.
  pose proof (counters_consistent 1 1 2 LRU (λ _, 0) [0; 0]) as (_ & _ & _ & H).
  destruct (H (state_of (simulate 1 1 2 LRU (λ _, 0) [0; 0]))) as (_ & H2 & _).
  - by vm_compute.
  - exact H2.
Defined.

(** X8. In a run from a valid configuration, an access that returns records
    its (tag, index) pair; when the pair was not recorded before, the access
    is a miss and is counted compulsory; when it was, the count of
    compulsory misses does not move; and compulsory_misses is the number of
    recorded pairs. *)
Theorem compulsory_on_first_access nsets bsize assoc subst rng trace address c' :
  valid_config nsets bsize assoc →
  let c := state_of (simulate nsets bsize assoc subst rng trace) in
  let pair := get_address_components c address in
  access_cache rng address c = Ok c' →
  seen_tags c' = {[ pair ]} ∪ seen_tags c
  ∧ (pair ∉ seen_tags c →
       misses c' = misses c + 1
       ∧ compulsory_misses c' = compulsory_misses c + 1)
  ∧ (pair ∈ seen_tags c → compulsory_misses c' = compulsory_misses c)
  ∧ compulsory_misses c' = Z.of_nat (size (seen_tags c')).
Proof.
  intros Hv c pair Hacc.
  destruct (run_wf nsets bsize assoc subst rng trace Hv) as (Hwf & Htr & _).
  fold c in Hwf, Htr.
  pose proof (tracked_access rng address c Htr) as Htr'.
  pose proof (access_seen rng address c Htr) as Hseen.
  pose proof (access_counters rng address c) as [Hmono _].
  rewrite Hacc in Htr', Hseen, Hmono. cbn [state_of] in Htr', Hmono.
  fold pair in Hseen.
  destruct Htr as (_ & Hres & _ & Hcount).
  destruct Htr' as (_ & _ & _ & Hcount').
  split_and!; [done| | |done].
  - intros Hnew.
    assert (compulsory_misses c' = compulsory_misses c + 1) as Hcomp.
    { rewrite Hcount', Hcount, Hseen.
      rewrite size_union by (by apply disjoint_singleton_l).
      rewrite size_singleton. lia. }
    split; [|done].
    (* a new pair cannot hit: its tag would be resident, hence recorded *)
    pose proof Hwf as (_ & Hib & _).
    destruct (access_step rng address c Hwf) as (tag & index & Hd &
      [[Hg Hr]|[(p & s & s' & Hg & Hin & Hr & _)
               |(p & s & s' & Hg & _ & Hr & _)]]);
      rewrite Hr in Hacc; [done|..]; injection Hacc as <-.
    + exfalso. apply Hnew. subst pair. rewrite Hd.
      apply (getitem_index _ _ _ _ _ _ Hib Hd) in Hg as (_ & -> & Hp).
      by apply (Hres p s tag).
    + simpl. by pose proof (classified_fields tag index s c)
        as (_ & _ & _ & _ & _ & _ & _ & _ & _ & -> & _).
  - intros Hold. rewrite Hcount', Hcount, Hseen.
    by rewrite (subseteq_union_1_L {[pair]} (seen_tags c))
      by (by apply singleton_subseteq_l).
Qed.

Lemma compulsory_on_first_access_witness :
  valid_config 1 1 1
  ∧ (∃ c', access_cache (λ _, 0) 0
             (state_of (simulate 1 1 1 LRU (λ _, 0) [0; 1])) = Ok c'
           ∧ compulsory_misses c' = 2).
Proof.
  assert (valid_config 1 1 1) as Hv by (unfold valid_config; lia).
  split; [exact Hv|].
  destruct (access_cache (λ _, 0) 0
              (state_of (simulate 1 1 1 LRU (λ _, 0) [0; 1])))
    as [c'|e c'] eqn:Hacc; [|vm_compute in Hacc; discriminate].
  exists c'. split; [done|].
  destruct (compulsory_on_first_access 1 1 1 LRU (λ _, 0) [0; 1] 0 c' Hv Hacc)
    as (_ & _ & Hold & _).
  rewrite Hold; [reflexivity|].
  refine (bool_decide_unpack _ _). vm_compute. exact I.
Defined.

(** ** Kinds of miss in particular geometries *)

(** X9. With one set (a fully associative cache) no miss is ever counted as
    a conflict miss, whatever the block size, the associativity, the policy,
    the random draws and the trace. *)
Theorem fully_associative_no_conflict bsize assoc subst rng trace :
  conflict_misses (state_of (simulate 1 bsize assoc subst rng trace)) = 0.
Proof.
  unfold simulate.
  enough (conflict_misses (state_of (run rng trace (init 1 bsize assoc subst))) = 0
          ∧ nsets (state_of (run rng trace (init 1 bsize assoc subst))) = 1
          ∧ length (cache (state_of (run rng trace (init 1 bsize assoc subst))))
            = 1%nat) as [? _] by done.
  apply (run_invariant
           (λ c, conflict_misses c = 0 ∧ nsets c = 1 ∧ length (cache c) = 1%nat));
    [|done].
  intros a c (Hconf & Hn & Hlen).
  pose proof (access_same_config rng a c) as (Hn' & _ & _ & _ & _ & _ & Hlen').
  split_and!; [|congruence|congruence].
  destruct (access_cache_view rng a c)
    as [tag index Hd Hg ->|tag index p s i e Hd Hg Hf ->|tag index p s Hd Hg Hf ->].
  - done.
  - destruct (touch_state p s i e (set_hits (hits c + 1) (counted c)))
      as (sets & -> & _). done.
  - destruct (install_state rng p s (set_full s c)
                (Entry tag true (total_accesses c + 1)) (classified tag index s c))
      as (sets & -> & _). simpl.
    apply py_getitem_Some in Hg as [_ Hp].
    destruct (cache c) as [|s0 [|]] eqn:Hc; try done.
    destruct p as [|p]; [|done]. simpl in Hp. simplify_eq.
    assert (cache_full c = set_full s c) as Hcf.
    { unfold cache_full, set_full. rewrite Hc, Hn. simpl.
      f_equal; lia. }
    unfold classified, classify. rewrite Hcf.
    destruct (bool_decide _), (set_full s c); done.
Qed.

Lemma sum_list_insert (l : list (list entry)) p s s' :
  l !! p = Some s →
  (sum_list (length <$> <[p := s']> l) + length s
   = sum_list (length <$> l) + length s')%nat.
Proof.
  revert p. induction l as [|x l IH]; intros [|p] Hp; simplify_eq/=; [lia|].
  specialize (IH p Hp). lia.
Qed.

(** Every resident line is a recorded pair of its own: the lines are no
    more than the recorded pairs. *)
Lemma lines_recorded_access rng a c :
  tracked c →
  (sum_list (length <$> cache c) ≤ size (seen_tags c))%nat →
  (sum_list (length <$> cache (state_of (access_cache rng a c)))
   ≤ size (seen_tags (state_of (access_cache rng a c))))%nat.
Proof.
  intros Htr Hle. pose proof Htr as (Hwf & Hres & Hroom & _).
  pose proof Hwf as (_ & Hib & Hsets).
  destruct (access_step rng a c Hwf) as (tag & index & Hd &
    [[Hg ->]|[(p & s & s' & Hg & Hin & -> & Hperm & _)
             |(p & s & s' & Hg & Hnotin & -> & Hc)]]); simpl.
  - done.
  - apply py_getitem_Some in Hg as [_ Hp].
    pose proof (sum_list_insert (cache c) p s s' Hp) as Hsum.
    assert (length s' = length s) as Hl
      by (rewrite <- (tags_of_length s'), Hperm; apply tags_of_length).
    lia.
  - apply (getitem_index _ _ _ _ _ _ Hib Hd) in Hg as (_ & -> & Hp).
    pose proof (classified_fields tag (Z.of_nat p) s c)
      as (_ & _ & _ & _ & -> & _ & _ & _ & _ & _ & ->).
    pose proof (sum_list_insert (cache c) p s s' Hp) as Hsum.
    pose proof (Forall_lookup_1 _ _ _ _ Hsets Hp) as Hok.
    assert (size (seen_tags c)
            ≤ size ({[(tag, Z.of_nat p)]} ∪ seen_tags c))%nat as Hgrow
      by apply subseteq_size, union_subseteq_r.
    destruct Hc as [[Hfull ->]|(Hfull & v & e & Hv & Hperm)].
    + assert ((tag, Z.of_nat p) ∉ seen_tags c) as Hnew.
      { intros Hold. apply Hnotin, (Hroom p s tag Hp); [|done].
        unfold set_full in Hfull. lia. }
      rewrite size_union by (by apply disjoint_singleton_l).
      rewrite size_singleton. rewrite length_app in Hsum. simpl in Hsum. lia.
    + destruct (set_ok_replace _ _ _ _ _ _ Hok Hnotin
                  (lookup_lt_Some _ _ _ Hv) Hperm) as [_ Hl]. lia.
Qed.

Lemma run_seen_within rng trace c :
  tracked c →
  seen_tags (state_of (run rng trace c)) ⊆ pairs c trace ∪ seen_tags c.
Proof.
  revert c. induction trace as [|a trace IH]; intros c Htr; simpl.
  - apply union_subseteq_r.
  - pose proof (access_seen rng a c Htr) as Hs.
    pose proof (tracked_access rng a c Htr) as Htr'.
    pose proof (access_same_config rng a c) as Hcfg.
    unfold pairs. rewrite fmap_cons. simpl.
    destruct (access_cache rng a c) as [c1|e c1]; simpl in *.
    + etrans; [apply (IH c1 Htr')|]. rewrite Hs.
      assert (pairs c1 trace = pairs c trace) as ->.
      { unfold pairs. f_equal. apply list_fmap_ext. intros _ x _.
        by apply decode_same_config. }
      unfold pairs. intros x. rewrite !elem_of_union. tauto.
    + rewrite Hs. apply union_subseteq_r.
Qed.

Lemma small_footprint_run rng U trace c :
  tracked c →
  (sum_list (length <$> cache c) ≤ size (seen_tags c))%nat →
  seen_tags c ∪ pairs c trace ⊆ U →
  Z.of_nat (size U) < nsets c * assoc c →
  capacity_misses (state_of (run rng trace c)) = capacity_misses c.
Proof.
  revert c. induction trace as [|a trace IH]; intros c Htr Hle Hsub Hsmall;
    [done|]. simpl.
  pose proof (tracked_access rng a c Htr) as Htr'.
  pose proof (lines_recorded_access rng a c Htr Hle) as Hle'.
  pose proof (access_seen rng a c Htr) as Hs.
  pose proof (access_same_config rng a c) as Hcfg.
  assert (capacity_misses (state_of (access_cache rng a c)) = capacity_misses c)
    as Hcap.
  { assert (cache_full c = false) as Hcf.
    { unfold cache_full. rewrite Z.geb_leb. apply Z.leb_gt.
      assert (size (seen_tags c) ≤ size U)%nat
        by (apply subseteq_size; etrans; [apply union_subseteq_l|done]).
      lia. }
    destruct (access_cache_view rng a c)
      as [tag index Hd Hg ->|tag index p s i e Hd Hg Hf ->
         |tag index p s Hd Hg Hf ->].
    - done.
    - destruct (touch_state p s i e (set_hits (hits c + 1) (counted c)))
        as (sets & -> & _). done.
    - destruct (install_state rng p s (set_full s c)
                  (Entry tag true (total_accesses c + 1))
                  (classified tag index s c)) as (sets & -> & _). simpl.
      unfold classified, classify. rewrite Hcf, andb_false_r.
      destruct (bool_decide _), (set_full s c); done. }
  assert (pairs (state_of (access_cache rng a c)) trace = pairs c trace) as Hp.
  { unfold pairs. f_equal. apply list_fmap_ext. intros _ x _.
    by apply decode_same_config. }
  assert (seen_tags (state_of (access_cache rng a c))
          ∪ pairs (state_of (access_cache rng a c)) trace ⊆ U) as Hsub'.
  { rewrite Hp. etrans; [|exact Hsub]. unfold pairs. rewrite fmap_cons. simpl.
    destruct (access_cache rng a c); simpl in *; rewrite Hs;
      intros x; rewrite !elem_of_union; tauto. }
  destruct Hcfg as (Hn & _ & Ha & _).
  destruct (access_cache rng a c) as [c1|e c1]; simpl in *; [|done].
  rewrite <- Hcap. apply IH; try done. by rewrite Hn, Ha.
Qed.

Lemma sum_list_empty_sets n :
  sum_list (length <$> replicate n ([] : list entry)) = 0%nat.
Proof. induction n as [|n IH]; [done|]. simpl. exact IH. Qed.

(** X10. When the trace names fewer distinct (tag, index) pairs than the
    cache has lines (nsets * assoc), no miss is counted as a capacity
    miss. *)
Theorem small_footprint_no_capacity nsets bsize assoc subst rng trace :
  valid_config nsets bsize assoc →
  Z.of_nat (size (pairs (init nsets bsize assoc subst) trace)) < nsets * assoc →
  capacity_misses (state_of (simulate nsets bsize assoc subst rng trace)) = 0.
Proof.
  intros Hv Hsmall. unfold simulate.
  rewrite (small_footprint_run rng (pairs (init nsets bsize assoc subst) trace));
    try done.
  - by apply tracked_init.
  - simpl. rewrite sum_list_empty_sets. lia.
  - simpl. by rewrite (left_id_L ∅ (∪)).
Qed.

Lemma small_footprint_no_capacity_witness :
  valid_config 2 1 2
  ∧ Z.of_nat (size (pairs (init 2 1 2 LRU) [0; 2; 4; 0; 2; 4])) < 2 * 2
  ∧ capacity_misses
      (state_of (simulate 2 1 2 LRU (λ _, 0) [0; 2; 4; 0; 2; 4])) = 0.
Proof.
  assert (valid_config 2 1 2) as Hv by (unfold valid_config; lia).
  assert (Z.of_nat (size (pairs (init 2 1 2 LRU) [0; 2; 4; 0; 2; 4])) < 2 * 2)
    as Hs by (vm_compute; reflexivity).
  split_and!; [exact Hv|exact Hs|].
  exact (small_footprint_no_capacity 2 1 2 LRU (λ _, 0) [0; 2; 4; 0; 2; 4] Hv Hs).
Defined.

(** ** The Random policy *)

Lemma random_hit rng a c tag index p s i e :
  subst c = Random →
  get_address_components c a = (tag, index) →
  py_getitem (cache c) index = Some (p, s) →
  list_find (matches tag) s = Some (i, e) →
  access_cache rng a c = Ok (set_hits (hits c + 1) (counted c)).
Proof.
  intros Hpol Hd Hg Hf. rewrite (access_cache_hit _ _ _ _ _ _ _ _ _ Hd Hg Hf).
  unfold touch. simpl. by rewrite Hpol.
Qed.

Lemma random_miss_full rng a c tag index p s :
  subst c = Random → 0 < assoc c →
  get_address_components c a = (tag, index) →
  py_getitem (cache c) index = Some (p, s) →
  list_find (matches tag) s = None →
  Z.of_nat (length s) = assoc c →
  access_cache rng a c
  = Ok (store p (<[Z.to_nat (rng (total_accesses c + 1) mod assoc c)
                   := Entry tag true (total_accesses c + 1)]> s)
          (classified tag index s c)).
Proof.
  intros Hpol Hassoc Hd Hg Hf Hlen.
  rewrite (access_cache_miss _ _ _ _ _ _ _ Hd Hg Hf).
  pose proof (classified_fields tag index s c)
    as (_ & _ & Ha & Hs & _ & _ & _ & Ht & _).
  assert (set_full s c = true) as ->
    by (unfold set_full; apply Z.geb_le; lia).
  unfold install. simpl. rewrite Hs, Hpol, Ha, Ht.
  unfold randint. destruct (Z.ltb_spec (assoc c - 1) 0) as [|_]; [lia|].
  replace (assoc c - 1 - 0 + 1) with (assoc c) by lia.
  rewrite Z.add_0_l. simpl.
  pose proof (Z.mod_pos_bound (rng (total_accesses c + 1)) (assoc c) Hassoc).
  unfold py_setitem. rewrite py_index_nonneg by lia.
  destruct (Z.ltb_spec (rng (total_accesses c + 1) mod assoc c)
              (Z.of_nat (length s))); [done|lia].
Qed.

(** X13. The Random policy: a hit leaves the cache as it is; a miss in a
    full set overwrites the line at position random.randint(0, assoc - 1),
    which lies within the set, with [tag, True, total_accesses], and leaves
    every other line of the set at its position. *)
Theorem random_policy ns bs ways rng trace address tag index p s :
  valid_config ns bs ways →
  let c := state_of (simulate ns bs ways Random rng trace) in
  let c' := state_of (access_cache rng address c) in
  let now := total_accesses c + 1 in
  let v := Z.to_nat (rng now mod ways) in
  get_address_components c address = (tag, index) →
  py_getitem (cache c) index = Some (p, s) →
  ((∃ i e, list_find (matches tag) s = Some (i, e)) → cache c' = cache c)
  ∧ (list_find (matches tag) s = None → ways ≤ Z.of_nat (length s) →
       (v < length s)%nat
       ∧ cache c' !! p = Some (<[v := Entry tag true now]> s)
       ∧ (∀ j e, j ≠ v → s !! j = Some e →
            ∃ s', cache c' !! p = Some s' ∧ s' !! j = Some e)).
Proof.
  intros Hv c c' now v Hd Hg.
  destruct (run_wf ns bs ways Random rng trace Hv)
    as (Hwf & _ & _ & _ & Ha & Hpol). fold c in Hwf, Ha, Hpol.
  pose proof Hwf as (Hassoc & _ & Hsets).
  pose proof Hg as [_ Hp]%py_getitem_Some.
  pose proof (Forall_lookup_1 _ _ _ _ Hsets Hp) as (Hlen & _).
  split.
  - intros (i & e & Hf). subst c'.
    by rewrite (random_hit rng address c tag index p s i e Hpol Hd Hg Hf).
  - intros Hf Hfull. subst c' v now. rewrite <- Ha.
    rewrite (random_miss_full rng address c tag index p s Hpol Hassoc Hd Hg Hf)
      by lia.
    pose proof (classified_fields tag index s c)
      as (_ & _ & _ & _ & Hcache & _).
    pose proof (Z.mod_pos_bound (rng (total_accesses c + 1)) (assoc c) Hassoc).
    assert (Z.to_nat (rng (total_accesses c + 1) mod assoc c)%Z < length s)%nat
      as Hv' by lia.
    cbn [state_of].
    rewrite lookup_store by (rewrite Hcache; by eapply lookup_lt_Some).
    rewrite decide_True by done.
    split_and!; [done|done|].
    intros j e Hj He. eexists. split; [done|].
    by rewrite list_lookup_insert_ne.
Qed.

Lemma random_policy_witness :
  valid_config 1 1 3
  ∧ get_address_components
      (state_of (simulate 1 1 3 Random (λ n, n) [5; 6; 7])) 8 = (8, 0)
  ∧ cache (state_of (access_cache (λ n, n) 8
             (state_of (simulate 1 1 3 Random (λ n, n) [5; 6; 7])))) !! 0%nat
    = Some [Entry 5 true 1; Entry 8 true 4; Entry 7 true 3].
Proof.
  assert (valid_config 1 1 3) as Hv by (unfold valid_config; lia).
  assert (get_address_components
            (state_of (simulate 1 1 3 Random (λ n, n) [5; 6; 7])) 8 = (8, 0))
    as Hd by reflexivity.
  split_and!; [exact Hv|exact Hd|].
  destruct (random_policy 1 1 3 (λ n, n) [5; 6; 7] 8 8 0 0%nat
              [Entry 5 true 1; Entry 6 true 2; Entry 7 true 3] Hv Hd)
    as (_ & H); [reflexivity|].
  destruct H as (_ & H & _); [reflexivity|simpl; lia|].
  exact H.
Defined.

(** ** Direct-mapped caches *)

Lemma classified_set_subst v tag index s c :
  classified tag index s (set_subst v c)
  = set_subst v (classified tag index s c).
Proof.
  unfold classified, classify, set_full, cache_full. simpl.
  repeat case_match; reflexivity.
Qed.

Lemma direct_mapped_access rngR rngF a c :
  wf c → assoc c = 1 → subst c = Random →
  access_cache rngF a (set_subst FIFO c)
  = result_subst FIFO (access_cache rngR a c).
Proof.
  intros Hwf Hone Hpol. pose proof Hwf as (_ & _ & Hsets).
  destruct (access_cache_view rngR a c)
    as [tag index Hd Hg Hr|tag index p s i e Hd Hg Hf Hr|tag index p s Hd Hg Hf Hr].
  - rewrite Hr. by rewrite (access_cache_raise rngF a (set_subst FIFO c) tag index).
  - rewrite (random_hit rngR a c tag index p s i e Hpol Hd Hg Hf).
    rewrite (fifo_hit rngF a (set_subst FIFO c) tag index p s i e); try done.
    pose proof Hg as [_ Hp]%py_getitem_Some.
    pose proof (Forall_lookup_1 _ _ _ _ Hsets Hp) as (Hlen & _).
    apply find_hit_Some in Hf as (Hi & _).
    assert (delete i s ++ [e] = s) as ->.
    { destruct s as [|e0 [|e1 s]]; simpl in Hlen; [done| |lia].
      destruct i as [|i]; simpl in Hi; [by simplify_eq|done]. }
    simpl. f_equal. unfold store, set_subst. simpl.
    by rewrite list_insert_id.
  - pose proof Hg as [_ Hp]%py_getitem_Some.
    pose proof (Forall_lookup_1 _ _ _ _ Hsets Hp) as (Hlen & _).
    destruct s as [|e0 [|e1 s]]; simpl in Hlen; [| |lia].
    + rewrite (miss_room rngR a c tag index p [] Hd Hg Hf)
        by (unfold set_full; rewrite Hone; done).
      rewrite (miss_room rngF a (set_subst FIFO c) tag index p []); try done;
        [|unfold set_full; simpl; rewrite Hone; done].
      simpl. by rewrite classified_set_subst.
    + rewrite (random_miss_full rngR a c tag index p [e0] Hpol ltac:(lia) Hd Hg Hf)
        by (simpl; lia).
      rewrite (fifo_miss_full rngF a (set_subst FIFO c) tag index p e0 []);
        try done; [|unfold set_full; simpl; rewrite Hone; done].
      rewrite Hone, Z.mod_1_r. simpl. by rewrite classified_set_subst.
Qed.

Lemma direct_mapped_run rngR rngF trace c :
  wf c → assoc c = 1 → subst c = Random →
  run rngF trace (set_subst FIFO c) = result_subst FIFO (run rngR trace c)
  ∧ states rngF trace (set_subst FIFO c)
    = set_subst FIFO <$> states rngR trace c.
Proof.
  revert c. induction trace as [|a trace IH]; intros c Hwf Hone Hpol; [done|].
  simpl. rewrite (direct_mapped_access rngR rngF a c Hwf Hone Hpol).
  pose proof (wf_access rngR a c Hwf) as Hwf'.
  pose proof (access_same_config rngR a c) as (_ & _ & Ha & Hs & _).
  destruct (access_cache rngR a c) as [c1|e c1]; simpl in *; [|done].
  destruct (IH c1 Hwf') as [Hrun Hst]; [congruence|congruence|].
  rewrite Hrun, Hst. done.
Qed.

(** X12. Direct-mapped cache (assoc = 1): the three policies give the same
    counters after every access and raise or return together, and 'R' and
    'F' leave the same cache contents, whatever the random draws. *)
Theorem direct_mapped_policy_free ns bs rngR rngF rngL trace :
  0 < ns → 0 < bs →
  let rR := simulate ns bs 1 Random rngR trace in
  let rF := simulate ns bs 1 FIFO rngF trace in
  let rL := simulate ns bs 1 LRU rngL trace in
  rF = result_subst FIFO rR
  ∧ cache (state_of rR) = cache (state_of rF)
  ∧ raised rR = raised rF ∧ raised rF = raised rL
  ∧ counters <$> states rngR trace (init ns bs 1 Random)
    = counters <$> states rngF trace (init ns bs 1 FIFO)
  ∧ counters <$> states rngF trace (init ns bs 1 FIFO)
    = counters <$> states rngL trace (init ns bs 1 LRU)
  ∧ counters (state_of rR) = counters (state_of rF)
  ∧ counters (state_of rF) = counters (state_of rL).
Proof.
  intros Hn Hb rR rF rL.
  assert (valid_config ns bs 1) as Hv by (unfold valid_config; lia).
  destruct (direct_mapped_run rngR rngF trace (init ns bs 1 Random))
    as [Hrun Hst]; [by apply wf_init|done|done|].
  change (set_subst FIFO (init ns bs 1 Random)) with (init ns bs 1 FIFO)
    in Hrun, Hst.
  fold (simulate ns bs 1 FIFO rngF trace) in Hrun.
  fold (simulate ns bs 1 Random rngR trace) in Hrun.
  fold rF rR in Hrun.
  destruct (sim_run rngF rngL trace _ _ (sim_init ns bs 1 Hv))
    as (Hr & Hsim & Hstates).
  fold (simulate ns bs 1 FIFO rngF trace) in Hr, Hsim.
  fold (simulate ns bs 1 LRU rngL trace) in Hr, Hsim.
  fold rF rL in Hr, Hsim.
  destruct Hsim as (_ & _ & _ & _ & _ & _ & _ & _ & Hcnt & _).
  split_and!; try done.
  - rewrite Hrun. by destruct rR.
  - rewrite Hrun. by destruct rR.
  - rewrite Hst, <- list_fmap_compose. by apply list_fmap_ext.
  - rewrite Hrun. by destruct rR.
Qed.

Lemma direct_mapped_policy_free_witness :
  0 < 2 ∧ 0 < 4
  ∧ counters (state_of (simulate 2 4 1 Random (λ n, n) [0; 8; 0; 16; 4]))
    = counters (state_of (simulate 2 4 1 FIFO (λ _, 0) [0; 8; 0; 16; 4])).
Proof.
  assert (0 < 2) as H2 by lia. assert (0 < 4) as H4 by lia.
  split_and!; [exact H2|exact H4|].
  destruct (direct_mapped_policy_free 2 4 (λ n, n) (λ _, 0) (λ _, 0)
              [0; 8; 0; 16; 4] H2 H4) as (_ & _ & _ & _ & _ & _ & H & _).
  exact H.
Defined.

(** ** More ways *)

Lemma suffix_snoc {A} (S B : list A) t :
  S `suffix_of` B → (S ++ [t]) `suffix_of` (B ++ [t]).
Proof. intros [k ->]. exists k. by rewrite (assoc_L (++)). Qed.

Lemma suffix_tail_snoc {A} (S B : list A) t :
  S `suffix_of` B → (tail S ++ [t]) `suffix_of` (B ++ [t]).
Proof.
  intros [k ->]. destruct S as [|x S]; simpl.
  - exists k. by rewrite (right_id_L [] (++)).
  - exists (k ++ [x]). by rewrite <- !(assoc_L (++)).
Qed.

Lemma suffix_tail_tail_snoc {A} (S B : list A) t :
  S `suffix_of` B → (tail S ++ [t]) `suffix_of` (tail B ++ [t]).
Proof.
  intros [[|y k] ->]; simpl; [done|].
  apply suffix_tail_snoc. by exists k.
Qed.

Lemma suffix_snoc_tail {A} (S B : list A) t :
  S `suffix_of` B → (length S < length B)%nat →
  (S ++ [t]) `suffix_of` (tail B ++ [t]).
Proof.
  intros [[|y k] ->] Hlen; simpl in *; [lia|].
  apply suffix_snoc. by exists k.
Qed.

Lemma delete_app_l {A} (k S : list A) j :
  (j < length k)%nat → delete j (k ++ S) = delete j k ++ S.
Proof.
  revert j. induction k as [|y k IH]; intros [|j] Hj; simpl in *; try lia;
    [done|]. by rewrite IH by lia.
Qed.

Lemma delete_app_r {A} (k S : list A) (i : nat) :
  delete (length k + i)%nat (k ++ S) = k ++ delete i S.
Proof. induction k as [|y k IH]; simpl; [done|]. by rewrite IH. Qed.

Lemma suffix_delete_both (S B : list Z) i j t :
  NoDup B → S `suffix_of` B → S !! i = Some t → B !! j = Some t →
  delete i S `suffix_of` delete j B.
Proof.
  intros Hnd [k ->] Hi Hj.
  assert (j = (length k + i)%nat) as ->.
  { eapply NoDup_lookup; [done|done|].
    rewrite lookup_app_r by lia. by replace (length k + i - length k)%nat with i by lia. }
  rewrite delete_app_r. by exists k.
Qed.

Lemma suffix_delete_big (S B : list Z) j t :
  S `suffix_of` B → B !! j = Some t → t ∉ S → S `suffix_of` delete j B.
Proof.
  intros [k ->] Hj Hnotin.
  destruct (decide (j < length k)%nat) as [Hlt|Hge].
  - rewrite delete_app_l by done. by eexists.
  - rewrite lookup_app_r in Hj by lia. destruct Hnotin.
    by eapply list_elem_of_lookup_2.
Qed.

Lemma tags_of_app s t : tags_of (s ++ t) = tags_of s ++ tags_of t.
Proof. apply fmap_app. Qed.

Lemma tags_of_delete i s : tags_of (delete i s) = delete i (tags_of s).
Proof. apply list_fmap_delete. Qed.

Lemma included_access rngS rngB a cS cB :
  included cS cB →
  raised (access_cache rngS a cS) = raised (access_cache rngB a cB)
  ∧ included (state_of (access_cache rngS a cS))
             (state_of (access_cache rngB a cB)).
Proof.
  intros (HwfS & HwfB & HpS & HpB & Ho & Hi & Hways & Ht & Hh & Hm & Hsets).
  pose proof (wf_access rngS a cS HwfS) as HwfS'.
  pose proof (wf_access rngB a cB HwfB) as HwfB'.
  pose proof (access_same_config rngS a cS)
    as (_ & _ & HaS & HsS & HoS & HiS & _).
  pose proof (access_same_config rngB a cB)
    as (_ & _ & HaB & HsB & HoB & HiB & _).
  pose proof (access_total rngS a cS) as HtS.
  pose proof (access_total rngB a cB) as HtB.
  assert (get_address_components cB a = get_address_components cS a) as Hdec.
  { unfold get_address_components. by rewrite Ho, Hi. }
  pose proof (Forall2_length _ _ _ Hsets) as Hlen.
  cut (raised (access_cache rngS a cS) = raised (access_cache rngB a cB)
       ∧ hits (state_of (access_cache rngS a cS))
         ≤ hits (state_of (access_cache rngB a cB))
       ∧ misses (state_of (access_cache rngB a cB))
         ≤ misses (state_of (access_cache rngS a cS))
       ∧ Forall2 (λ sS sB, tags_of sS `suffix_of` tags_of sB)
           (cache (state_of (access_cache rngS a cS)))
           (cache (state_of (access_cache rngB a cB)))).
  { intros (? & ? & ? & ?). split; [done|].
    split_and!; try done; try congruence; lia. }
  clear HwfS' HwfB' HaS HsS HoS HiS HaB HsB HoB HiB HtS HtB.
  destruct (access_cache_view rngS a cS)
    as [tag index Hd Hg HrS|tag index p sS i eS Hd Hg Hf HrS
       |tag index p sS Hd Hg Hf HrS]; rewrite Hd in Hdec.
  - assert (py_getitem (cache cB) index = None) as HgB.
    { apply py_getitem_None. rewrite <- Hlen. by apply py_getitem_None. }
    rewrite HrS, (access_cache_raise rngB a cB tag index Hdec HgB). simpl.
    done.
  - (* a hit in the smaller cache is a hit in the larger *)
    pose proof Hg as [_ HpSs]%py_getitem_Some.
    destruct (Forall2_lookup_l _ _ _ _ _ Hsets HpSs) as (sB & HpBs & Hsuf).
    pose proof (getitem_agree _ _ _ _ _ _ Hlen Hg HpBs) as HgB.
    pose proof HwfB as (_ & _ & HokB).
    pose proof (Forall_lookup_1 _ _ _ _ HokB HpBs) as (_ & HvalidB & HndB).
    pose proof Hf as (HeS & HtS & _)%find_hit_Some.
    assert (tags_of sS !! i = Some tag) as HiS
      by (unfold tags_of; by rewrite list_lookup_fmap, HeS, <- HtS).
    destruct (find_hit_is_Some tag sB HvalidB) as (j & eB & HfB).
    { eapply elem_of_suffix; [|done]. by eapply list_elem_of_lookup_2. }
    pose proof HfB as (HeB & HtB & _)%find_hit_Some.
    assert (tags_of sB !! j = Some tag) as HjB
      by (unfold tags_of; by rewrite list_lookup_fmap, HeB, <- HtB).
    rewrite (fifo_hit rngS a cS tag index p sS i eS HpS Hd Hg Hf).
    rewrite (fifo_hit rngB a cB tag index p sB j eB HpB Hdec HgB HfB).
    simpl. split_and!; [done|lia|lia|].
    apply Forall2_insert; [done|].
    rewrite !tags_of_app, !tags_of_delete. simpl. rewrite HtS, HtB.
    apply suffix_snoc. by eapply suffix_delete_both.
  - (* a miss in the smaller cache *)
    pose proof Hg as [_ HpSs]%py_getitem_Some.
    destruct (Forall2_lookup_l _ _ _ _ _ Hsets HpSs) as (sB & HpBs & Hsuf).
    pose proof (getitem_agree _ _ _ _ _ _ Hlen Hg HpBs) as HgB.
    pose proof HwfS as (HassocS & _ & HokS).
    pose proof HwfB as (HassocB & _ & HokB).
    pose proof (Forall_lookup_1 _ _ _ _ HokS HpSs) as (HlenS & HvalidS & _).
    pose proof (Forall_lookup_1 _ _ _ _ HokB HpBs) as (HlenB & HvalidB & HndB).
    pose proof (find_hit_None tag sS HvalidS Hf) as HnotinS.
    pose proof (classified_fields tag index sS cS)
      as (_ & _ & _ & _ & HcacheS & _ & _ & _ & HhS & HmS & _).
    pose proof (classified_fields tag index sB cB)
      as (_ & _ & _ & _ & HcacheB & _ & _ & _ & HhB & HmB & _).
    (* the state of the smaller cache after the miss *)
    assert (∃ sS', access_cache rngS a cS
                   = Ok (store p sS' (classified tag index sS cS))
                   ∧ ((set_full sS cS = false
                       ∧ tags_of sS' = tags_of sS ++ [tag])
                      ∨ (set_full sS cS = true
                         ∧ tags_of sS' = tail (tags_of sS) ++ [tag])))
      as (sS' & HaccS & HsS').
    { destruct (set_full sS cS) eqn:HfullS.
      - destruct sS as [|e0 r].
        { unfold set_full in HfullS. apply Z.geb_le in HfullS.
          simpl in HfullS. lia. }
        eexists. split; [by apply fifo_miss_full|].
        right. split; [done|]. by rewrite tags_of_app.
      - eexists. split; [by apply miss_room|].
        left. split; [done|]. by rewrite tags_of_app. }
    rewrite HaccS.
    destruct (list_find (matches tag) sB) as [[j eB]|] eqn:HfB.
    + (* it hits in the larger cache *)
      pose proof HfB as (HeB & HtB & _)%find_hit_Some.
      assert (tags_of sB !! j = Some tag) as HjB
        by (unfold tags_of; by rewrite list_lookup_fmap, HeB, <- HtB).
      rewrite (fifo_hit rngB a cB tag index p sB j eB HpB Hdec HgB HfB).
      simpl. rewrite HcacheS, HhS, HmS.
      split_and!; [done|lia|lia|].
      apply Forall2_insert; [done|].
      rewrite tags_of_app, tags_of_delete. simpl. rewrite HtB.
      pose proof (suffix_delete_big _ _ j tag Hsuf HjB HnotinS) as Hsuf'.
      destruct HsS' as [[_ ->]|[_ ->]];
        [by apply suffix_snoc|by apply suffix_tail_snoc].
    + (* it misses in the larger cache as well *)
      destruct (set_full sB cB) eqn:HfullB.
      * destruct sB as [|b0 rB].
        { unfold set_full in HfullB. apply Z.geb_le in HfullB.
          simpl in HfullB. lia. }
        rewrite (fifo_miss_full rngB a cB tag index p b0 rB HpB Hdec HgB HfB
                   HfullB).
        simpl. rewrite HcacheS, HcacheB, HhS, HmS, HhB, HmB.
        split_and!; [done|lia|lia|].
        apply Forall2_insert; [done|].
        rewrite tags_of_app. simpl.
        change (tags_of rB) with (tail (tags_of (b0 :: rB))).
        destruct HsS' as [[HfullS ->]|[_ ->]];
          [|by apply suffix_tail_tail_snoc].
        apply suffix_snoc_tail; [done|].
        rewrite !tags_of_length. unfold set_full in HfullS, HfullB.
        apply Z.geb_le in HfullB. lia.
      * rewrite (miss_room rngB a cB tag index p sB Hdec HgB HfB HfullB).
        simpl. rewrite HcacheS, HcacheB, HhS, HmS, HhB, HmB.
        split_and!; [done|lia|lia|].
        apply Forall2_insert; [done|].
        rewrite tags_of_app. simpl.
        destruct HsS' as [[_ ->]|[_ ->]];
          [by apply suffix_snoc|by apply suffix_tail_snoc].
Qed.

Lemma included_run rngS rngB trace cS cB :
  included cS cB →
  raised (run rngS trace cS) = raised (run rngB trace cB)
  ∧ included (state_of (run rngS trace cS)) (state_of (run rngB trace cB)).
Proof.
  revert cS cB. induction trace as [|a trace IH]; intros cS cB Hinc; [done|].
  simpl. pose proof (included_access rngS rngB a cS cB Hinc) as [Hr Hinc'].
  destruct (access_cache rngS a cS) as [cS'|eS cS'],
           (access_cache rngB a cB) as [cB'|eB cB']; simpl in *; try done.
  by apply IH.
Qed.

Lemma included_init ns bs ways ways' :
  valid_config ns bs ways → ways ≤ ways' →
  included (init ns bs ways FIFO) (init ns bs ways' FIFO).
Proof.
  intros Hv Hle. pose proof Hv as (Hn & Hb & Ha).
  split_and!; try done; try (apply wf_init; unfold valid_config; lia).
  simpl. apply Forall2_replicate. done.
Qed.

(** X11. Under 'F' and under 'L', more ways never lose a hit: on the same
    trace, with the same nsets and bsize, the cache with more ways ends with
    at least as many hits and at most as many misses, and the two runs raise
    or return together. *)
Theorem more_ways_more_hits ns bs ways ways' pol rng rng' trace :
  valid_config ns bs ways → ways ≤ ways' → pol ≠ Random →
  let rS := simulate ns bs ways pol rng trace in
  let rB := simulate ns bs ways' pol rng' trace in
  raised rS = raised rB
  ∧ total_accesses (state_of rS) = total_accesses (state_of rB)
  ∧ hits (state_of rS) ≤ hits (state_of rB)
  ∧ misses (state_of rB) ≤ misses (state_of rS).
Proof.
  intros Hv Hle Hpol rS rB.
  assert (valid_config ns bs ways') as Hv'
    by (unfold valid_config in *; lia).
  destruct (included_run rng rng' trace _ _ (included_init ns bs ways ways' Hv Hle))
    as (Hr & _ & _ & _ & _ & _ & _ & _ & Ht & Hh & Hm & _).
  fold (simulate ns bs ways FIFO rng trace) in Hr, Ht, Hh, Hm.
  fold (simulate ns bs ways' FIFO rng' trace) in Hr, Ht, Hh, Hm.
  destruct pol; [done|done|].
  destruct (sim_run rng rng trace _ _ (sim_init ns bs ways Hv))
    as (HrS & (_ & _ & _ & _ & _ & _ & _ & _ & HcS & _) & _).
  destruct (sim_run rng' rng' trace _ _ (sim_init ns bs ways' Hv'))
    as (HrB & (_ & _ & _ & _ & _ & _ & _ & _ & HcB & _) & _).
  fold (simulate ns bs ways FIFO rng trace) in HrS, HcS.
  fold (simulate ns bs ways' FIFO rng' trace) in HrB, HcB.
  fold (simulate ns bs ways LRU rng trace) in HrS, HcS.
  fold (simulate ns bs ways' LRU rng' trace) in HrB, HcB.
  fold rS in HrS, HcS. fold rB in HrB, HcB.
  unfold counters in HcS, HcB.
  injection HcS as HtS HhS HmS _ _ _. injection HcB as HtB HhB HmB _ _ _.
  split_and!; [congruence|lia|lia|lia].
Qed.

Lemma more_ways_more_hits_witness :
  valid_config 1 1 2 ∧ 2 ≤ 3 ∧ LRU ≠ Random
  ∧ hits (state_of (simulate 1 1 2 LRU (λ _, 0) [0; 1; 2; 0; 1; 2]))
    ≤ hits (state_of (simulate 1 1 3 LRU (λ _, 0) [0; 1; 2; 0; 1; 2])).
Proof.
  assert (valid_config 1 1 2) as Hv by (unfold valid_config; lia).
  assert (2 ≤ 3) as Hle by lia.
  assert (LRU ≠ Random) as Hp by discriminate.
  split_and!; [exact Hv|exact Hle|exact Hp|].
  destruct (more_ways_more_hits 1 1 2 3 LRU (λ _, 0) (λ _, 0)
              [0; 1; 2; 0; 1; 2] Hv Hle Hp) as (_ & _ & H & _).
  exact H.
Defined.

(** ** The command line *)

Lemma unpack_I_range b0 b1 b2 b3 : 0 ≤ unpack_I b0 b1 b2 b3 < 2 ^ 32.
Proof.
  unfold unpack_I.
  pose proof (Byte.to_N_bounded b0). pose proof (Byte.to_N_bounded b1).
  pose proof (Byte.to_N_bounded b2). pose proof (Byte.to_N_bounded b3).
  lia.
Qed.

Lemma four_induction (P : list byte → Prop) :
  P [] → (∀ b0, P [b0]) → (∀ b0 b1, P [b0; b1]) → (∀ b0 b1 b2, P [b0; b1; b2]) →
  (∀ b0 b1 b2 b3 rest, P rest → P (b0 :: b1 :: b2 :: b3 :: rest)) →
  ∀ data, P data.
Proof.
  intros H0 H1 H2 H3 H4.
  fix IH 1. intros [|b0 [|b1 [|b2 [|b3 rest]]]].
  - exact H0.
  - exact (H1 b0).
  - exact (H2 b0 b1).
  - exact (H3 b0 b1 b2).
  - exact (H4 b0 b1 b2 b3 rest (IH rest)).
Qed.

(** X14. The reading loop of main on the bytes of a file: it runs
    access_cache on the big-endian values of the successive groups of four
    bytes, length / 4 of them rounded down, each in [0, 2^32); it stops at
    the first access that raises, and otherwise fails with struct.error
    when the length is not a multiple of four. *)
Theorem read_loop_run rng data c :
  Forall (λ a, 0 ≤ a < 2 ^ 32) (records data)
  ∧ length (records data) = (length data / 4)%nat
  ∧ read_loop rng data c
    = match run rng (records data) c with
      | Raise e c' => Failed (Py e) c'
      | Ok c' =>
          if decide (length data `mod` 4 = 0)%nat then Finished c'
          else Failed StructError c'
      end.
Proof.
  revert c. induction data as [| | | |b0 b1 b2 b3 rest IH] using four_induction;
    intros c; try (split_and!; [constructor|done|done]).
  destruct (IH c) as (Hall & Hlen & _).
  split_and!.
  - simpl. constructor; [apply unpack_I_range|done].
  - cbn [records length]. rewrite Hlen.
    change (S (S (S (S (length rest))))) with (4 + length rest)%nat.
    replace (4 + length rest)%nat with (1 * 4 + length rest)%nat by lia.
    rewrite Nat.div_add_l by lia. simpl. lia.
  - cbn [read_loop records run].
    destruct (access_cache rng (unpack_I b0 b1 b2 b3) c) as [c1|e c1]; [|done].
    destruct (IH c1) as (_ & _ & ->).
    destruct (run rng (records rest) c1); [|done].
    cbn [length].
    change (S (S (S (S (length rest))))) with (4 + length rest)%nat.
    replace ((4 + length rest) `mod` 4)%nat with (length rest `mod` 4)%nat; [done|].
    replace (4 + length rest)%nat with (length rest + 1 * 4)%nat by lia.
    by rewrite Nat.Div0.mod_add.
Qed.

Lemma loop_finished_iff rng ns bs ways pol data c :
  valid_config ns bs ways →
  read_loop rng data (init ns bs ways pol) = Finished c
  ↔ (length data `mod` 4 = 0)%nat
    ∧ Forall (λ a, (get_address_components (init ns bs ways pol) a).2 < ns)
        (records data)
    ∧ c = state_of (simulate ns bs ways pol rng (records data)).
Proof.
  intros Hv. pose proof Hv as (Hn & _).
  pose proof (wf_init ns bs ways pol Hv) as Hwf.
  destruct (read_loop_run rng data (init ns bs ways pol)) as (_ & _ & ->).
  assert (Z.of_nat (length (cache (init ns bs ways pol))) = ns) as Hlen
    by (simpl; rewrite length_replicate; lia).
  unfold simulate. split.
  - destruct (run rng (records data) (init ns bs ways pol)) as [c'|e c'] eqn:Hrun;
      [|done].
    case_decide as Hmod; [|done]. intros [= <-].
    split_and!; [done| |done].
    pose proof (run_all_below rng _ _ _ Hwf Hrun) as Hall.
    by rewrite Hlen in Hall.
  - intros (Hmod & Hall & ->).
    destruct (run_returns rng (records data) (init ns bs ways pol) Hwf)
      as [c' ->]; [by rewrite Hlen|].
    by rewrite decide_True.
Qed.

Section Main.

Context (py_int : string → option Z) (py_upper : string → string).
Context (files : string → file) (rng : Z → Z).

(** X15. main ends with status 0 exactly when it was given six arguments,
    the four numeric ones parse, nsets, bsize and assoc are positive, the
    policy in upper case is R, F or L, the flag is 0 or 1, the file can be
    read, its length is a multiple of four and every address in it has an
    index below nsets.  It then prints the statistics of the run over the
    addresses of the file. *)
Theorem main_succeeds_iff argv out :
  main py_int py_upper files rng argv = (out, 0)
  ↔ ∃ a0 a1 a2 a3 a4 a5 a6 ns bs ways flag pol data,
      argv = [a0; a1; a2; a3; a4; a5; a6]
      ∧ py_int a1 = Some ns ∧ py_int a2 = Some bs ∧ py_int a3 = Some ways
      ∧ py_int a5 = Some flag
      ∧ 0 < ns ∧ 0 < bs ∧ 0 < ways
      ∧ policy_of_string (py_upper a4) = Some pol
      ∧ (flag = 0 ∨ flag = 1)
      ∧ files a6 = Content data
      ∧ (length data `mod` 4 = 0)%nat
      ∧ Forall (λ a, (get_address_components (init ns bs ways pol) a).2 < ns)
          (records data)
      ∧ out = Stats flag (state_of (simulate ns bs ways pol rng (records data))).
Proof.
  split.
  - unfold main.
    destruct argv as [|a0 [|a1 [|a2 [|a3 [|a4 [|a5 [|a6 [|a7 argv]]]]]]]];
      try done.
    destruct (py_int a1) as [ns|] eqn:H1; [|done].
    destruct (py_int a2) as [bs|] eqn:H2; [|done].
    destruct (py_int a3) as [ways|] eqn:H3; [|done].
    destruct (py_int a5) as [flag|] eqn:H5; [|done].
    destruct (Z.leb_spec ns 0); [done|].
    destruct (Z.leb_spec bs 0); [done|].
    destruct (Z.leb_spec ways 0); [done|]. simpl.
    destruct (policy_of_string (py_upper a4)) as [pol|] eqn:Hpol; [|done].
    destruct (negb ((flag =? 0) || (flag =? 1))) eqn:Hflag; [done|].
    destruct (files a6) as [| |data] eqn:Hfile; try done.
    destruct (read_loop rng data (init ns bs ways pol)) as [c|e c] eqn:Hloop;
      [|done].
    intros [= <-].
    apply loop_finished_iff in Hloop as (Hmod & Hall & ->);
      [|unfold valid_config; lia].
    exists a0, a1, a2, a3, a4, a5, a6, ns, bs, ways, flag, pol, data.
    split_and!; try done.
    apply negb_false_iff, orb_true_iff in Hflag as [?%Z.eqb_eq|?%Z.eqb_eq];
      [by left|by right].
  - intros (a0 & a1 & a2 & a3 & a4 & a5 & a6 & ns & bs & ways & flag & pol
            & data & -> & H1 & H2 & H3 & H5 & Hn & Hb & Hw & Hpol & Hflag
            & Hfile & Hmod & Hall & ->).
    unfold main. rewrite H1, H2, H3, H5.
    destruct (Z.leb_spec ns 0); [lia|].
    destruct (Z.leb_spec bs 0); [lia|].
    destruct (Z.leb_spec ways 0); [lia|]. simpl.
    rewrite Hpol.
    assert (negb ((flag =? 0) || (flag =? 1)) = false) as ->.
    { apply negb_false_iff, orb_true_iff.
      destruct Hflag as [->| ->]; [by left|by right]. }
    rewrite Hfile.
    assert (read_loop rng data (init ns bs ways pol)
            = Finished (state_of (simulate ns bs ways pol rng (records data))))
      as ->; [|done].
    apply loop_finished_iff; [unfold valid_config; lia|done].
Qed.

(** X16. Whenever main prints statistics, the exit status is 0, the flag is
    0 or 1, total_accesses is the number of four-byte records of the file,
    hits + misses = total_accesses, the three kinds of miss add up to
    misses, compulsory_misses is the number of distinct (tag, index) pairs
    recorded, and no counter is negative. *)
Theorem main_reports argv flag c status :
  main py_int py_upper files rng argv = (Stats flag c, status) →
  status = 0
  ∧ (flag = 0 ∨ flag = 1)
  ∧ ∃ a6 data, argv !! 6%nat = Some a6 ∧ files a6 = Content data
      ∧ total_accesses c = Z.of_nat (length data / 4)
      ∧ hits c + misses c = total_accesses c
      ∧ compulsory_misses c + capacity_misses c + conflict_misses c
        = misses c
      ∧ compulsory_misses c = Z.of_nat (size (seen_tags c))
      ∧ 0 ≤ hits c ∧ 0 ≤ compulsory_misses c ∧ 0 ≤ capacity_misses c
      ∧ 0 ≤ conflict_misses c.
Proof.
  intros Hmain.
  assert (status = 0) as ->.
  { unfold main in Hmain. repeat case_match; by simplify_eq. }
  split; [done|].
  apply main_succeeds_iff in Hmain
    as (a0 & a1 & a2 & a3 & a4 & a5 & a6 & ns & bs & ways & flag' & pol
        & data & -> & H1 & H2 & H3 & H5 & Hn & Hb & Hw & Hpol & Hflag
        & Hfile & Hmod & Hall & [= -> ->]).
  split; [done|]. exists a6, data. split; [done|]. split; [done|].
  assert (valid_config ns bs ways) as Hv by (unfold valid_config; lia).
  pose proof (wf_init ns bs ways pol Hv) as Hwf.
  destruct (run_returns rng (records data) (init ns bs ways pol) Hwf)
    as [c Hrun].
  { simpl. rewrite length_replicate. eapply Forall_impl; [done|].
    intros a Ha. simpl in *. lia. }
  unfold simulate. rewrite Hrun. simpl.
  destruct (run_counters rng _ _ _ Hrun) as [Ht Hok].
  destruct (Hok (counters_ok_init ns bs ways pol)) as (Hs1 & Hs2 & Hpos).
  destruct (read_loop_run rng data (init ns bs ways pol)) as (_ & Hlen & _).
  pose proof (tracked_run rng (records data) _ (tracked_init ns bs ways pol Hv))
    as (_ & _ & _ & Hcount).
  rewrite Hrun in Hcount. simpl in Hcount, Ht.
  unfold counters in Hpos. rewrite !Forall_cons in Hpos.
  split_and!; try done; try lia. rewrite Ht, Hlen. apply Z.add_0_l.
Qed.

End Main.

Lemma main_succeeds_iff_witness :
  main (λ s, if decide (s = "2") then Some 2
             else if decide (s = "0") then Some 0 else None)
       (λ s, s)
       (λ _, Content [x00; x00; x00; x03; x00; x00; x00; x03])
       (λ _, 0)
       ["sim"; "2"; "2"; "2"; "L"; "0"; "trace.bin"]
  = (Stats 0 (state_of (simulate 2 2 2 LRU (λ _, 0) [3; 3])), 0).
Proof.
  apply (proj2 (main_succeeds_iff _ _ _ _ _ _)).
  exists "sim", "2", "2", "2", "L", "0", "trace.bin", 2, 2, 2, 0, LRU,
    [x00; x00; x00; x03; x00; x00; x00; x03].
  split_and!; try reflexivity; try lia.
  change (records [x00; x00; x00; x03; x00; x00; x00; x03]) with [3; 3].
  repeat (constructor; [vm_compute; reflexivity|]). constructor.
Defined.

Lemma main_reports_witness :
  main (λ s, if decide (s = "2") then Some 2
             else if decide (s = "0") then Some 0 else None)
       (λ s, s)
       (λ _, Content [x00; x00; x00; x03; x00; x00; x00; x03])
       (λ _, 0)
       ["sim"; "2"; "2"; "2"; "L"; "0"; "trace.bin"]
  = (Stats 0 (state_of (simulate 2 2 2 LRU (λ _, 0) [3; 3])), 0)
  ∧ total_accesses (state_of (simulate 2 2 2 LRU (λ _, 0) [3; 3])) = 2.
Proof.
  assert (main (λ s, if decide (s = "2") then Some 2
                     else if decide (s = "0") then Some 0 else None)
            (λ s, s)
            (λ _, Content [x00; x00; x00; x03; x00; x00; x00; x03])
            (λ _, 0)
            ["sim"; "2"; "2"; "2"; "L"; "0"; "trace.bin"]
          = (Stats 0 (state_of (simulate 2 2 2 LRU (λ _, 0) [3; 3])), 0)) as H
    by (vm_compute; reflexivity).
  split; [exact H|].
  destruct (main_reports _ _ _ _ _ _ _ _ H)
    as (_ & _ & a6 & data & Ha6 & Hf & Ht & _).
  injection Ha6 as <-. injection Hf as <-. exact Ht.
Defined.
